(** * inis-pdf-to-text: column boxes, line reconstruction and page ranges

    A shallow embedding of [script/inis-pdf-to-text.py].

    - Python [str] values are lists of Unicode code points.
    - Python [float] values are IEEE-754 binary64 numbers: Rocq's primitive
      floats, with Python's [<], [<=], [==] read as [ltb], [leb], [eqb].
    - Python [int] values are [Z].
    - Exceptions are the [Raise] branch of the [result] monad.
    - What the script takes from outside (the [float], [round] and
      [str.lower] builtins, pdfplumber's pages) is the [Runtime] interface. *)

From Stdlib Require Import ZArith NArith List Bool Lia Floats String Ascii.
From Stdlib Require Import Sorted Permutation.
Import ListNotations.

Set Implicit Arguments.

(* ================================================================== *)
(** ** Python strings *)

Module Str.

Definition char := N.
Definition str := list char.

(** A Rocq string literal read as a [str] (one code point per character). *)
Definition lit (s : string) : str := map N_of_ascii (list_ascii_of_string s).

Definition comma : char := 44%N.
Definition colon : char := 58%N.
Definition percent : char := 37%N.
Definition newline : char := 10%N.
Definition cr : char := 13%N.
Definition space : char := 32%N.

(** [c.isspace()]: the code points Python's [strip] family removes. *)
Definition is_space (c : char) : bool :=
  ((9 <=? c) && (c <=? 13) || (28 <=? c) && (c <=? 32) || (c =? 133) || (c =? 160)
   || (c =? 5760) || (8192 <=? c) && (c <=? 8202) || (c =? 8232) || (c =? 8233)
   || (c =? 8239) || (c =? 8287) || (c =? 12288))%N.

(** The code points at which [str.splitlines] breaks a line. *)
Definition is_linebreak (c : char) : bool :=
  ((10 <=? c) && (c <=? 13) || (28 <=? c) && (c <=? 30) || (c =? 133)
   || (c =? 8232) || (c =? 8233))%N.

Definition is_empty (s : str) : bool :=
  match s with [] => true | _ :: _ => false end.

(** [s.lstrip()] *)
Fixpoint lstrip (s : str) : str :=
  match s with
  | [] => []
  | c :: s' => if is_space c then lstrip s' else s
  end.

(** [s.rstrip()] *)
Fixpoint rstrip (s : str) : str :=
  match s with
  | [] => []
  | c :: s' =>
      match rstrip s' with
      | [] => if is_space c then [] else [c]
      | r => c :: r
      end
  end.

(** [s.strip()] *)
Definition strip (s : str) : str := rstrip (lstrip s).

(** [sep in s] for a one-character [sep]. *)
Definition contains (sep : char) (s : str) : bool := existsb (N.eqb sep) s.

(** [s.split(sep)] for a one-character [sep]: never the empty list. *)
Fixpoint split (sep : char) (s : str) : list str :=
  match s with
  | [] => [[]]
  | c :: s' =>
      if (c =? sep)%N then [] :: split sep s'
      else match split sep s' with
           | [] => [[c]]
           | w :: ws => (c :: w) :: ws
           end
  end.

(** [s.split(sep, 1)]: [[a; b]] around the first [sep], or [[s]]. *)
Fixpoint split1 (sep : char) (s : str) : list str :=
  match s with
  | [] => [[]]
  | c :: s' =>
      if (c =? sep)%N then [[]; s']
      else match split1 sep s' with
           | a :: rest => (c :: a) :: rest
           | [] => [[c]]
           end
  end.

(** [sep.join(parts)] *)
Fixpoint join (sep : str) (parts : list str) : str :=
  match parts with
  | [] => []
  | [p] => p
  | p :: ps => p ++ sep ++ join sep ps
  end.

(** [join] with the empty separator *)
Definition concat_all (parts : list str) : str := List.concat parts.

(** [s.endswith(c)] for a one-character suffix. *)
Definition endswith (c : char) (s : str) : bool :=
  match rev s with
  | x :: _ => (x =? c)%N
  | [] => false
  end.

(** [s[:-1]] *)
Definition drop_last (s : str) : str := removelast s.

(** [s.splitlines()]: lines without their terminators; ["\r\n"] is one
    terminator; a terminator at the very end opens no further line. *)
Fixpoint splitlines (s : str) : list str :=
  match s with
  | [] => []
  | c :: s' =>
      if is_linebreak c then
        [] :: match s' with
              | d :: s'' =>
                  if (c =? cr)%N && (d =? newline)%N
                  then splitlines s'' else splitlines s'
              | [] => []
              end
      else
        match splitlines s' with
        | [] => [[c]]
        | l :: ls => (c :: l) :: ls
        end
  end.

(** [s.startswith(p)] *)
Fixpoint startswith (p s : str) : bool :=
  match p, s with
  | [], _ => true
  | _ :: _, [] => false
  | a :: p', b :: s' => (a =? b)%N && startswith p' s'
  end.

(** [p in s] for a string [p] *)
Fixpoint contains_str (p s : str) : bool :=
  startswith p s ||
  match s with
  | [] => false
  | _ :: s' => contains_str p s'
  end.

End Str.

Import Str.

(* ================================================================== *)
(** ** Python floats *)

Definition py_lt (a b : float) : bool := PrimFloat.ltb a b.
Definition py_le (a b : float) : bool := PrimFloat.leb a b.
Definition py_gt (a b : float) : bool := PrimFloat.ltb b a.
Definition py_ge (a b : float) : bool := PrimFloat.leb b a.

(** [max(a, b)] on two floats: [b] when [b > a], else [a]. *)
Definition py_max (a b : float) : float := if py_gt b a then b else a.

(** [min(a, b)] on two floats: [b] when [b < a], else [a]. *)
Definition py_min (a b : float) : float := if py_lt b a then b else a.

(** The correctly rounded binary64 value of an integer, as a specification
    float; an infinity when the integer is out of range. *)
Definition SF_of_Z (n : Z) : spec_float := binary_normalize prec emax n 0 false.

(* ================================================================== *)
(** ** Exceptions *)

Definition box := (float * float)%type.

Inductive exn :=
  (** [ValueError("Invalid column spec: 'p' (missing ':')")] *)
  | FormatError (p : str)
  (** [ValueError("Box with x1<=x0: 'p' -> (x0, x1)")] *)
  | InvalidBoxError (p : str) (x0 x1 : float)
  (** [ValueError("Column boxes overlap or are not ordered: prev vs next")] *)
  | OverlapError (prev next : box)
  (** [ValueError] raised by [float(s)] on a string that is no number *)
  | FloatSyntaxError (s : str)
  (** [ValueError] raised by unpacking [a, b = ...] from a list of other length *)
  | UnpackError
  (** [ZeroDivisionError("float division by zero")] *)
  | ZeroDivisionError
  (** [OverflowError("int too large to convert to float")] *)
  | OverflowError
  (** [IndexError("list index out of range")] at the given index *)
  | IndexError (idx : Z)
  (** an exception raised inside pdfplumber *)
  | PdfError (msg : str).

Inductive result (A : Type) :=
  | Ok (a : A)
  | Raise (e : exn).
Arguments Ok {A} a.
Arguments Raise {A} e.

Definition bind {A B} (m : result A) (k : A -> result B) : result B :=
  match m with
  | Ok a => k a
  | Raise e => Raise e
  end.

Notation "x <- m ;; k" := (bind m (fun x => k))
  (at level 61, m at next level, right associativity).
Notation "' pat <- m ;; k" := (bind m (fun x => match x with pat => k end))
  (at level 61, pat pattern, m at next level, right associativity).

(** [float(n)] for an [int]. *)
Definition float_of_int (n : Z) : result float :=
  match SF_of_Z n with
  | S754_infinity _ => Raise OverflowError
  | f => Ok (SF2Prim f)
  end.

(** [a / b] on floats. *)
Definition py_div (a b : float) : result float :=
  if PrimFloat.eqb b 0%float then Raise ZeroDivisionError else Ok (a / b)%float.

(* ================================================================== *)
(** ** Glyphs, pages and what the script takes from outside *)

(** One entry of pdfplumber's [chars]: a dict read with [ch.get]. A missing
    ["text"] or ["fontname"] reads as the empty string; a missing coordinate
    is [None]. *)
Record glyph := {
  g_text : str;
  g_x0 : option float;
  g_x1 : option float;
  g_top : option float;
  g_fontname : str
}.

Record page := {
  page_width : float;
  page_height : float;
  page_chars : list glyph
}.

Definition bbox := (float * float * float * float)%type.

Class Runtime := {
  (** [float(s)]: [None] when it raises [ValueError] *)
  float_of_str : str -> option float;
  (** [round(x, 3)] *)
  round3 : float -> float;
  (** [s.lower()] *)
  lower : str -> str;
  (** [page.crop(bbox).chars or []] *)
  crop_chars : page -> bbox -> result (list glyph)
}.

(** [sorted(l, key=key)] with [lt] as the keys' [<]: a stable sort by
    insertion, each element placed in the sorted prefix before the first
    element it is less than. On keys that [lt] orders (floats, or pairs of
    floats, with no NaN among them) every stable sort, CPython's among
    them, returns this list: [sorted_by_float_keys], [sorted_by_pair_keys].
    On keys with a NaN the result of CPython's sort depends on the
    comparisons it happens to make and can be another arrangement of the
    same elements; what is proved below of the order of a sorted list is
    therefore proved for keys without NaN only. *)
Section SortedBy.
Variables (A K : Type) (lt : K -> K -> bool) (key : A -> K).

Fixpoint insert_by (x : A) (l : list A) : list A :=
  match l with
  | [] => [x]
  | y :: l' => if lt (key x) (key y) then x :: l else y :: insert_by x l'
  end.

Definition sorted_by (l : list A) : list A :=
  fold_left (fun acc x => insert_by x acc) l [].
End SortedBy.

(** [range(a, b)] *)
Definition range (a b : Z) : list Z :=
  map (fun k => (a + Z.of_nat k)%Z) (seq 0 (Z.to_nat (b - a))).

Section Program.
Context {RT : Runtime}.

(* ------------------------------------------------------------------ *)
(** *** clean_lines *)

Definition is_blank (ln : str) : bool := is_empty (strip ln).

(** The loop of [clean_lines]: [out] in order, given [last_blank]. *)
Fixpoint clean_loop (lines : list str) (last_blank : bool) : list str :=
  match lines with
  | [] => []
  | ln :: rest =>
      let blank := is_blank ln in
      if blank && last_blank then clean_loop rest last_blank
      else ln :: clean_loop rest blank
  end.

Definition clean_lines (text : str) : str :=
  if is_empty text then []
  else
    let lines := map rstrip (splitlines text) in
    let out := clean_loop lines false in
    strip (join [newline] out).

(* ------------------------------------------------------------------ *)
(** *** Column specifications *)

Definition _parse_coord (token : str) (width : float) : result float :=
  let t := strip token in
  if endswith percent t then
    match float_of_str (drop_last t) with
    | Some v => Ok ((v / 100) * width)%float
    | None => Raise (FloatSyntaxError (drop_last t))
    end
  else
    match float_of_str t with
    | Some v => Ok v
    | None => Raise (FloatSyntaxError t)
    end.

(** One turn of the [for p in parts] loop: the box appended. *)
Definition parse_part (p : str) (width : float) : result box :=
  if negb (contains colon p) then Raise (FormatError p)
  else
    match split1 colon p with
    | [a; b] =>
        x0 <- _parse_coord a width ;;
        x1 <- _parse_coord b width ;;
        if py_le x1 x0 then Raise (InvalidBoxError p x0 x1)
        else Ok (x0, x1)
    | _ => Raise UnpackError
    end.

(** The [for p in parts] loop: [boxes] in order, or the first exception. *)
Fixpoint parse_parts (parts : list str) (width : float) : result (list box) :=
  match parts with
  | [] => Ok []
  | p :: ps =>
      b <- parse_part p width ;;
      bs <- parse_parts ps width ;;
      Ok (b :: bs)
  end.

(** The [for i in range(1, len(boxes_sorted))] loop. *)
Fixpoint check_overlaps (boxes_sorted : list box) : result unit :=
  match boxes_sorted with
  | prev :: ((next :: _) as tl) =>
      if py_lt (fst next) (snd prev) then Raise (OverlapError prev next)
      else check_overlaps tl
  | _ => Ok tt
  end.

Definition nonblank_parts (spec : str) : list str :=
  filter (fun p => negb (is_empty (strip p))) (split comma spec).

Definition parse_cols_spec (spec : str) (width : float) : result (list box) :=
  if is_empty spec then Ok []
  else
    let parts := nonblank_parts spec in
    boxes <- parse_parts parts width ;;
    let boxes_sorted := sorted_by py_lt (@fst float float) boxes in
    _ <- check_overlaps boxes_sorted ;;
    Ok boxes_sorted.

(** The [for i in range(n)] loop of [equal_columns]. *)
Fixpoint equal_columns_loop (step : float) (idxs : list Z) : result (list box) :=
  match idxs with
  | [] => Ok []
  | i :: rest =>
      fi <- float_of_int i ;;
      fi1 <- float_of_int (i + 1) ;;
      cols <- equal_columns_loop step rest ;;
      Ok ((fi * step, fi1 * step)%float :: cols)
  end.

Definition equal_columns (width : float) (n : Z) : result (list box) :=
  fn <- float_of_int n ;;
  step <- py_div width fn ;;
  equal_columns_loop step (range 0 n).

(* ------------------------------------------------------------------ *)
(** *** Bold-aware text reconstruction *)

Definition _BOLD_TOKENS : list str :=
  map lit ["bold"; "bd"; "black"; "heavy"; "semibold"; "demi"; "mediumbold"]%string.

Definition _looks_bold (fontname : str) : bool :=
  if is_empty fontname then false
  else
    let fn := lower fontname in
    existsb (fun tok => contains_str tok fn) _BOLD_TOKENS.

Definition get_or (d : float) (o : option float) : float :=
  match o with Some v => v | None => d end.

(** [<] on the sort keys [(round(top, 3), x0)]: tuples compare at their
    first unequal component. *)
Definition key_lt (a b : float * float) : bool :=
  if PrimFloat.eqb (fst a) (fst b) then py_lt (snd a) (snd b)
  else py_lt (fst a) (fst b).

Definition sort_by_x0 (line : list glyph) : list glyph :=
  sorted_by py_lt (fun c => get_or 0 (g_x0 c)) line.

(** The [for ch in chars_sorted] loop and the final flush. *)
Fixpoint group_loop (line_tol : float) (chars_sorted : list glyph)
    (lines : list (list glyph)) (current_line : list glyph)
    (current_top : option float) : list (list glyph) :=
  match chars_sorted with
  | [] =>
      match current_line with
      | [] => lines
      | _ :: _ => lines ++ [sort_by_x0 current_line]
      end
  | ch :: rest =>
      let ch_top := get_or 0 (g_top ch) in
      match current_line, current_top with
      | _ :: _, Some top0 =>
          if py_gt (abs (ch_top - top0)) line_tol
          then group_loop line_tol rest (lines ++ [sort_by_x0 current_line])
                          [ch] (Some ch_top)
          else group_loop line_tol rest lines (current_line ++ [ch]) current_top
      | _, _ => group_loop line_tol rest lines [ch] (Some ch_top)
      end
  end.

Definition _group_chars_into_lines (chars : list glyph) (line_tol : float)
    : list (list glyph) :=
  match chars with
  | [] => []
  | _ :: _ =>
      let chars_sorted :=
        sorted_by key_lt
          (fun c => (round3 (get_or 0 (g_top c)), get_or 0 (g_x0 c))) chars in
      group_loop line_tol chars_sorted [] [] None
  end.

(** The items appended to [out], kept apart by what appended them. *)
Inductive piece :=
  | Space
  | BoldOpen
  | BoldClose
  | Text (txt : str).

Definition render (p : piece) : str :=
  match p with
  | Space => lit " "
  | BoldOpen => lit "<bold>"
  | BoldClose => lit "</bold>"
  | Text txt => txt
  end.

(** The variables of the loop of [_reconstruct_line_with_bold]. *)
Record rstate := {
  out : list piece;
  in_bold : bool;
  prev_x1 : option float;
  prev_w : option float
}.

Definition rstate0 : rstate :=
  {| out := []; in_bold := false; prev_x1 := None; prev_w := None |}.

(** [w]: the glyph's width, when both edges are known. *)
Definition glyph_w (ch : glyph) : option float :=
  match g_x0 ch, g_x1 ch with
  | Some x0, Some x1 => Some (py_max 0 (x1 - x0))
  | _, _ => None
  end.

(** [avg_char_w] *)
Definition avg_char_w (prev_w : option float) : float :=
  match prev_w with
  | Some w => if py_gt w 0 then w else 3
  | None => 3
  end.

(** The space heuristic: whether [" "] is appended before the glyph. *)
Definition wants_space (gap_ratio : float) (prev_x1 prev_w : option float)
    (ch : glyph) : bool :=
  match prev_x1, g_x0 ch with
  | Some px1, Some x0 => py_gt (x0 - px1) (gap_ratio * avg_char_w prev_w)
  | _, _ => false
  end.

(** One turn of the [for ch in line_chars] loop. *)
Definition rstep (gap_ratio : float) (st : rstate) (ch : glyph) : rstate :=
  let txt := g_text ch in
  if is_empty txt then st
  else
    let out1 :=
      if wants_space gap_ratio (prev_x1 st) (prev_w st) ch
      then out st ++ [Space] else out st in
    let is_bold := _looks_bold (g_fontname ch) in
    let '(out2, in_bold2) :=
      if is_bold && negb (in_bold st) then (out1 ++ [BoldOpen], true)
      else if negb is_bold && in_bold st then (out1 ++ [BoldClose], false)
      else (out1, in_bold st) in
    {| out := out2 ++ [Text txt];
       in_bold := in_bold2;
       prev_x1 := g_x1 ch;
       prev_w := glyph_w ch |}.

(** [out] when the function returns: the loop, then the closing tag. *)
Definition reconstruct_pieces (line_chars : list glyph) (gap_ratio : float)
    : list piece :=
  let st := fold_left (rstep gap_ratio) line_chars rstate0 in
  if in_bold st then out st ++ [BoldClose] else out st.

Definition _reconstruct_line_with_bold (line_chars : list glyph)
    (gap_ratio : float) : str :=
  match line_chars with
  | [] => []
  | _ :: _ => concat_all (map render (reconstruct_pieces line_chars gap_ratio))
  end.

Definition extract_text_with_bold (pg : page) (bb : bbox) (line_tol : float)
    : result str :=
  chars <- crop_chars pg bb ;;
  let lines := _group_chars_into_lines chars line_tol in
  let s_lines := map (fun l => _reconstruct_line_with_bold l 0.5) lines in
  Ok (clean_lines (join [newline] s_lines)).

(* ------------------------------------------------------------------ *)
(** *** Column-wise extraction *)

(** The [for (x0, x1) in col_boxes] loop: [col_texts] in order. *)
Fixpoint columns_loop (pg : page) (W y0 y1 line_tol : float)
    (col_boxes : list box) : result (list str) :=
  match col_boxes with
  | [] => Ok []
  | (x0, x1) :: rest =>
      let xx0 := py_max 0 (py_min W x0) in
      let xx1 := py_max 0 (py_min W x1) in
      if py_le xx1 xx0 then columns_loop pg W y0 y1 line_tol rest
      else
        t <- extract_text_with_bold pg (xx0, y0, xx1, y1) line_tol ;;
        ts <- columns_loop pg W y0 y1 line_tol rest ;;
        Ok (if is_empty t then ts else clean_lines t :: ts)
  end.

Definition extract_page_columns (pg : page) (col_boxes : list box)
    (header_ratio footer_ratio x_tolerance y_tolerance : float) : result str :=
  let W := page_width pg in
  let H := page_height pg in
  let y0 := (H * header_ratio)%float in
  let y1 := (H * (1 - footer_ratio))%float in
  let '(y0, y1) := if py_le y1 y0 then (0%float, H) else (y0, y1) in
  col_texts <- columns_loop pg W y0 y1 (py_max 1 y_tolerance) col_boxes ;;
  Ok (join [newline; newline]
        (filter (fun t => negb (is_empty t)) col_texts)).

(* ------------------------------------------------------------------ *)
(** *** The document *)

(** Truth value of an [Optional[str]]. *)
Definition truthy (o : option str) : bool :=
  match o with
  | Some s => negb (is_empty s)
  | None => false
  end.

Definition spec_of (o : option str) : str :=
  match o with Some s => s | None => [] end.

(** [sp] and [ep] of [pdf_to_txt_parity_boxes]. *)
Definition page_bounds (total start_page : Z) (end_page : option Z) : Z * Z :=
  let sp := Z.max 1 start_page in
  let ep := match end_page with Some e => e | None => total end in
  let ep := Z.max sp (Z.min ep total) in
  (sp, ep).

(** [pdf.pages[idx0]] for [idx0 >= 0]. *)
Definition get_page (pages : list page) (idx0 : Z) : result page :=
  match nth_error pages (Z.to_nat idx0) with
  | Some pg => Ok pg
  | None => Raise (IndexError idx0)
  end.

(** The [for idx0 in range(sp - 1, ep)] loop: [all_text] in order. *)
Fixpoint pages_loop (pages : list page) (default_cols : Z)
    (header_ratio footer_ratio x_tolerance y_tolerance : float)
    (odd_cols_spec even_cols_spec : option str) (idxs : list Z)
    : result (list str) :=
  match idxs with
  | [] => Ok []
  | idx0 :: rest =>
      pg <- get_page pages idx0 ;;
      let page_num := (idx0 + 1)%Z in
      let W := page_width pg in
      col_boxes <-
        (if (page_num mod 2 =? 1)%Z && truthy odd_cols_spec
         then parse_cols_spec (spec_of odd_cols_spec) W
         else if (page_num mod 2 =? 0)%Z && truthy even_cols_spec
         then parse_cols_spec (spec_of even_cols_spec) W
         else equal_columns W default_cols) ;;
      page_text <- extract_page_columns pg col_boxes header_ratio footer_ratio
                     x_tolerance y_tolerance ;;
      more <- pages_loop pages default_cols header_ratio footer_ratio
                x_tolerance y_tolerance odd_cols_spec even_cols_spec rest ;;
      Ok (if is_empty page_text then more else page_text :: more)
  end.

(** [pdf_to_txt_parity_boxes] from the opened document on: the text written
    to [out_path], or the exception that leaves the function. *)
Definition pdf_to_txt_parity_boxes (pages : list page)
    (start_page : Z) (end_page : option Z) (default_cols : Z)
    (header_ratio footer_ratio x_tolerance y_tolerance : float)
    (odd_cols_spec even_cols_spec : option str) : result str :=
  let total := Z.of_nat (List.length pages) in
  let '(sp, ep) := page_bounds total start_page end_page in
  all_text <- pages_loop pages default_cols header_ratio footer_ratio
                x_tolerance y_tolerance odd_cols_spec even_cols_spec
                (range (sp - 1) ep) ;;
  Ok (join [newline; newline] all_text).

End Program.

(* ================================================================== *)
(** ** A reference runtime

    Executable versions of the builtins, used to run the program on
    concrete inputs. The theorems below hold for every [Runtime]. *)

Module Ref.

Definition is_digit (c : char) : bool := ((48 <=? c) && (c <=? 57))%N.

(** The leading decimal digits of [s]: their value on top of [acc], how
    many there are, and the rest of [s]. *)
Fixpoint digits (s : str) (acc : Z) (n : Z) : Z * Z * str :=
  match s with
  | c :: s' =>
      if is_digit c then digits s' (10 * acc + Z.of_N (c - 48))%Z (n + 1)%Z
      else (acc, n, s)
  | [] => (acc, n, [])
  end.

(** An optional sign: whether it is [-], and the rest. *)
Definition sign (s : str) : bool * str :=
  match s with
  | 43%N :: s' => (false, s')
  | 45%N :: s' => (true, s')
  | _ => (false, s)
  end.

Definition lower_ascii (c : char) : char :=
  if ((65 <=? c) && (c <=? 90))%N then (c + 32)%N else c.

(** [s.lower()] on ASCII strings *)
Definition py_lower (s : str) : str := map lower_ascii s.

Definition str_eqb (a b : str) : bool :=
  if list_eq_dec N.eq_dec a b then true else false.

(** The binary64 number nearest to [m * 10^k] (ties to even), [neg] its
    sign. *)
Definition SF_of_decimal (neg : bool) (m k : Z) : spec_float :=
  match m with
  | Zpos p =>
      match k with
      | Zneg _ =>
          SFdiv prec emax (S754_finite neg p 0)
                (S754_finite false (Z.to_pos (10 ^ (- k))) 0)
      | _ => binary_normalize prec emax (if neg then - (m * 10 ^ k) else m * 10 ^ k) 0 neg
      end
  | _ => S754_zero neg
  end.

(** [float(s)] on decimal literals (without digit-group underscores),
    [inf], [infinity] and [nan]. *)
Definition py_float (s : str) : option float :=
  let t := strip s in
  let '(neg, body) := sign t in
  let word := py_lower body in
  if str_eqb word (lit "inf") || str_eqb word (lit "infinity")
  then Some (if neg then neg_infinity else infinity)
  else if str_eqb word (lit "nan") then Some nan
  else
    let '(ip, ni, r1) := digits body 0 0 in
    let '(m, nf, r2) :=
      match r1 with
      | 46%N :: r => digits r ip 0
      | _ => (ip, 0%Z, r1)
      end in
    if (ni + nf =? 0)%Z then None
    else
      match r2 with
      | [] => Some (SF2Prim (SF_of_decimal neg m (- nf)))
      | c :: r3 =>
          if ((c =? 101) || (c =? 69))%N then
            let '(eneg, r4) := sign r3 in
            let '(ev, ne, r5) := digits r4 0 0 in
            if (ne =? 0)%Z || negb (is_empty r5) then None
            else Some (SF2Prim (SF_of_decimal neg m
                                  ((if eneg then - ev else ev) - nf)))
          else None
      end.

(** [round(x, 3)]: the decimal with three places nearest to [x] (ties to
    even), read back as a float. *)
Definition py_round3 (x : float) : float :=
  match Prim2SF x with
  | S754_finite s m e =>
      match e with
      | Zneg sh =>
          let d := (2 ^ Zpos sh)%Z in
          let n := (Zpos m * 1000)%Z in
          let q := (n / d)%Z in
          let r := (n mod d)%Z in
          let q' :=
            match (2 * r ?= d)%Z with
            | Lt => q
            | Gt => (q + 1)%Z
            | Eq => if Z.even q then q else (q + 1)%Z
            end in
          SF2Prim (SF_of_decimal s q' (-3))
      | _ => x
      end
  | _ => x
  end.

Definition inside (lo hi : float) (o : option float) : bool :=
  match o with
  | Some v => py_le lo v && py_lt v hi
  | None => false
  end.

(** A stand-in for [page.crop(bbox).chars]: the glyphs whose left edge and
    top lie in the box. *)
Definition page_crop (pg : page) (bb : bbox) : result (list glyph) :=
  let '(x0, y0, x1, y1) := bb in
  Ok (filter (fun g => inside x0 x1 (g_x0 g) && inside y0 y1 (g_top g))
             (page_chars pg)).

#[export] Instance runtime : Runtime :=
  {| float_of_str := py_float;
     round3 := py_round3;
     lower := py_lower;
     crop_chars := page_crop |}.

End Ref.

(* ================================================================== *)
(** ** Sample inputs *)

Module Samples.

Definition glyph_of (txt : string) (x0 x1 : float) (font : string) : glyph :=
  {| g_text := lit txt; g_x0 := Some x0; g_x1 := Some x1;
     g_top := Some 100%float; g_fontname := lit font |}.

Definition page_AB : page :=
  {| page_width := 600; page_height := 800;
     page_chars := [glyph_of "A" 10 15 "Arial-Bold"; glyph_of "B" 15 20 "Arial"] |}.

Definition five_pages : list page := [page_AB; page_AB; page_AB; page_AB; page_AB].

Definition line_ABC : list glyph :=
  [glyph_of "A" 0 5 "Arial-Bold"; glyph_of "B" 5 10 "Arial";
   glyph_of "C" 10 15 "Arial-Bold"].

(** A glyph without text, in a bold font. *)
Definition glyph_empty : glyph :=
  {| g_text := []; g_x0 := Some 5%float; g_x1 := Some 100%float;
     g_top := Some 100%float; g_fontname := lit "Arial-Bold" |}.

Definition line_gap : list glyph :=
  [glyph_of "A" 0 5 "Arial"; glyph_empty;
   glyph_of "B" 8 10 "Arial"; glyph_of "C" 11 13 "Arial"].

End Samples.

(* ================================================================== *)
(** ** Predicates of the specification *)

(** [a] and [b] are neighbours in [l], [a] at position [i]. *)
Definition adjacent_at {A} (l : list A) (i : nat) (a b : A) : Prop :=
  nth_error l i = Some a /\ nth_error l (S i) = Some b.

(** Every two neighbours of [l] are related by [R]. *)
Definition neighbours {A} (R : A -> A -> Prop) (l : list A) : Prop :=
  forall i a b, adjacent_at l i a b -> R a b.

(** Neither edge of the box is NaN. *)
Definition box_no_nan (b : box) : Prop :=
  is_nan (fst b) = false /\ is_nan (snd b) = false.

(** [a], then [b]: ascending left edges. *)
Definition x0_le (a b : box) : Prop := py_le (fst a) (fst b) = true.

(** [b] starts at or after the right edge of [a]. *)
Definition starts_after (a b : box) : Prop := py_ge (fst b) (snd a) = true.

(** [b] starts strictly left of the right edge of [a]. *)
Definition overlaps (a b : box) : Prop := py_lt (fst b) (snd a) = true.



(** The state of the bold markup after the pieces [ps], entered in state
    [inb] ([true]: inside a bold run); [None] once a [BoldOpen] comes inside
    a run or a [BoldClose] outside of one. *)
Fixpoint bold_run (inb : bool) (ps : list piece) : option bool :=
  match ps with
  | [] => Some inb
  | BoldOpen :: r => if inb then None else bold_run true r
  | BoldClose :: r => if inb then bold_run false r else None
  | _ :: r => bold_run inb r
  end.

(** Markers alternate open, close, open, close, and the last one closes. *)
Definition bold_balanced (ps : list piece) : Prop := bold_run false ps = Some false.

Definition lt_sign : char := 60%N.

(** The same reading of a string: markers are the occurrences of ["<bold>"]
    and ["</bold>"]. *)
Fixpoint markup_run (inb : bool) (s : str) : option bool :=
  match s with
  | [] => Some inb
  | _ :: s' =>
      if startswith (lit "<bold>") s then
        if inb then None else markup_run true s'
      else if startswith (lit "</bold>") s then
        if inb then markup_run false s' else None
      else markup_run inb s'
  end.

Definition markup_balanced (s : str) : Prop := markup_run false s = Some false.

(** The glyph produces output. *)
Definition has_text (ch : glyph) : bool := negb (is_empty (g_text ch)).


(** [out] after the loop over [line_chars]. *)
Definition loop_out {RT : Runtime} (gap_ratio : float) (line_chars : list glyph)
    : list piece :=
  out (fold_left (rstep gap_ratio) line_chars rstate0).

(** The marker a glyph of weight [is_bold] appends in state [inb]. *)
Definition marker_change (is_bold inb : bool) : list piece :=
  if is_bold && negb inb then [BoldOpen]
  else if negb is_bold && inb then [BoldClose]
  else [].

(** What a glyph with text appends to [out] in state [st]. *)
Definition emitted {RT : Runtime} (gap_ratio : float) (st : rstate) (ch : glyph)
    : list piece :=
  (if wants_space gap_ratio (prev_x1 st) (prev_w st) ch then [Space] else [])
  ++ marker_change (_looks_bold (g_fontname ch)) (in_bold st)
  ++ [Text (g_text ch)].

(** How many of the pieces are inserted spaces. *)
Fixpoint count_spaces (ps : list piece) : nat :=
  match ps with
  | [] => 0
  | Space :: r => S (count_spaces r)
  | _ :: r => count_spaces r
  end.

(** The piece is no glyph text. *)
Definition not_text (p : piece) : Prop :=
  match p with Text _ => False | _ => True end.

(** The text of the piece, if it is one, holds no ["<"]. *)
Definition text_without_lt (p : piece) : Prop :=
  match p with
  | Text txt => contains lt_sign txt = false
  | _ => True
  end.

(** [ls] without its leading blank lines. *)
Fixpoint drop_blank (ls : list str) : list str :=
  match ls with
  | [] => []
  | l :: r => if is_blank l then drop_blank r else ls
  end.

(** [ls] without its trailing blank lines. *)
Fixpoint drop_blank_end (ls : list str) : list str :=
  match ls with
  | [] => []
  | l :: r =>
      match drop_blank_end r with
      | [] => if is_blank l then [] else [l]
      | r' => l :: r'
      end
  end.

(** [ls] with its first line left-stripped. *)
Definition lstrip_first (ls : list str) : list str :=
  match ls with
  | [] => []
  | l :: r => lstrip l :: r
  end.

(** The lines [clean_lines] keeps: the right-stripped lines of the text,
    less each blank line that follows a blank line, less the blank lines
    before the first and after the last line with content; the first of
    them left-stripped. *)
Definition kept_lines (text : str) : list str :=
  drop_blank_end
    (lstrip_first (drop_blank (clean_loop (map rstrip (splitlines text)) false))).

(** A blank line is not followed by a blank line. *)
Definition no_blank_after_blank (a b : str) : Prop :=
  is_blank a = true -> is_blank b = false.

Definition count_nonblank (ls : list str) : nat :=
  List.length (filter (fun l => negb (is_blank l)) ls).

Definition count_blank (ls : list str) : nat :=
  List.length (filter is_blank ls).

(** The number of maximal runs of blank lines in [ls]; [prev] tells whether
    the line before was blank. *)
Fixpoint blank_runs (prev : bool) (ls : list str) : nat :=
  match ls with
  | [] => 0
  | l :: r =>
      if is_blank l then (if prev then 0 else 1) + blank_runs true r
      else blank_runs false r
  end.

(** C5 as stated, last part: of every run of blank lines the first one
    stays, so the result has as many blank lines as the text has runs. *)
Definition first_blank_of_each_run_kept (text : str) : Prop :=
  count_blank (splitlines (clean_lines text)) = blank_runs false (splitlines text).

(** The line holds no line break. *)
Definition no_linebreak (l : str) : Prop := Forall (fun c => is_linebreak c = false) l.

(** The line has no trailing whitespace. *)
Definition rstripped (l : str) : Prop := rstrip l = l.

(** The first line, if any, has content. *)
Definition head_not_blank (ls : list str) : Prop :=
  match ls with
  | [] => True
  | l :: _ => is_blank l = false
  end.

(** [float(n)] when it does not overflow. *)
Definition float_of_Z (n : Z) : float := SF2Prim (SF_of_Z n).

(** The boxes [(i * step, (i + 1) * step)] for [i] in [idxs]. *)
Definition boxes_of_step (step : float) (idxs : list Z) : list box :=
  map (fun i => (float_of_Z i * step, float_of_Z (i + 1) * step)%float) idxs.

(** The right edge of each box is the left edge of the next. *)
Definition contiguous (a b : box) : Prop := snd a = fst b.

(** The last box ends at [W]. *)
Definition ends_at (W : float) (cols : list box) : Prop :=
  exists b, nth_error cols (List.length cols - 1) = Some b
            /\ PrimFloat.eqb (snd b) W = true.

(** Every box is [w] wide. *)
Definition all_of_width (w : float) (cols : list box) : Prop :=
  Forall (fun b => PrimFloat.eqb (snd b - fst b) w = true) cols.

(** What a shift record says about [P] after [n] shifts to the right: the
    mantissa is the quotient, the round and sticky bits place the remainder
    against the half. *)
Definition shr_inv (P : Z) (n : Z) (mrs : shr_record) : Prop :=
  (0 <= shr_m mrs /\
   exists rem, 0 <= rem < 2 ^ n /\ P = shr_m mrs * 2 ^ n + rem /\
               (shr_r mrs = true <-> 2 ^ n <= 2 * rem) /\
               (shr_s mrs = true <-> rem <> 0 /\ 2 * rem <> 2 ^ n))%Z.

(** [M] is [P / 2^n] rounded to nearest, ties to even. *)
Definition rounds_to (P n M : Z) : Prop :=
  (- 2 ^ n <= 2 * 2 ^ n * M - 2 * P <= 2 ^ n /\
   (2 * 2 ^ n * M - 2 * P = 2 ^ n \/ 2 * 2 ^ n * M - 2 * P = - 2 ^ n ->
    Z.even M = true))%Z.

(** The float with mantissa [M] at exponent [E], once [M] has been rounded
    to at most 53 digits ([M = 2^53] takes one more shift). *)
Definition finish (s : bool) (M E : Z) : spec_float :=
  match M with
  | Zpos m =>
      if (M =? 2 ^ 53)%Z then
        if (E + 1 <=? 971)%Z then S754_finite s (2 ^ 52)%positive (E + 1)%Z
        else S754_infinity s
      else if (E <=? 971)%Z then S754_finite s m E else S754_infinity s
  | _ => S754_zero s
  end.

(* ================================================================== *)
(** ** More sample inputs *)

Module MoreSamples.
Import Samples.

Definition glyph_at (txt : string) (x0 x1 top : float) : glyph :=
  {| g_text := lit txt; g_x0 := Some x0; g_x1 := Some x1;
     g_top := Some top; g_fontname := lit "Arial" |}.

(** Three glyphs in two rows, not in reading order. *)
Definition two_rows : list glyph :=
  [glyph_at "C" 10 15 120; glyph_of "B" 15 20 "Arial";
   glyph_of "A" 10 15 "Arial-Bold"].

(** Glyphs at the tops 100, 100.75 and 101.5. *)
Definition page_rows : page :=
  {| page_width := 600; page_height := 800;
     page_chars := [glyph_at "A" 10 15 100; glyph_at "B" 15 20 100.75;
                    glyph_at "C" 10 15 101.5] |}.

(** A glyph in a bold font whose text is a marker. *)
Definition glyph_marker : glyph :=
  {| g_text := lit "<bold>"; g_x0 := Some 0%float; g_x1 := Some 5%float;
     g_top := Some 100%float; g_fontname := lit "Arial-Bold" |}.

End MoreSamples.

(* ================================================================== *)
(** ** Predicates for further properties of the code *)

(* ---- definitions ---- *)

(** The place of a float in the order of [<]: the sign class first, then
    exponent and mantissa (both negated below zero). NaN has no place; it
    is given that of zero. *)
Definition rank (x : spec_float) : Z * (Z * Z) :=
  match x with
  | S754_infinity true => (-2, (0, 0))%Z
  | S754_finite true m e => (-1, (- e, - Zpos m))%Z
  | S754_finite false m e => (1, (e, Zpos m))%Z
  | S754_infinity false => (2, (0, 0))%Z
  | _ => (0, (0, 0))%Z
  end.

(** The lexicographic order on ranks. *)
Definition rank_lt (a b : Z * (Z * Z)) : Prop :=
  (fst a < fst b
   \/ (fst a = fst b
       /\ (fst (snd a) < fst (snd b)
           \/ (fst (snd a) = fst (snd b) /\ snd (snd a) < snd (snd b)))))%Z.

Definition rk (a : float) : Z * (Z * Z) := rank (Prim2SF a).

(** Lines as [clean_lines] leaves them: no line break inside a line, no
    trailing whitespace, no blank line after a blank line, none at either
    end, and no leading whitespace on the first line. *)
Definition clean_form (K : list str) : Prop :=
  Forall no_linebreak K /\ Forall rstripped K
  /\ Sorted no_blank_after_blank K
  /\ drop_blank K = K /\ lstrip_first K = K /\ drop_blank_end K = K.

(** The only line break in the text is ["\n"]. *)
Definition only_newlines (s : str) : Prop :=
  Forall (fun c => is_linebreak c = true -> c = newline) s.

(** Text in clean form: its lines, joined by ["\n"]. *)
Definition clean_text (t : str) : Prop :=
  exists K, clean_form K /\ t = join [newline] K.

(** The tokens of [_BOLD_TOKENS] that hold no other token. *)
Definition bold_tokens_minimal : list str :=
  map lit ["bold"; "bd"; "black"; "heavy"; "demi"]%string.

(** [p] occurs in [s]. *)
Definition substring (p s : str) : Prop := exists l r, s = l ++ p ++ r.

(** The ["top"] and ["x0"] of a glyph as the grouping reads them. *)
Definition top_of (ch : glyph) : float := get_or 0 (g_top ch).
Definition x0_of (ch : glyph) : float := get_or 0 (g_x0 ch).

(** [ch] is not further than [tol] below or above [anchor]. *)
Definition within (tol : float) (anchor ch : glyph) : Prop :=
  py_gt (abs (top_of ch - top_of anchor)) tol = false.

(** [a] is a glyph of the line [l], and every other glyph of [l] is
    within [tol] of it. *)
Definition anchored (tol : float) (l : list glyph) (a : glyph) : Prop :=
  In a l /\ Forall (fun ch => ch = a \/ within tol a ch) l.

(** [b] is further than [tol] from [a]. *)
Definition beyond (tol : float) (a b : glyph) : Prop :=
  py_gt (abs (top_of b - top_of a)) tol = true.

(** The texts among the pieces, each with the state of the bold markup
    around it; [inb] is the state before the first piece. *)
Fixpoint tagged (inb : bool) (ps : list piece) : list (str * bool) :=
  match ps with
  | [] => []
  | BoldOpen :: r => tagged true r
  | BoldClose :: r => tagged false r
  | Space :: r => tagged inb r
  | Text txt :: r => (txt, inb) :: tagged inb r
  end.

(** How many of the pieces are [<bold>], and how many [</bold>]. *)
Fixpoint count_open (ps : list piece) : nat :=
  match ps with
  | [] => 0
  | BoldOpen :: r => S (count_open r)
  | _ :: r => count_open r
  end.

Fixpoint count_close (ps : list piece) : nat :=
  match ps with
  | [] => 0
  | BoldClose :: r => S (count_close r)
  | _ :: r => count_close r
  end.

(** The number of maximal runs of [true] in [bs]; [prev] is the value
    before the first. *)
Fixpoint runs_of_true (prev : bool) (bs : list bool) : nat :=
  match bs with
  | [] => 0
  | b :: r => ((if b && negb prev then 1 else 0) + runs_of_true b r)%nat
  end.

(** The weight read off the font of each glyph with text. *)
Definition weights {RT : Runtime} (l : list glyph) : list bool :=
  map (fun ch => _looks_bold (g_fontname ch)) (filter has_text l).

(** The state of the loop of [_group_chars_into_lines]: a line under
    construction goes with the top of its first glyph. *)
Definition group_state (cur : list glyph) (top : option float) : Prop :=
  match cur with
  | [] => True
  | a :: _ => top = Some (top_of a)
  end.

(** The lines with their anchors, the anchors of consecutive lines further
    than the tolerance apart. *)
Definition anchors_ok (tol : float) (lines : list (list glyph))
    (anchors : list glyph) : Prop :=
  Forall2 (anchored tol) lines anchors /\ neighbours (beyond tol) anchors.

(** [x] cut to the page: [max(0.0, min(W, x))]. *)
Definition clamp (W x : float) : float := py_max 0 (py_min W x).

(** The exceptions the script raises by itself while it parses a spec or
    divides the page into equal columns. *)
Definition own_exception (e : exn) : Prop :=
  match e with
  | FormatError _ | InvalidBoxError _ _ _ | OverlapError _ _
  | FloatSyntaxError _ | ZeroDivisionError | OverflowError => True
  | _ => False
  end.

(** Two texts, with a blank line between them when neither is empty. *)
Definition glue (t1 t2 : str) : str :=
  match t1, t2 with
  | [], _ => t2
  | _, [] => t1
  | _, _ => t1 ++ [newline; newline] ++ t2
  end.

(** [a] has the key [k] as far as the sort can tell: neither key is less
    than the other. *)
Definition same_key {A K} (lt : K -> K -> bool) (key : A -> K) (k : K) (a : A)
    : bool :=
  negb (lt (key a) k) && negb (lt k (key a)).

(** What Python documents of [sorted(l, key=key)]: [l'] holds the elements
    of [l], no element after one of a greater key, and elements of equal
    keys in the order they have in [l]. *)
Definition stable_sort_of {A K} (lt : K -> K -> bool) (key : A -> K)
    (l l' : list A) : Prop :=
  Permutation l' l
  /\ Sorted (fun a b => lt (key b) (key a) = false) l'
  /\ forall x, In x l ->
       filter (same_key lt key (key x)) l' = filter (same_key lt key (key x)) l.

(** Neither component of the key is NaN. *)
Definition pair_ok (k : float * float) : Prop :=
  is_nan (fst k) = false /\ is_nan (snd k) = false.

(** The open intervals of the two boxes meet. *)
Definition intersect (a b : box) : Prop :=
  py_lt (fst b) (snd a) = true /\ py_lt (fst a) (snd b) = true.

(** C3 as stated: the markup of the string returned for the line is
    balanced. *)
Definition line_markup_balanced {RT : Runtime} (l : list glyph)
    (gap_ratio : float) : Prop :=
  markup_balanced (_reconstruct_line_with_bold l gap_ratio).

(** The lines of the cleaned text as the amended C5 describes them, without
    the loop of the code. Blank lines are left out; a line with content is
    kept, right-stripped (the first of them stripped on both sides), after
    one empty line when a blank line lies between it and the line with
    content before it. [content] tells whether a line with content has been
    met, [gap] whether blank lines have been met since. *)
Fixpoint squeezed (ls : list str) (content gap : bool) : list str :=
  match ls with
  | [] => []
  | l :: r =>
      if forallb is_space l then squeezed r content content
      else (if gap then [[]] else [])
           ++ (if content then rstrip l else strip l)
           :: squeezed r true false
  end.

(** [f] on every element in turn: the results, or the first exception. *)
Fixpoint traverse {A B} (f : A -> result B) (l : list A) : result (list B) :=
  match l with
  | [] => Ok []
  | a :: r => b <- f a ;; bs <- traverse f r ;; Ok (b :: bs)
  end.

(** The vertical band of the page that is read: the page less header and
    footer, or the whole page when that leaves nothing. *)
Definition band (pg : page) (header_ratio footer_ratio : float) : float * float :=
  let H := page_height pg in
  if py_le (H * (1 - footer_ratio)) (H * header_ratio) then (0%float, H)
  else ((H * header_ratio)%float, (H * (1 - footer_ratio))%float).

(** The text of the glyphs [chars], grouped into lines with the tolerance
    [tol]. *)
Definition lines_text {RT : Runtime} (chars : list glyph) (tol : float) : str :=
  clean_lines
    (join [newline]
       (map (fun l => _reconstruct_line_with_bold l 0.5)
            (_group_chars_into_lines chars tol))).

(** The text of one column when the lines are grouped with the tolerance
    [tol]: empty for a box that is empty once cut to the page. *)
Definition column_text {RT : Runtime} (pg : page) (header_ratio footer_ratio : float)
    (tol : float) (b : box) : result str :=
  let W := page_width pg in
  if py_le (clamp W (snd b)) (clamp W (fst b)) then Ok []
  else
    chars <- crop_chars pg (clamp W (fst b), fst (band pg header_ratio footer_ratio),
                            clamp W (snd b), snd (band pg header_ratio footer_ratio)) ;;
    Ok (lines_text chars tol).

(* ================================================================== *)
(** * Properties *)

(* ================================================================== *)
(** ** Facts on float comparison *)

Section FloatOrder.

Lemma SFcompare_antisym (x y : spec_float) :
  SFcompare x y = option_map CompOpp (SFcompare y x).
Proof.
  destruct x as [sx|sx| |sx mx ex], y as [sy|sy| |sy my ey]; simpl;
    try reflexivity;
    try (destruct sx; reflexivity);
    try (destruct sy; reflexivity);
    try (destruct sx, sy; reflexivity).
  f_equal.
  change (Pos.compare_cont Eq mx my) with (Pos.compare mx my).
  change (Pos.compare_cont Eq my mx) with (Pos.compare my mx).
  rewrite (Z.compare_antisym ey ex), (Pos.compare_antisym my mx).
  destruct sx, sy; simpl; try reflexivity;
    destruct (ey ?= ex)%Z; simpl; try reflexivity;
    destruct (my ?= mx)%positive; reflexivity.
Qed.

Lemma SFcompare_None (x y : spec_float) :
  SFcompare x y = None -> x = S754_nan \/ y = S754_nan.
Proof.
  destruct x, y; simpl; intros H; try discriminate; auto.
Qed.

Lemma is_nan_spec (a : float) :
  is_nan a = false <-> Prim2SF a <> S754_nan.
Proof.
  unfold is_nan. rewrite FloatAxioms.eqb_spec. unfold SFeqb.
  destruct (Prim2SF a) as [s|s| |s m e]; simpl.
  - split; [discriminate | reflexivity].
  - destruct s; split; (discriminate || reflexivity).
  - split; [discriminate | congruence].
  - rewrite Z.compare_refl.
    change (Pos.compare_cont Eq m m) with (Pos.compare m m).
    rewrite Pos.compare_refl.
    destruct s; split; (discriminate || reflexivity).
Qed.

(** [a < b] excludes [b < a]. *)
Lemma py_lt_asym (a b : float) : py_lt a b = true -> py_lt b a = false.
Proof.
  unfold py_lt. rewrite !ltb_spec. unfold SFltb.
  rewrite (SFcompare_antisym (Prim2SF b) (Prim2SF a)).
  destruct (SFcompare (Prim2SF a) (Prim2SF b)) as [[]|]; simpl; congruence.
Qed.

(** [a <= b] excludes [b < a]. *)
Lemma py_le_not_gt (a b : float) : py_le a b = true -> py_lt b a = false.
Proof.
  unfold py_le, py_lt. rewrite ltb_spec, leb_spec. unfold SFltb, SFleb.
  rewrite (SFcompare_antisym (Prim2SF b) (Prim2SF a)).
  destruct (SFcompare (Prim2SF a) (Prim2SF b)) as [[]|]; simpl; congruence.
Qed.

(** [a < b] gives [a <= b]. *)
Lemma py_lt_le (a b : float) : py_lt a b = true -> py_le a b = true.
Proof.
  unfold py_le, py_lt. rewrite ltb_spec, leb_spec. unfold SFltb, SFleb.
  destruct (SFcompare (Prim2SF a) (Prim2SF b)) as [[]|]; simpl; congruence.
Qed.

(** Away from NaN the order is total: not [a < b] gives [b <= a]. *)
Lemma py_not_lt_ge (a b : float) :
  is_nan a = false -> is_nan b = false -> py_lt a b = false -> py_le b a = true.
Proof.
  rewrite !is_nan_spec. unfold py_le, py_lt.
  rewrite ltb_spec, leb_spec. unfold SFltb, SFleb.
  rewrite (SFcompare_antisym (Prim2SF b) (Prim2SF a)).
  intros Ha Hb.
  destruct (SFcompare (Prim2SF a) (Prim2SF b)) as [[]|] eqn:E; simpl;
    try congruence.
  destruct (SFcompare_None _ _ E); contradiction.
Qed.

End FloatOrder.

(* ================================================================== *)
(** ** Facts on lists and on [sorted_by] *)

Lemma neighbours_cons {A} (R : A -> A -> Prop) (a b : A) (l : list A) :
  neighbours R (a :: b :: l) <-> R a b /\ neighbours R (b :: l).
Proof.
  unfold neighbours, adjacent_at. split.
  - intros H. split.
    + apply (H 0%nat). split; reflexivity.
    + intros i x y [Hx Hy]. apply (H (S i)). split; assumption.
  - intros [Hab H] [|i] x y [Hx Hy]; simpl in *.
    + congruence.
    + apply (H i). split; assumption.
Qed.

Lemma neighbours_short {A} (R : A -> A -> Prop) (l : list A) :
  (List.length l <= 1)%nat -> neighbours R l.
Proof.
  intros Hl i a b [Ha Hb].
  assert (Hs : nth_error l (S i) <> None) by congruence.
  apply nth_error_Some in Hs. lia.
Qed.

Lemma Sorted_neighbours {A} (R : A -> A -> Prop) (l : list A) :
  Sorted R l <-> neighbours R l.
Proof.
  induction l as [|a [|b l] IH].
  - split; [intros _; apply neighbours_short; simpl; lia | constructor].
  - split; [intros _; apply neighbours_short; simpl; lia | repeat constructor].
  - rewrite neighbours_cons, <- IH. split.
    + intros H. inversion H as [|? ? Hs Hh]; subst.
      inversion Hh; subst. auto.
    + intros [Hab Hs]. constructor; [assumption | constructor; assumption].
Qed.

Section SortedFacts.
Variables (A : Type) (key : A -> float).

Let ok (a : A) : Prop := is_nan (key a) = false.
Let le (a b : A) : Prop := py_le (key a) (key b) = true.

Lemma insert_by_perm (x : A) (l : list A) :
  Permutation (insert_by py_lt key x l) (x :: l).
Proof.
  induction l as [|y l IH]; simpl.
  - reflexivity.
  - destruct (py_lt (key x) (key y)).
    + reflexivity.
    + rewrite IH. apply perm_swap.
Qed.

Lemma fold_insert_perm (l acc : list A) :
  Permutation (fold_left (fun acc x => insert_by py_lt key x acc) l acc)
              (acc ++ l).
Proof.
  revert acc. induction l as [|x l IH]; intros acc; simpl.
  - rewrite app_nil_r. reflexivity.
  - rewrite IH, insert_by_perm.
    change (x :: acc) with ([x] ++ acc).
    rewrite (Permutation_app_comm [x] acc), <- app_assoc. reflexivity.
Qed.

Lemma sorted_by_perm (l : list A) : Permutation (sorted_by py_lt key l) l.
Proof. unfold sorted_by. apply (fold_insert_perm l []). Qed.

Lemma insert_by_HdRel (a x : A) (l : list A) :
  le a x -> HdRel le a l -> HdRel le a (insert_by py_lt key x l).
Proof.
  intros Hax Hl. destruct l as [|y l]; simpl.
  - constructor. assumption.
  - destruct (py_lt (key x) (key y)); constructor.
    + assumption.
    + inversion Hl; assumption.
Qed.

Lemma insert_by_Sorted (x : A) (l : list A) :
  ok x -> Forall ok l -> Sorted le l -> Sorted le (insert_by py_lt key x l).
Proof.
  intros Hx Hok Hs. induction l as [|y l IH]; simpl.
  - repeat constructor.
  - inversion Hok as [|? ? Hy Hok']; subst.
    inversion Hs as [|? ? Hs' Hh]; subst.
    destruct (py_lt (key x) (key y)) eqn:E.
    + constructor; [assumption|]. constructor.
      apply py_lt_le. assumption.
    + constructor; [apply IH; assumption|].
      apply insert_by_HdRel; [|assumption].
      apply py_not_lt_ge; assumption.
Qed.

Lemma fold_insert_Sorted (l acc : list A) :
  Forall ok l -> Forall ok acc -> Sorted le acc ->
  Sorted le (fold_left (fun acc x => insert_by py_lt key x acc) l acc).
Proof.
  revert acc. induction l as [|x l IH]; intros acc Hl Hacc Hs; simpl.
  - assumption.
  - inversion Hl; subst. apply IH.
    + assumption.
    + eapply Permutation_Forall.
      * symmetry. apply insert_by_perm.
      * constructor; assumption.
    + apply insert_by_Sorted; assumption.
Qed.

(** On keys without NaN, [sorted_by] returns its input in ascending
    order of the keys. *)
Lemma sorted_by_Sorted (l : list A) :
  Forall ok l -> Sorted le (sorted_by py_lt key l).
Proof.
  intros Hl. apply fold_insert_Sorted; [assumption | constructor | constructor].
Qed.

End SortedFacts.

(* ================================================================== *)
(** ** Facts on strings *)

Section StrFacts.

Lemma split_no_sep (sep : char) (s : str) :
  contains sep s = false -> split sep s = [s].
Proof.
  induction s as [|c s IH]; simpl; [reflexivity|].
  rewrite N.eqb_sym.
  destruct (c =? sep)%N; simpl; [discriminate|].
  intros H. rewrite (IH H). reflexivity.
Qed.

Lemma split_app_sep (sep : char) (p rest : str) :
  contains sep p = false ->
  split sep (p ++ sep :: rest) = p :: split sep rest.
Proof.
  induction p as [|c p IH]; simpl.
  - intros _. rewrite N.eqb_refl. reflexivity.
  - rewrite N.eqb_sym.
    destruct (c =? sep)%N; simpl; [discriminate|].
    intros H. rewrite (IH H). reflexivity.
Qed.

(** [sep.join(parts).split(sep)] gives [parts] back. *)
Lemma split_join (sep : char) (parts : list str) :
  parts <> [] ->
  Forall (fun p => contains sep p = false) parts ->
  split sep (join [sep] parts) = parts.
Proof.
  induction parts as [|p [|q ps] IH]; intros Hne Hall.
  - contradiction.
  - simpl. inversion Hall; subst. apply split_no_sep. assumption.
  - inversion Hall as [|? ? Hp Hrest]; subst.
    change (join [sep] (p :: q :: ps)) with (p ++ sep :: join [sep] (q :: ps)).
    rewrite split_app_sep by assumption.
    rewrite IH; [reflexivity | discriminate | assumption].
Qed.

Lemma filter_idem {A} (f : A -> bool) (l : list A) :
  filter f (filter f l) = filter f l.
Proof.
  induction l as [|a l IH]; simpl; [reflexivity|].
  destruct (f a) eqn:E; simpl; rewrite ?E, IH; reflexivity.
Qed.

Lemma filter_none {A} (f : A -> bool) (l : list A) :
  Forall (fun a => f a = false) l -> filter f l = [].
Proof.
  induction 1 as [|a l Ha _ IH]; simpl; [reflexivity|].
  rewrite Ha. assumption.
Qed.

End StrFacts.

(* ================================================================== *)
(** ** Stripping and blank lines *)

Section Whitespace.

Lemma linebreak_is_space (c : char) : is_linebreak c = true -> is_space c = true.
Proof.
  unfold is_linebreak, is_space. intros H.
  repeat match type of H with
         | (_ || _ = true) => apply orb_true_iff in H; destruct H as [H|H]
         | (_ && _ = true) => apply andb_true_iff in H; destruct H as [? ?]
         end;
    repeat match goal with
           | H : (_ <=? _)%N = true |- _ => apply N.leb_le in H
           | H : (_ =? _)%N = true |- _ => apply N.eqb_eq in H
           end;
    repeat match goal with
           | |- (_ || _ = true) => apply orb_true_iff
           end.
  all: rewrite ?orb_true_iff, ?andb_true_iff, ?N.leb_le, ?N.eqb_eq; lia.
Qed.

Lemma rstrip_nil_iff (s : str) : rstrip s = [] <-> forallb is_space s = true.
Proof.
  induction s as [|c s IH]; simpl; [tauto|].
  destruct (rstrip s) as [|x r] eqn:E.
  - destruct (is_space c); simpl.
    + rewrite <- IH. tauto.
    + split; discriminate.
  - split; [discriminate|].
    intros H. apply andb_true_iff in H. destruct H as [_ H].
    apply IH in H. discriminate.
Qed.

Lemma lstrip_nil_iff (s : str) : lstrip s = [] <-> forallb is_space s = true.
Proof.
  induction s as [|c s IH]; simpl; [tauto|].
  destruct (is_space c); simpl; [exact IH|].
  split; discriminate.
Qed.

Lemma lstrip_head (s : str) (c : char) (r : str) :
  lstrip s = c :: r -> is_space c = false.
Proof.
  induction s as [|d s IH]; simpl; [discriminate|].
  destruct (is_space d) eqn:E; [exact IH|].
  intros H. injection H as <- _. exact E.
Qed.

(** A line is blank when all its characters are whitespace. *)
Lemma is_blank_spec (s : str) : is_blank s = forallb is_space s.
Proof.
  unfold is_blank, strip.
  destruct (forallb is_space s) eqn:E.
  - apply lstrip_nil_iff in E. rewrite E. reflexivity.
  - destruct (lstrip s) as [|c r] eqn:El.
    + apply lstrip_nil_iff in El. congruence.
    + apply lstrip_head in El. simpl.
      destruct (rstrip r); [rewrite El|]; reflexivity.
Qed.

Lemma forallb_space_rstrip (s : str) :
  forallb is_space (rstrip s) = forallb is_space s.
Proof.
  induction s as [|c s IH]; simpl; [reflexivity|].
  destruct (rstrip s) as [|x r] eqn:E.
  - assert (Hs : forallb is_space s = true) by (apply rstrip_nil_iff; exact E).
    rewrite Hs. destruct (is_space c) eqn:Ec; simpl; rewrite ?Ec; reflexivity.
  - cbn [forallb]. cbn [forallb] in IH. rewrite IH. reflexivity.
Qed.

Lemma forallb_space_lstrip (s : str) :
  forallb is_space (lstrip s) = forallb is_space s.
Proof.
  induction s as [|c s IH]; simpl; [reflexivity|].
  destruct (is_space c) eqn:E; simpl; [exact IH|].
  rewrite E. reflexivity.
Qed.

Lemma is_blank_rstrip (s : str) : is_blank (rstrip s) = is_blank s.
Proof. rewrite !is_blank_spec. apply forallb_space_rstrip. Qed.

Lemma is_blank_lstrip (s : str) : is_blank (lstrip s) = is_blank s.
Proof. rewrite !is_blank_spec. apply forallb_space_lstrip. Qed.

Lemma rstrip_idem (s : str) : rstrip (rstrip s) = rstrip s.
Proof.
  induction s as [|c s IH]; simpl; [reflexivity|].
  destruct (rstrip s) as [|x r] eqn:E.
  - destruct (is_space c) eqn:Ec; simpl; [reflexivity|].
    rewrite Ec. reflexivity.
  - change (rstrip (c :: x :: r))
      with (match rstrip (x :: r) with
            | [] => if is_space c then [] else [c]
            | r' => c :: r'
            end).
    rewrite IH. reflexivity.
Qed.

Lemma rstrip_fixed_tail (c : char) (s : str) :
  rstrip (c :: s) = c :: s -> rstrip s = s.
Proof.
  simpl. destruct (rstrip s) as [|x r] eqn:E.
  - destruct (is_space c); [discriminate|].
    intros H. injection H as <-. reflexivity.
  - intros H. injection H as <-. reflexivity.
Qed.

Lemma rstrip_fixed_lstrip (s : str) : rstrip s = s -> rstrip (lstrip s) = lstrip s.
Proof.
  induction s as [|c s IH]; [reflexivity|].
  intros H. cbn [lstrip]. destruct (is_space c); [|exact H].
  apply IH. apply (rstrip_fixed_tail H).
Qed.

Lemma blank_fixed_nil (s : str) : is_blank s = true -> rstrip s = s -> s = [].
Proof.
  rewrite is_blank_spec. intros Hb Hr.
  apply rstrip_nil_iff in Hb. congruence.
Qed.

Lemma lstrip_app_nonblank (s rest : str) :
  is_blank s = false -> lstrip (s ++ rest) = lstrip s ++ rest.
Proof.
  rewrite is_blank_spec.
  induction s as [|c s IH]; simpl; [discriminate|].
  destruct (is_space c); simpl; [exact IH | reflexivity].
Qed.

Lemma lstrip_app_blank (s rest : str) :
  is_blank s = true -> lstrip (s ++ rest) = lstrip rest.
Proof.
  rewrite is_blank_spec.
  induction s as [|c s IH]; simpl; [reflexivity|].
  destruct (is_space c); simpl; [exact IH | discriminate].
Qed.

Lemma rstrip_app (a b : str) :
  rstrip (a ++ b)
  = match rstrip b with
    | [] => rstrip a
    | r => a ++ r
    end.
Proof.
  induction a as [|c a IH]; simpl.
  - destruct (rstrip b); reflexivity.
  - rewrite IH. destruct (rstrip b) as [|x r]; [reflexivity|].
    destruct a; reflexivity.
Qed.

End Whitespace.

(* ================================================================== *)
(** ** Lines: [splitlines] and [join] *)

Section Lines.

Lemma splitlines_no_linebreak_upto (n : nat) (s : str) :
  (List.length s <= n)%nat -> Forall no_linebreak (splitlines s).
Proof.
  revert s. induction n as [|n IH]; intros s Hs.
  - destruct s; [constructor | simpl in Hs; lia].
  - destruct s as [|c s']; [constructor|].
    simpl in Hs. cbn [splitlines].
    destruct (is_linebreak c) eqn:E.
    + constructor; [constructor|].
      destruct s' as [|d s'']; [constructor|].
      destruct ((c =? cr)%N && (d =? newline)%N); apply IH; simpl in *; lia.
    + assert (H : Forall no_linebreak (splitlines s')) by (apply IH; lia).
      destruct (splitlines s') as [|l ls].
      * repeat constructor. exact E.
      * inversion H; subst. constructor; [constructor|]; assumption.
Qed.

(** The lines of a text hold no line break. *)
Lemma splitlines_no_linebreak (s : str) : Forall no_linebreak (splitlines s).
Proof. apply (splitlines_no_linebreak_upto (n := List.length s)). lia. Qed.

Lemma rstrip_Forall (P : char -> Prop) (s : str) :
  Forall P s -> Forall P (rstrip s).
Proof.
  induction 1 as [|c s Hc _ IH]; simpl; [constructor|].
  destruct (rstrip s).
  - destruct (is_space c); repeat constructor. exact Hc.
  - constructor; assumption.
Qed.

Lemma lstrip_Forall (P : char -> Prop) (s : str) :
  Forall P s -> Forall P (lstrip s).
Proof.
  induction 1 as [|c s Hc Hs IH]; simpl; [constructor|].
  destruct (is_space c); [exact IH | constructor; assumption].
Qed.

Lemma clean_loop_Forall (P : str -> Prop) (ls : list str) (b : bool) :
  Forall P ls -> Forall P (clean_loop ls b).
Proof.
  intros H. revert b. induction H as [|l ls Hl _ IH]; intros b; simpl.
  - constructor.
  - destruct (is_blank l && b); [apply IH | constructor; [exact Hl | apply IH]].
Qed.

Lemma drop_blank_Forall (P : str -> Prop) (ls : list str) :
  Forall P ls -> Forall P (drop_blank ls).
Proof.
  induction 1 as [|l ls Hl Hls IH]; simpl; [constructor|].
  destruct (is_blank l); [exact IH | constructor; assumption].
Qed.

Lemma drop_blank_end_Forall (P : str -> Prop) (ls : list str) :
  Forall P ls -> Forall P (drop_blank_end ls).
Proof.
  induction 1 as [|l ls Hl _ IH]; simpl; [constructor|].
  destruct (drop_blank_end ls).
  - destruct (is_blank l); repeat constructor. exact Hl.
  - constructor; assumption.
Qed.

Lemma join_cons (sep l : str) (r : list str) :
  join sep (l :: r)
  = l ++ match r with [] => [] | _ :: _ => sep ++ join sep r end.
Proof. destruct r; simpl; [rewrite app_nil_r|]; reflexivity. Qed.

(** Left-stripping the joined lines drops the leading blank lines and
    left-strips the first line with content. *)
Lemma lstrip_join (ls : list str) :
  lstrip (join [newline] ls) = join [newline] (lstrip_first (drop_blank ls)).
Proof.
  induction ls as [|l r IH]; [reflexivity|].
  rewrite join_cons. cbn [drop_blank].
  destruct (is_blank l) eqn:E.
  - rewrite (lstrip_app_blank l _ E). destruct r as [|l2 r2].
    + reflexivity.
    + exact IH.
  - rewrite (lstrip_app_nonblank l _ E). cbn [lstrip_first].
    rewrite join_cons. reflexivity.
Qed.

Lemma join_drop_blank_end_nonempty (ls : list str) :
  drop_blank_end ls <> [] -> join [newline] (drop_blank_end ls) <> [].
Proof.
  induction ls as [|l r IH]; simpl; [tauto|].
  destruct (drop_blank_end r) as [|x r'].
  - destruct (is_blank l) eqn:E; [tauto|].
    intros _. simpl. intros ->. discriminate.
  - intros _. rewrite join_cons. destruct l; discriminate.
Qed.

(** Right-stripping joined lines without trailing whitespace drops the
    trailing blank lines. *)
Lemma rstrip_join (ls : list str) :
  Forall rstripped ls ->
  rstrip (join [newline] ls) = join [newline] (drop_blank_end ls).
Proof.
  induction 1 as [|l r Hl Hr IH]; [reflexivity|].
  rewrite join_cons. cbn [drop_blank_end].
  destruct r as [|l2 r2].
  - rewrite app_nil_r. cbn [drop_blank_end].
    destruct (is_blank l) eqn:E.
    + rewrite (blank_fixed_nil E Hl). reflexivity.
    + simpl. exact Hl.
  - rewrite rstrip_app.
    change (rstrip ([newline] ++ join [newline] (l2 :: r2)))
      with (match rstrip (join [newline] (l2 :: r2)) with
            | [] => if is_space newline then [] else [newline]
            | r' => newline :: r'
            end).
    rewrite IH.
    pose proof (join_drop_blank_end_nonempty (l2 :: r2)) as Hne.
    destruct (drop_blank_end (l2 :: r2)) as [|x r'].
    + simpl. destruct (is_blank l) eqn:E.
      * rewrite (blank_fixed_nil E Hl). reflexivity.
      * simpl. exact Hl.
    + destruct (join [newline] (x :: r')) as [|y j] eqn:Ej.
      * exfalso. apply Hne; [discriminate | reflexivity].
      * rewrite join_cons, Ej. reflexivity.
Qed.

Lemma splitlines_app_newline (l rest : str) :
  no_linebreak l -> splitlines (l ++ newline :: rest) = l :: splitlines rest.
Proof.
  induction 1 as [|c l Hc _ IH].
  - simpl. destruct rest; reflexivity.
  - change ((c :: l) ++ newline :: rest) with (c :: (l ++ newline :: rest)).
    cbn [splitlines]. rewrite Hc, IH. reflexivity.
Qed.

Lemma splitlines_one_line (l : str) :
  no_linebreak l -> l <> [] -> splitlines l = [l].
Proof.
  induction 1 as [|c l Hc Hl IH]; [congruence|].
  intros _. cbn [splitlines]. rewrite Hc.
  destruct l as [|d l']; [reflexivity|].
  rewrite IH by discriminate. reflexivity.
Qed.

(** Joining lines that end in a line with content and splitting them again
    gives the lines back. *)
Lemma splitlines_join (ls : list str) :
  Forall no_linebreak ls ->
  splitlines (join [newline] (drop_blank_end ls)) = drop_blank_end ls.
Proof.
  induction 1 as [|l r Hl Hr IH]; [reflexivity|].
  cbn [drop_blank_end].
  destruct (drop_blank_end r) as [|x r'].
  - destruct (is_blank l) eqn:E; [reflexivity|].
    simpl. apply splitlines_one_line; [exact Hl|].
    intros ->. discriminate.
  - rewrite join_cons.
    change (l ++ [newline] ++ join [newline] (x :: r'))
      with (l ++ newline :: join [newline] (x :: r')).
    rewrite (splitlines_app_newline _ Hl), IH. reflexivity.
Qed.

End Lines.

(* ================================================================== *)
(** ** clean_lines *)

Section CleanLines.

Lemma clean_loop_sorted (ls : list str) (b : bool) :
  Sorted no_blank_after_blank (clean_loop ls b)
  /\ (b = true -> head_not_blank (clean_loop ls b)).
Proof.
  revert b. induction ls as [|l r IH]; intros b; simpl.
  - split; [constructor | intros _; exact I].
  - destruct (is_blank l) eqn:E; destruct b; simpl.
    + apply IH.
    + destruct (IH true) as [Hs Hh]. split; [|discriminate].
      constructor; [exact Hs|].
      specialize (Hh eq_refl).
      destruct (clean_loop r true); constructor.
      intros _. exact Hh.
    + destruct (IH false) as [Hs _]. split; [|intros _; exact E].
      constructor; [exact Hs|].
      destruct (clean_loop r false); constructor.
      intros H. congruence.
    + destruct (IH false) as [Hs _]. split; [|discriminate].
      constructor; [exact Hs|].
      destruct (clean_loop r false); constructor.
      intros H. congruence.
Qed.

Lemma drop_blank_sorted (ls : list str) :
  Sorted no_blank_after_blank ls -> Sorted no_blank_after_blank (drop_blank ls).
Proof.
  induction 1 as [|l r Hs IH Hh]; simpl; [constructor|].
  destruct (is_blank l); [exact IH | constructor; assumption].
Qed.

Lemma lstrip_first_sorted (ls : list str) :
  Sorted no_blank_after_blank ls ->
  Sorted no_blank_after_blank (lstrip_first ls).
Proof.
  intros H. destruct ls as [|l r]; [constructor|].
  inversion H as [|? ? Hs Hh]; subst. simpl.
  constructor; [exact Hs|].
  destruct r; constructor. inversion Hh; subst.
  unfold no_blank_after_blank in *. rewrite is_blank_lstrip. assumption.
Qed.

Lemma drop_blank_end_head (ls : list str) (x : str) (r' : list str) :
  drop_blank_end ls = x :: r' -> exists r0, ls = x :: r0.
Proof.
  destruct ls as [|l r]; simpl; [discriminate|].
  destruct (drop_blank_end r).
  - destruct (is_blank l); [discriminate|].
    intros H. injection H as <- _. eauto.
  - intros H. injection H as <- _. eauto.
Qed.

Lemma drop_blank_end_sorted (ls : list str) :
  Sorted no_blank_after_blank ls ->
  Sorted no_blank_after_blank (drop_blank_end ls).
Proof.
  induction 1 as [|l r Hs IH Hh]; simpl; [constructor|].
  destruct (drop_blank_end r) as [|x r'] eqn:E.
  - destruct (is_blank l); repeat constructor.
  - constructor; [exact IH|].
    destruct (drop_blank_end_head _ E) as [r0 ->].
    inversion Hh; subst. constructor. assumption.
Qed.

Lemma count_nonblank_cons (l : str) (r : list str) :
  count_nonblank (l :: r)
  = ((if is_blank l then 0 else 1) + count_nonblank r)%nat.
Proof. unfold count_nonblank. simpl. destruct (is_blank l); reflexivity. Qed.

Lemma clean_loop_count (ls : list str) (b : bool) :
  count_nonblank (clean_loop ls b) = count_nonblank ls.
Proof.
  revert b. induction ls as [|l r IH]; intros b; [reflexivity|].
  cbn [clean_loop]. rewrite (count_nonblank_cons l r).
  destruct (is_blank l) eqn:E, b; simpl.
  - apply IH.
  - rewrite count_nonblank_cons, E. apply IH.
  - rewrite count_nonblank_cons, E, IH. reflexivity.
  - rewrite count_nonblank_cons, E, IH. reflexivity.
Qed.

Lemma map_rstrip_count (ls : list str) :
  count_nonblank (map rstrip ls) = count_nonblank ls.
Proof.
  induction ls as [|l r IH]; [reflexivity|].
  cbn [map]. rewrite !count_nonblank_cons, is_blank_rstrip, IH. reflexivity.
Qed.

Lemma drop_blank_count (ls : list str) :
  count_nonblank (drop_blank ls) = count_nonblank ls.
Proof.
  induction ls as [|l r IH]; [reflexivity|].
  cbn [drop_blank]. destruct (is_blank l) eqn:E; [|reflexivity].
  rewrite count_nonblank_cons, E. exact IH.
Qed.

Lemma lstrip_first_count (ls : list str) :
  count_nonblank (lstrip_first ls) = count_nonblank ls.
Proof.
  destruct ls as [|l r]; [reflexivity|].
  cbn [lstrip_first]. rewrite !count_nonblank_cons, is_blank_lstrip. reflexivity.
Qed.

Lemma drop_blank_end_count (ls : list str) :
  count_nonblank (drop_blank_end ls) = count_nonblank ls.
Proof.
  induction ls as [|l r IH]; [reflexivity|].
  cbn [drop_blank_end]. rewrite (count_nonblank_cons l r), <- IH.
  destruct (drop_blank_end r) as [|x r'].
  - destruct (is_blank l) eqn:E; [reflexivity|].
    rewrite count_nonblank_cons, E. reflexivity.
  - rewrite (count_nonblank_cons l (x :: r')). reflexivity.
Qed.

(** The lines of the cleaned text. *)
Lemma clean_lines_lines (text : str) :
  splitlines (clean_lines text) = kept_lines text.
Proof.
  unfold clean_lines, kept_lines.
  destruct text as [|c text]; [reflexivity|]. cbn [is_empty].
  set (out := clean_loop (map rstrip (splitlines (c :: text))) false).
  assert (Hr : Forall rstripped out).
  { apply clean_loop_Forall, Forall_map, Forall_forall.
    intros l _. apply rstrip_idem. }
  assert (Hn : Forall no_linebreak out).
  { apply clean_loop_Forall, Forall_map.
    eapply Forall_impl; [|apply splitlines_no_linebreak].
    intros l Hl. apply rstrip_Forall. exact Hl. }
  assert (Hr' : Forall rstripped (lstrip_first (drop_blank out))).
  { apply (drop_blank_Forall (P := rstripped)) in Hr.
    destruct (drop_blank out); [constructor|].
    inversion Hr; subst. constructor; [|assumption].
    apply rstrip_fixed_lstrip. assumption. }
  assert (Hn' : Forall no_linebreak (lstrip_first (drop_blank out))).
  { apply (drop_blank_Forall (P := no_linebreak)) in Hn.
    destruct (drop_blank out); [constructor|].
    inversion Hn; subst. constructor; [|assumption].
    apply lstrip_Forall. assumption. }
  unfold strip. rewrite lstrip_join, (rstrip_join Hr').
  apply splitlines_join. exact Hn'.
Qed.

End CleanLines.

(* ================================================================== *)
(** ** Column specifications: order and overlap *)

Section ColsSpec.
Context {RT : Runtime}.

Lemma check_overlaps_Ok (l : list box) :
  check_overlaps l = Ok tt <->
  neighbours (fun a b => py_lt (fst b) (snd a) = false) l.
Proof.
  induction l as [|a [|b l] IH].
  - split; [intros _; apply neighbours_short; simpl; lia | reflexivity].
  - split; [intros _; apply neighbours_short; simpl; lia | reflexivity].
  - rewrite neighbours_cons, <- IH.
    cbn [check_overlaps].
    destruct (py_lt (fst b) (snd a)); split.
    + discriminate.
    + intros [H _]. discriminate.
    + auto.
    + intros [_ H]. exact H.
Qed.

(** When neighbours overlap, the check raises on the first such pair. *)
Lemma check_overlaps_Raise (l : list box) (i : nat) (a b : box) :
  adjacent_at l i a b -> overlaps a b ->
  exists j a' b',
    adjacent_at l j a' b' /\ overlaps a' b' /\
    (forall k c d, (k < j)%nat -> adjacent_at l k c d -> ~ overlaps c d) /\
    check_overlaps l = Raise (OverlapError a' b').
Proof.
  revert i. induction l as [|x [|y l] IH]; intros i [Ha Hb] Hov.
  - destruct i; discriminate.
  - destruct i as [|[|i]]; discriminate.
  - cbn [check_overlaps].
    destruct (py_lt (fst y) (snd x)) eqn:E.
    + exists 0%nat, x, y. repeat split; try reflexivity; try assumption.
      intros k c d Hk. lia.
    + destruct i as [|i].
      * simpl in Ha, Hb. injection Ha as <-. injection Hb as <-.
        unfold overlaps in Hov. congruence.
      * destruct (IH i (conj Ha Hb) Hov) as (j & a' & b' & Hadj & Hov' & Hfirst & Hr).
        exists (S j), a', b'. repeat split; try assumption; try apply Hadj.
        intros [|k] c d Hk [Hc Hd]; simpl in Hc, Hd.
        -- injection Hc as <-. injection Hd as <-.
           unfold overlaps. congruence.
        -- apply (Hfirst k); [lia | split; assumption].
Qed.

Lemma parse_cols_spec_Ok_inv (spec : str) (width : float) (boxes : list box) :
  parse_cols_spec spec width = Ok boxes ->
  boxes = [] \/
  exists bs, parse_parts (nonblank_parts spec) width = Ok bs /\
             boxes = sorted_by py_lt (@fst float float) bs /\
             check_overlaps boxes = Ok tt.
Proof.
  unfold parse_cols_spec. destruct (is_empty spec).
  - intros H. injection H as <-. left. reflexivity.
  - destruct (parse_parts (nonblank_parts spec) width) as [bs|e]; simpl;
      [|discriminate].
    destruct (check_overlaps (sorted_by py_lt fst bs)) as [[]|e] eqn:E; simpl;
      [|discriminate].
    intros H. injection H as <-. right. exists bs. auto.
Qed.

Lemma parse_cols_spec_no_parts (spec : str) (width : float) :
  nonblank_parts spec = [] -> parse_cols_spec spec width = Ok [].
Proof.
  intros H. unfold parse_cols_spec. rewrite H.
  destruct (is_empty spec); reflexivity.
Qed.

(** The result is a function of the non-blank parts alone. *)
Lemma parse_cols_spec_by_parts (spec spec' : str) (width : float) :
  nonblank_parts spec = nonblank_parts spec' ->
  parse_cols_spec spec width = parse_cols_spec spec' width.
Proof.
  intros H. unfold parse_cols_spec.
  destruct (is_empty spec) eqn:E, (is_empty spec') eqn:E'; rewrite <- ?H.
  - reflexivity.
  - destruct spec; [|discriminate]. reflexivity.
  - destruct spec'; [|discriminate]. rewrite H. reflexivity.
  - reflexivity.
Qed.

(** C10. Parts of the spec that are empty or only whitespace are dropped
    before any validation: a spec all of whose comma-separated parts are
    blank parses to the empty list, and a spec built from parts parses to
    what the spec built from its non-blank parts alone parses to. *)
Theorem parse_cols_spec_ignores_blank_parts (width : float) :
  (forall spec,
      Forall (fun p => is_blank p = true) (split comma spec) ->
      parse_cols_spec spec width = Ok [])
  /\
  (forall parts,
      Forall (fun p => contains comma p = false) parts ->
      parse_cols_spec (join [comma] parts) width
      = parse_cols_spec
          (join [comma] (filter (fun p => negb (is_blank p)) parts)) width).
Proof.
  split.
  - intros spec Hall. apply parse_cols_spec_no_parts.
    unfold nonblank_parts. apply filter_none.
    eapply Forall_impl; [|exact Hall].
    intros p Hp. unfold is_blank in Hp. rewrite Hp. reflexivity.
  - intros parts Hall.
    set (keep := filter (fun p => negb (is_blank p)) parts).
    assert (Hl : nonblank_parts (join [comma] parts) = keep).
    { destruct parts as [|p ps]; [reflexivity|].
      unfold nonblank_parts. rewrite split_join; [reflexivity|discriminate|assumption]. }
    destruct keep as [|k ks] eqn:Hk.
    + rewrite parse_cols_spec_no_parts by assumption. reflexivity.
    + apply parse_cols_spec_by_parts. rewrite Hl.
      unfold nonblank_parts. rewrite split_join.
      * rewrite <- Hk. unfold keep. symmetry. apply filter_idem.
      * discriminate.
      * rewrite <- Hk. unfold keep.
        rewrite Forall_forall in *. intros p Hp.
        apply filter_In in Hp. apply Hall. tauto.
Qed.



Lemma parse_parts_cons_Ok (q : str) (pre : list str) (width : float)
    (bs : list box) :
  parse_parts (q :: pre) width = Ok bs ->
  exists b bs', parse_part q width = Ok b /\ parse_parts pre width = Ok bs'.
Proof.
  simpl. destruct (parse_part q width) as [b|e]; simpl; [|discriminate].
  destruct (parse_parts pre width) as [bs'|e]; simpl; [|discriminate].
  eauto.
Qed.



End ColsSpec.

(* ================================================================== *)
(** ** Line reconstruction *)

Section Line.
Context {RT : Runtime}.
Variable gap_ratio : float.

Lemma rstep_no_text (st : rstate) (ch : glyph) :
  has_text ch = false -> rstep gap_ratio st ch = st.
Proof.
  unfold has_text, rstep. destruct (is_empty (g_text ch)); [reflexivity|discriminate].
Qed.

Lemma rstep_has_text (st : rstate) (ch : glyph) :
  has_text ch = true ->
  rstep gap_ratio st ch
  = {| out := out st ++ emitted gap_ratio st ch;
       in_bold := _looks_bold (g_fontname ch);
       prev_x1 := g_x1 ch;
       prev_w := glyph_w ch |}.
Proof.
  unfold has_text, rstep, emitted, marker_change.
  destruct (is_empty (g_text ch)); [discriminate|]. intros _.
  destruct (wants_space gap_ratio (prev_x1 st) (prev_w st) ch),
    (_looks_bold (g_fontname ch)), (in_bold st); simpl;
    rewrite <- ?app_assoc; reflexivity.
Qed.

Lemma fold_rstep_skipped (sk : list glyph) (st : rstate) :
  Forall (fun g => has_text g = false) sk ->
  fold_left (rstep gap_ratio) sk st = st.
Proof.
  induction 1 as [|g sk Hg _ IH]; simpl; [reflexivity|].
  rewrite (rstep_no_text st g Hg). exact IH.
Qed.

Lemma fold_rstep_filter (l : list glyph) (st : rstate) :
  fold_left (rstep gap_ratio) l st
  = fold_left (rstep gap_ratio) (filter has_text l) st.
Proof.
  revert st. induction l as [|g l IH]; intros st; simpl; [reflexivity|].
  destruct (has_text g) eqn:E; simpl.
  - apply IH.
  - rewrite (rstep_no_text st g E). apply IH.
Qed.

(** [out] only grows. *)
Lemma fold_rstep_out_prefix (l : list glyph) (st : rstate) :
  exists more, out (fold_left (rstep gap_ratio) l st) = out st ++ more.
Proof.
  revert st. induction l as [|g l IH]; intros st; simpl.
  - exists []. rewrite app_nil_r. reflexivity.
  - destruct (IH (rstep gap_ratio st g)) as [more Hm]. rewrite Hm.
    destruct (has_text g) eqn:E.
    + rewrite (rstep_has_text st g E). simpl.
      exists (emitted gap_ratio st g ++ more). rewrite app_assoc. reflexivity.
    + rewrite (rstep_no_text st g E). exists more. reflexivity.
Qed.

Lemma bold_run_app (b : bool) (l1 l2 : list piece) :
  bold_run b (l1 ++ l2)
  = match bold_run b l1 with
    | Some b' => bold_run b' l2
    | None => None
    end.
Proof.
  revert b. induction l1 as [|p l1 IH]; intros b; simpl; [reflexivity|].
  destruct p, b; simpl; auto.
Qed.

Lemma bold_run_emitted (st : rstate) (ch : glyph) :
  bold_run (in_bold st) (emitted gap_ratio st ch)
  = Some (_looks_bold (g_fontname ch)).
Proof.
  unfold emitted, marker_change.
  destruct (wants_space gap_ratio (prev_x1 st) (prev_w st) ch),
    (_looks_bold (g_fontname ch)), (in_bold st); reflexivity.
Qed.

(** The flag [in_bold] is the state of the markup written so far. *)
Lemma rstep_bold_run (st : rstate) (ch : glyph) :
  bold_run false (out st) = Some (in_bold st) ->
  bold_run false (out (rstep gap_ratio st ch))
  = Some (in_bold (rstep gap_ratio st ch)).
Proof.
  intros Hst. destruct (has_text ch) eqn:E.
  - rewrite (rstep_has_text st ch E). simpl.
    rewrite bold_run_app, Hst. apply bold_run_emitted.
  - rewrite (rstep_no_text st ch E). exact Hst.
Qed.

Lemma fold_rstep_bold_run (l : list glyph) (st : rstate) :
  bold_run false (out st) = Some (in_bold st) ->
  bold_run false (out (fold_left (rstep gap_ratio) l st))
  = Some (in_bold (fold_left (rstep gap_ratio) l st)).
Proof.
  revert st. induction l as [|g l IH]; intros st Hst; simpl.
  - exact Hst.
  - apply IH. apply rstep_bold_run. exact Hst.
Qed.

Lemma reconstruct_pieces_balanced (l : list glyph) :
  bold_balanced (reconstruct_pieces l gap_ratio).
Proof.
  unfold bold_balanced, reconstruct_pieces.
  pose proof (fold_rstep_bold_run l rstate0 eq_refl) as H.
  destruct (in_bold (fold_left (rstep gap_ratio) l rstate0)).
  - rewrite bold_run_app, H. reflexivity.
  - exact H.
Qed.

(** A line left in a bold run ends in the text of its last glyph with
    text. *)
Lemma fold_rstep_in_bold_last (l : list glyph) :
  in_bold (fold_left (rstep gap_ratio) l rstate0) = true ->
  exists l1 ch l2 before,
    l = l1 ++ ch :: l2 /\ has_text ch = true /\
    Forall (fun g => has_text g = false) l2 /\
    out (fold_left (rstep gap_ratio) l rstate0) = before ++ [Text (g_text ch)].
Proof.
  induction l as [|x l IH] using rev_ind.
  - simpl. discriminate.
  - rewrite fold_left_app. simpl.
    destruct (has_text x) eqn:E.
    + intros _. rewrite (rstep_has_text _ x E). simpl.
      exists l, x, [].
      exists (out (fold_left (rstep gap_ratio) l rstate0)
              ++ (if wants_space gap_ratio
                       (prev_x1 (fold_left (rstep gap_ratio) l rstate0))
                       (prev_w (fold_left (rstep gap_ratio) l rstate0)) x
                  then [Space] else [])
              ++ marker_change (_looks_bold (g_fontname x))
                   (in_bold (fold_left (rstep gap_ratio) l rstate0))).
      repeat split; auto.
      unfold emitted. rewrite <- !app_assoc. reflexivity.
    + rewrite (rstep_no_text _ x E). intros Hb.
      destruct (IH Hb) as (l1 & ch & l2 & before & -> & Hch & Hl2 & Hout).
      exists l1, ch, (l2 ++ [x]), before.
      repeat split; auto.
      * rewrite <- app_assoc. reflexivity.
      * apply Forall_app. split; [assumption | constructor; auto].
Qed.

End Line.

(* ================================================================== *)
(** ** Markup in the rendered string *)

Section Markup.

Lemma markup_run_skip (b : bool) (t rest : str) :
  contains lt_sign t = false ->
  markup_run b (t ++ rest) = markup_run b rest.
Proof.
  induction t as [|c t IH]; [reflexivity|].
  unfold contains. cbn [existsb]. intros H.
  apply orb_false_iff in H. destruct H as [Hc Ht].
  change ((c :: t) ++ rest) with (c :: (t ++ rest)).
  cbn [markup_run].
  change (startswith (lit "<bold>") (c :: t ++ rest))
    with ((lt_sign =? c)%N && startswith (lit "bold>") (t ++ rest)).
  change (startswith (lit "</bold>") (c :: t ++ rest))
    with ((lt_sign =? c)%N && startswith (lit "/bold>") (t ++ rest)).
  rewrite Hc. simpl. apply IH. exact Ht.
Qed.

Lemma markup_run_open (b : bool) (rest : str) :
  markup_run b (lit "<bold>" ++ rest)
  = if b then None else markup_run true rest.
Proof.
  change (lit "<bold>" ++ rest) with (lt_sign :: (lit "bold>" ++ rest)).
  cbn [markup_run].
  replace (startswith (lit "<bold>") (lt_sign :: lit "bold>" ++ rest))
    with true by reflexivity.
  destruct b; [reflexivity|]. apply markup_run_skip. reflexivity.
Qed.

Lemma markup_run_close (b : bool) (rest : str) :
  markup_run b (lit "</bold>" ++ rest)
  = if b then markup_run false rest else None.
Proof.
  change (lit "</bold>" ++ rest) with (lt_sign :: (lit "/bold>" ++ rest)).
  cbn [markup_run].
  replace (startswith (lit "<bold>") (lt_sign :: lit "/bold>" ++ rest))
    with false by reflexivity.
  replace (startswith (lit "</bold>") (lt_sign :: lit "/bold>" ++ rest))
    with true by reflexivity.
  destruct b; [|reflexivity]. apply markup_run_skip. reflexivity.
Qed.

(** On pieces whose texts hold no ["<"], the markers read off the rendered
    string are the marker pieces. *)
Lemma markup_run_render (b : bool) (ps : list piece) :
  Forall text_without_lt ps ->
  markup_run b (concat_all (map render ps)) = bold_run b ps.
Proof.
  intros H. revert b. induction H as [|p ps Hp _ IH]; intros b.
  - reflexivity.
  - change (concat_all (map render (p :: ps)))
      with (render p ++ concat_all (map render ps)).
    destruct p; cbn [render bold_run].
    + rewrite markup_run_skip by reflexivity. apply IH.
    + rewrite markup_run_open. destruct b; [reflexivity | apply IH].
    + rewrite markup_run_close. destruct b; [apply IH | reflexivity].
    + rewrite markup_run_skip by exact Hp. apply IH.
Qed.

End Markup.

(* ================================================================== *)
(** ** Line reconstruction: markup, spaces, skipped glyphs *)

Section LineClaims.
Context {RT : Runtime}.
Variable gap_ratio : float.

Lemma render_reconstruct (l : list glyph) :
  _reconstruct_line_with_bold l gap_ratio
  = concat_all (map render (reconstruct_pieces l gap_ratio)).
Proof. destruct l; reflexivity. Qed.

Lemma emitted_without_lt (st : rstate) (ch : glyph) :
  contains lt_sign (g_text ch) = false ->
  Forall text_without_lt (emitted gap_ratio st ch).
Proof.
  intros H. unfold emitted, marker_change.
  destruct (wants_space _ _ _ _), (_looks_bold _), (in_bold st); simpl;
    repeat constructor; exact H.
Qed.

Lemma fold_rstep_without_lt (l : list glyph) (st : rstate) :
  Forall (fun ch => contains lt_sign (g_text ch) = false) l ->
  Forall text_without_lt (out st) ->
  Forall text_without_lt (out (fold_left (rstep gap_ratio) l st)).
Proof.
  intros Hl. revert st. induction Hl as [|g l Hg _ IH]; intros st Hst; simpl.
  - exact Hst.
  - apply IH. destruct (has_text g) eqn:E.
    + rewrite (rstep_has_text gap_ratio st g E). simpl.
      apply Forall_app. split; [exact Hst | apply emitted_without_lt, Hg].
    + rewrite (rstep_no_text gap_ratio st g E). exact Hst.
Qed.

Lemma reconstruct_pieces_without_lt (l : list glyph) :
  Forall (fun ch => contains lt_sign (g_text ch) = false) l ->
  Forall text_without_lt (reconstruct_pieces l gap_ratio).
Proof.
  intros Hl. unfold reconstruct_pieces.
  pose proof (fold_rstep_without_lt rstate0 Hl (Forall_nil _)) as H.
  destruct (in_bold _); [|exact H].
  apply Forall_app. split; [exact H | repeat constructor].
Qed.

(** C3 (amended). The markers the reconstructor itself writes are
    balanced: they alternate [<bold>], [</bold>], starting with an opening
    and ending with a closing one; a line that ends inside a bold run gets
    its [</bold>] right after the text of its last glyph with text, so that
    the returned string ends in that text followed by ["</bold>"]. The
    returned string is the rendering of these pieces, and when no glyph text
    holds a ["<"] the occurrences of ["<bold>"] and ["</bold>"] in the
    returned string are balanced. (A glyph text is copied as it is: one
    that holds a marker can unbalance the string.) *)
Theorem reconstruct_line_bold_balanced (l : list glyph) :
  bold_balanced (reconstruct_pieces l gap_ratio)
  /\ _reconstruct_line_with_bold l gap_ratio
     = concat_all (map render (reconstruct_pieces l gap_ratio))
  /\ (in_bold (fold_left (rstep gap_ratio) l rstate0) = true ->
      exists l1 ch l2 before,
        l = l1 ++ ch :: l2 /\ has_text ch = true /\
        Forall (fun g => has_text g = false) l2 /\
        reconstruct_pieces l gap_ratio
        = before ++ [Text (g_text ch); BoldClose] /\
        _reconstruct_line_with_bold l gap_ratio
        = concat_all (map render before) ++ g_text ch ++ lit "</bold>")
  /\ (Forall (fun ch => contains lt_sign (g_text ch) = false) l ->
      line_markup_balanced l gap_ratio).
Proof.
  split; [apply reconstruct_pieces_balanced|].
  split; [apply render_reconstruct|].
  split.
  - intros Hb.
    destruct (fold_rstep_in_bold_last gap_ratio l Hb)
      as (l1 & ch & l2 & before & Hl & Hch & Hl2 & Hout).
    assert (Hp : reconstruct_pieces l gap_ratio
                 = before ++ [Text (g_text ch); BoldClose]).
    { unfold reconstruct_pieces. rewrite Hb, Hout, <- app_assoc. reflexivity. }
    exists l1, ch, l2, before. repeat split; auto.
    rewrite render_reconstruct, Hp. unfold concat_all.
    rewrite map_app, concat_app. cbn [map List.concat render].
    rewrite app_nil_r. reflexivity.
  - intros Hl. unfold line_markup_balanced. unfold markup_balanced.
    rewrite render_reconstruct, markup_run_render.
    + apply reconstruct_pieces_balanced.
    + apply reconstruct_pieces_without_lt. exact Hl.
Qed.

Lemma reconstruct_pieces_filter (l : list glyph) :
  reconstruct_pieces l gap_ratio
  = reconstruct_pieces (filter has_text l) gap_ratio.
Proof.
  unfold reconstruct_pieces. rewrite <- fold_rstep_filter. reflexivity.
Qed.

(** The pieces written for [c], the first glyph with text after [p]. *)
Lemma loop_out_next (l1 sk : list glyph) (p c : glyph) :
  has_text p = true -> has_text c = true ->
  Forall (fun g => has_text g = false) sk ->
  loop_out gap_ratio (l1 ++ p :: sk ++ [c])
  = loop_out gap_ratio (l1 ++ [p])
    ++ (if wants_space gap_ratio (g_x1 p) (glyph_w p) c then [Space] else [])
    ++ marker_change (_looks_bold (g_fontname c)) (_looks_bold (g_fontname p))
    ++ [Text (g_text c)].
Proof.
  intros Hp Hc Hsk. unfold loop_out.
  replace (l1 ++ p :: sk ++ [c]) with ((l1 ++ [p]) ++ sk ++ [c])
    by (rewrite <- app_assoc; reflexivity).
  rewrite (fold_left_app _ (l1 ++ [p])), (fold_left_app _ sk).
  rewrite (fold_rstep_skipped gap_ratio _ Hsk).
  simpl. rewrite (rstep_has_text gap_ratio _ c Hc). simpl.
  unfold emitted. f_equal.
  rewrite fold_left_app. simpl.
  rewrite (rstep_has_text gap_ratio _ p Hp). reflexivity.
Qed.

(** C8. A glyph with empty text leaves the loop's state as it is: nothing
    is written, the bold flag and the gap tracking keep their values. The
    line reads as the line without such glyphs, and the space before the
    next glyph with text is decided from the right edge and width of the
    last glyph with text before it, whatever lies between them. *)
Theorem reconstruct_line_skips_empty_text :
  (forall st ch, g_text ch = [] -> rstep gap_ratio st ch = st)
  /\ (forall l,
        _reconstruct_line_with_bold l gap_ratio
        = _reconstruct_line_with_bold (filter has_text l) gap_ratio)
  /\ (forall l1 ch l2,
        g_text ch = [] ->
        _reconstruct_line_with_bold (l1 ++ ch :: l2) gap_ratio
        = _reconstruct_line_with_bold (l1 ++ l2) gap_ratio)
  /\ (forall l1 p sk c,
        has_text p = true -> has_text c = true ->
        Forall (fun g => g_text g = []) sk ->
        loop_out gap_ratio (l1 ++ p :: sk ++ [c])
        = loop_out gap_ratio (l1 ++ p :: [c])).
Proof.
  assert (Hno : forall ch, g_text ch = [] -> has_text ch = false)
    by (intros ch H; unfold has_text; rewrite H; reflexivity).
  split; [|split; [|split]].
  - intros st ch H. apply rstep_no_text, Hno, H.
  - intros l. rewrite !render_reconstruct, reconstruct_pieces_filter.
    reflexivity.
  - intros l1 ch l2 H. rewrite !render_reconstruct.
    rewrite (reconstruct_pieces_filter (l1 ++ ch :: l2)),
      (reconstruct_pieces_filter (l1 ++ l2)).
    rewrite !filter_app. simpl. rewrite (Hno ch H). reflexivity.
  - intros l1 p sk c Hp Hc Hsk.
    rewrite (@loop_out_next l1 sk p c Hp Hc).
    + change (l1 ++ [p; c]) with (l1 ++ p :: [] ++ [c]).
      rewrite (@loop_out_next l1 [] p c Hp Hc); [reflexivity | constructor].
    + eapply Forall_impl; [|exact Hsk]. exact Hno.
Qed.



Lemma marker_change_no_space (a b : bool) :
  count_spaces (marker_change a b) = 0%nat /\ Forall not_text (marker_change a b).
Proof.
  destruct a, b; simpl; split; repeat constructor.
Qed.


End LineClaims.

(* ================================================================== *)
(** ** The page range *)

Section Document.
Context {RT : Runtime}.

(** The bounds of the loop: the start is at least 1, the end is the
    requested end cut to the number of pages and raised to the start. *)
Lemma page_bounds_spec (total start_page : Z) (end_page : option Z) :
  let '(sp, ep) := page_bounds total start_page end_page in
  sp = Z.max 1 start_page /\
  (1 <= sp <= ep)%Z /\
  (sp <= total -> ep <= total)%Z /\
  (total < sp -> ep = sp)%Z.
Proof.
  unfold page_bounds. destruct end_page as [e|]; repeat split; lia.
Qed.

Lemma range_one (a : Z) : range (a - 1) a = [(a - 1)%Z].
Proof.
  unfold range. replace (a - (a - 1))%Z with 1%Z by lia.
  simpl. f_equal. lia.
Qed.

(** C2 (defect of the code). When the start page, once clamped to at least
    1, exceeds the number of pages, the loop still runs for the start page,
    [pdf.pages] is indexed past its end and the function raises
    [IndexError]: it does not return an empty text. *)
Theorem pdf_to_txt_start_beyond_last_page
    (pages : list page) (start_page : Z) (end_page : option Z)
    (default_cols : Z) (header_ratio footer_ratio x_tolerance y_tolerance : float)
    (odd_cols_spec even_cols_spec : option str) :
  (Z.of_nat (List.length pages) < Z.max 1 start_page)%Z ->
  pdf_to_txt_parity_boxes pages start_page end_page default_cols
    header_ratio footer_ratio x_tolerance y_tolerance
    odd_cols_spec even_cols_spec
  = Raise (IndexError (Z.max 1 start_page - 1)).
Proof.
  intros Hlt. unfold pdf_to_txt_parity_boxes.
  pose proof (page_bounds_spec (Z.of_nat (List.length pages)) start_page end_page) as Hb.
  destruct (page_bounds _ start_page end_page) as [sp ep].
  destruct Hb as (Hsp & _ & _ & Hep).
  rewrite (Hep ltac:(lia)), range_one. subst sp.
  cbn [pages_loop]. unfold get_page.
  destruct (nth_error pages (Z.to_nat (Z.max 1 start_page - 1))) eqn:E.
  - assert (Hn : nth_error pages (Z.to_nat (Z.max 1 start_page - 1)) <> None)
      by congruence.
    apply nth_error_Some in Hn. lia.
  - reflexivity.
Qed.

End Document.

(* ================================================================== *)
(** ** Rounding to nearest is monotone *)

Section Rounding.
Local Open Scope Z_scope.

Lemma iter_pos_nat {A} (f : A -> A) (p : positive) (x : A) :
  iter_pos f p x = Nat.iter (Pos.to_nat p) f x.
Proof.
  revert x. induction p as [p IH|p IH|]; intros x; cbn [iter_pos].
  - rewrite !IH, Pos2Nat.inj_xI.
    replace (S (2 * Pos.to_nat p)) with (Pos.to_nat p + S (Pos.to_nat p))%nat by lia.
    rewrite Nat.iter_add. f_equal. rewrite Nat.iter_succ_r. reflexivity.
  - rewrite !IH, Pos2Nat.inj_xO.
    replace (2 * Pos.to_nat p)%nat with (Pos.to_nat p + Pos.to_nat p)%nat by lia.
    rewrite Nat.iter_add. reflexivity.
  - reflexivity.
Qed.

Lemma shr_1_nonneg (m : Z) (r s : bool) :
  0 <= m ->
  shr_1 (Build_shr_record m r s) = Build_shr_record (m / 2) (Z.odd m) (r || s).
Proof.
  intros Hm. rewrite <- Z.div2_div.
  destruct m as [|[p|p|]|p]; try reflexivity. lia.
Qed.

Lemma shr_inv_step (P n : Z) (mrs : shr_record) :
  0 <= n -> shr_inv P n mrs -> shr_inv P (n + 1) (shr_1 mrs).
Proof.
  intros Hn (Hm & rem & Hrem & HP & Hr & Hs).
  destruct mrs as [m r s]. cbn [shr_m shr_r shr_s] in *.
  rewrite (@shr_1_nonneg m r s Hm). cbn [shr_m shr_r shr_s].
  assert (Hpow : 2 ^ (n + 1) = 2 * 2 ^ n) by (rewrite Z.pow_add_r by lia; lia).
  assert (H2n : 0 < 2 ^ n) by (apply Z.pow_pos_nonneg; lia).
  split; [apply Z.div_pos; lia|].
  pose proof (Z.div_mod m 2 ltac:(lia)) as Hdm.
  pose proof (Z.mod_pos_bound m 2 ltac:(lia)) as Hb.
  assert (Hodd : Z.odd m = true <-> m mod 2 = 1).
  { rewrite Zmod_odd. destruct (Z.odd m); split; (lia || discriminate || auto). }
  exists ((m mod 2) * 2 ^ n + rem).
  cbn [shr_m shr_r shr_s]. rewrite Hpow.
  set (A := 2 ^ n) in *. clearbody A.
  assert (Hcase : m mod 2 = 0 \/ m mod 2 = 1) by lia.
  assert (Hors : r || s = true <-> rem <> 0).
  { rewrite orb_true_iff, Hr, Hs. split.
    - intros [H|[H1 H2]]; lia.
    - intros H1.
      destruct (Z.eq_dec (2 * rem) A) as [E|E]; [left; lia|].
      right. split; [lia | exact E]. }
  rewrite Hors, Hodd.
  destruct Hcase as [Hc|Hc]; rewrite Hc in *.
  - split; [lia|]. split; [nia|]. split; [lia|]. lia.
  - split; [lia|]. split; [nia|]. split; [lia|]. lia.
Qed.

Lemma shr_inv_iter (P : Z) (k : nat) :
  0 <= P ->
  shr_inv P (Z.of_nat k) (Nat.iter k shr_1 (Build_shr_record P false false)).
Proof.
  intros HP. induction k as [|k IH].
  - split; [exact HP|]. exists 0. simpl.
    split; [lia|]. split; [lia|].
    split; (split; [discriminate|]); [lia | intros [H _]; lia].
  - rewrite Nat2Z.inj_succ. cbn [Nat.iter]. unfold Z.succ.
    apply shr_inv_step; [lia | exact IH].
Qed.

Lemma round_nearest_even_rounds (P n : Z) (mrs : shr_record) :
  0 <= n -> shr_inv P n mrs ->
  rounds_to P n (round_nearest_even (shr_m mrs) (loc_of_shr_record mrs))
  /\ 0 <= round_nearest_even (shr_m mrs) (loc_of_shr_record mrs).
Proof.
  intros Hn (Hm & rem & Hrem & HP & Hr & Hs).
  destruct mrs as [m r s]. cbn [shr_m shr_r shr_s] in *.
  assert (H2n : 0 < 2 ^ n) by (apply Z.pow_pos_nonneg; lia).
  unfold rounds_to.
  destruct r, s; cbn [loc_of_shr_record round_nearest_even].
  - assert (2 ^ n <= 2 * rem) by (apply Hr; reflexivity).
    assert (rem <> 0 /\ 2 * rem <> 2 ^ n) by (apply Hs; reflexivity).
    split; [split; [nia|intros [H1|H1]; nia] | lia].
  - assert (2 ^ n <= 2 * rem) by (apply Hr; reflexivity).
    assert (E : 2 * rem = 2 ^ n).
    { destruct (Z.eq_dec (2 * rem) (2 ^ n)) as [E|E]; [exact E|].
      assert (false = true); [|discriminate].
      apply Hs. split; [nia | exact E]. }
    destruct (Z.even m) eqn:Ev.
    + split; [split; [nia|intros _; exact Ev] | lia].
    + split; [split; [nia|]|lia]. intros _.
      rewrite Z.even_add, Ev. reflexivity.
  - assert (~ 2 ^ n <= 2 * rem) by (intros H; apply Hr in H; discriminate).
    assert (rem <> 0 /\ 2 * rem <> 2 ^ n) by (apply Hs; reflexivity).
    split; [split; [nia|intros [H1|H1]; nia] | lia].
  - assert (~ 2 ^ n <= 2 * rem) by (intros H; apply Hr in H; discriminate).
    assert (E : rem = 0).
    { destruct (Z.eq_dec rem 0) as [E|E]; [exact E|].
      assert (false = true); [|discriminate].
      apply Hs. split; [exact E | nia]. }
    split; [split; [nia|intros [H1|H1]; nia] | lia].
Qed.

(** Rounding to nearest is monotone, also across different shifts. *)
Lemma rounds_to_mono (P1 n1 M1 P2 n2 M2 : Z) :
  0 <= n1 -> 0 <= n2 ->
  rounds_to P1 n1 M1 -> rounds_to P2 n2 M2 ->
  P1 * 2 ^ n2 <= P2 * 2 ^ n1 ->
  M1 <= M2.
Proof.
  intros Hn1 Hn2 [HA1 HT1] [HA2 HT2] Hle.
  assert (HA : 0 < 2 ^ n1) by (apply Z.pow_pos_nonneg; lia).
  assert (HB : 0 < 2 ^ n2) by (apply Z.pow_pos_nonneg; lia).
  set (A := 2 ^ n1) in *. set (B := 2 ^ n2) in *.
  destruct (Z_le_gt_dec M1 M2) as [H|H]; [exact H|exfalso].
  assert (H1 : A * (2 * M2 + 1) <= 2 * P1) by nia.
  assert (H2 : 2 * P2 <= B * (2 * M2 + 1)) by nia.
  assert (H3 : A * B * (2 * M2 + 1) <= 2 * P1 * B) by nia.
  assert (H4 : 2 * P2 * A <= A * B * (2 * M2 + 1)) by nia.
  assert (H5 : 2 * P1 * B = A * B * (2 * M2 + 1)) by nia.
  assert (H6 : 2 * P2 * A = A * B * (2 * M2 + 1)) by nia.
  assert (E1 : 2 * P1 = A * (2 * M2 + 1)) by nia.
  assert (E2 : 2 * P2 = B * (2 * M2 + 1)) by nia.
  assert (EM : M1 = M2 + 1) by nia.
  assert (Ev1 : Z.even M1 = true) by (apply HT1; left; nia).
  assert (Ev2 : Z.even M2 = true) by (apply HT2; right; nia).
  subst M1. rewrite Z.even_add, Ev2 in Ev1. discriminate.
Qed.

Lemma rounds_to_grid (g n : Z) : 0 <= n -> rounds_to (g * 2 ^ n) n g.
Proof.
  intros Hn. assert (H : 0 < 2 ^ n) by (apply Z.pow_pos_nonneg; lia).
  unfold rounds_to. split; [nia|]. intros [E|E]; nia.
Qed.

Lemma digits2_size (p : positive) : digits2_pos p = Pos.size p.
Proof. induction p; simpl; congruence. Qed.

Lemma digits2_bounds (p : positive) :
  2 ^ (Zpos (digits2_pos p) - 1) <= Zpos p < 2 ^ Zpos (digits2_pos p).
Proof.
  rewrite digits2_size. split.
  - pose proof (Pos.size_le p) as H.
    assert (Hz : 2 ^ Zpos (Pos.size p) <= 2 * Zpos p).
    { rewrite <- Pos2Z.inj_pow. change (2 * Zpos p) with (Zpos p~0). lia. }
    replace (Zpos (Pos.size p)) with (Zpos (Pos.size p) - 1 + 1) in Hz by lia.
    rewrite Z.pow_add_r in Hz by lia. lia.
  - pose proof (Pos.size_gt p) as H.
    rewrite <- Pos2Z.inj_pow. lia.
Qed.

Lemma digits2_le (p : positive) (k : Z) :
  Zpos p < 2 ^ k -> Zpos (digits2_pos p) <= k.
Proof.
  intros H. destruct (Z_le_gt_dec (Zpos (digits2_pos p)) k) as [L|G]; [exact L|].
  exfalso. pose proof (@digits2_bounds p) as [Hlo _].
  assert (0 <= k).
  { destruct (Z_le_gt_dec 0 k); [assumption|].
    rewrite Z.pow_neg_r in H by lia. lia. }
  assert (2 ^ k <= 2 ^ (Zpos (digits2_pos p) - 1))
    by (apply Z.pow_le_mono_r; lia).
  lia.
Qed.

Lemma digits2_ge (p : positive) (k : Z) :
  2 ^ k <= Zpos p -> k + 1 <= Zpos (digits2_pos p).
Proof.
  intros H. destruct (Z_le_gt_dec (k + 1) (Zpos (digits2_pos p))) as [L|G]; [exact L|].
  exfalso. pose proof (@digits2_bounds p) as [_ Hhi].
  assert (2 ^ Zpos (digits2_pos p) <= 2 ^ k)
    by (apply Z.pow_le_mono_r; lia).
  lia.
Qed.

Lemma fexp_ge_emin (e : Z) : -1074 <= fexp prec emax e.
Proof. unfold fexp, emin, prec, emax. lia. Qed.

Lemma fexp_eq (e : Z) : fexp prec emax e = Z.max (e - 53) (-1074).
Proof. reflexivity. Qed.

Lemma shr_inv_shr (P : Z) (F n : Z) :
  0 <= P -> 0 <= n ->
  exists mrs, shr (Build_shr_record P false false) F n = (mrs, F + n)
              /\ shr_inv P n mrs.
Proof.
  intros HP Hn. destruct n as [|p|p]; [| |lia].
  - eexists. split; [cbn [shr]; f_equal; lia|].
    apply (@shr_inv_iter P 0 HP).
  - eexists. split; [reflexivity|].
    rewrite iter_pos_nat.
    rewrite <- (positive_nat_Z p). apply shr_inv_iter. exact HP.
Qed.

Lemma binary_round_aux_finish (s : bool) (P : positive) (F : Z) :
  let d := Zpos (digits2_pos P) in
  let E := fexp prec emax (d + F) in
  F <= E ->
  exists M,
    rounds_to (Zpos P) (E - F) M /\
    (E = d + F - 53 -> 2 ^ 52 <= M <= 2 ^ 53) /\
    (E <> d + F - 53 -> 0 <= M <= 2 ^ 52) /\
    binary_round_aux prec emax s (Zpos P) F loc_Exact = finish s M E.
Proof.
  intros d E HFE.
  pose proof (@digits2_bounds P) as [Hlo Hhi]. fold d in Hlo, Hhi.
  assert (Hd : 1 <= d) by (unfold d; lia).
  assert (HE : E = Z.max (d + F - 53) (-1074)) by reflexivity.
  destruct (@shr_inv_shr (Zpos P) F (E - F)) as (mrs & Hshr & Hinv); [lia|lia|].
  replace (F + (E - F)) with E in Hshr by lia.
  destruct (@round_nearest_even_rounds (Zpos P) (E - F) mrs ltac:(lia) Hinv)
    as [Hrt HM0].
  set (M := round_nearest_even (shr_m mrs) (loc_of_shr_record mrs)) in *.
  exists M. split; [exact Hrt|].
  assert (Hn : 0 <= E - F) by lia.
  (* bounds from the grid points around P *)
  assert (Hup : forall g, 0 <= g -> Zpos P <= g * 2 ^ (E - F) -> M <= g).
  { intros g Hg Hle.
    apply (@rounds_to_mono (Zpos P) (E - F) M (g * 2 ^ (E - F)) (E - F) g);
      try lia; try assumption.
    - apply rounds_to_grid; lia.
    - nia. }
  assert (Hdn : forall g, 0 <= g -> g * 2 ^ (E - F) <= Zpos P -> g <= M).
  { intros g Hg Hle.
    apply (@rounds_to_mono (g * 2 ^ (E - F)) (E - F) g (Zpos P) (E - F) M);
      try lia; try assumption.
    - apply rounds_to_grid; lia.
    - nia. }
  assert (Hnormal : E = d + F - 53 -> 2 ^ 52 <= M <= 2 ^ 53).
  { intros En. assert (Hnd : E - F = d - 53) by lia. rewrite Hnd in *.
    assert (H53 : 53 <= d) by lia.
    split.
    - apply Hdn; [lia|]. rewrite <- Z.pow_add_r by lia.
      replace (52 + (d - 53)) with (d - 1) by lia. exact Hlo.
    - apply Hup; [lia|]. rewrite <- Z.pow_add_r by lia.
      replace (53 + (d - 53)) with d by lia. lia. }
  assert (Hsub : E <> d + F - 53 -> 0 <= M <= 2 ^ 52).
  { intros En. split; [exact HM0|].
    assert (Hgt : d - 53 < E - F) by lia.
    destruct (Z_le_gt_dec (E - F) d) as [Hle|Hgt'].
    - assert (M <= 2 ^ (d - (E - F))).
      { apply Hup; [apply Z.pow_nonneg; lia|].
        rewrite <- Z.pow_add_r by lia.
        replace (d - (E - F) + (E - F)) with d by lia. lia. }
      assert (2 ^ (d - (E - F)) <= 2 ^ 52) by (apply Z.pow_le_mono_r; lia).
      lia.
    - assert (M <= 1).
      { apply Hup; [lia|].
        assert (2 ^ d <= 2 ^ (E - F)) by (apply Z.pow_le_mono_r; lia).
        lia. }
      lia. }
  split; [exact Hnormal|]. split; [exact Hsub|].
  assert (HMle : 0 <= M <= 2 ^ 53).
  { destruct (Z.eq_dec E (d + F - 53)) as [En|En].
    - specialize (Hnormal En). lia.
    - specialize (Hsub En). lia. }
  unfold binary_round_aux.
  unfold shr_fexp at 1. unfold shr_record_of_loc at 1. cbn [Zdigits2].
  fold d. fold E. rewrite Hshr. fold M.
  unfold shr_fexp, shr_record_of_loc.
  pose proof (@fexp_ge_emin (d + F)) as HEmin. fold E in HEmin.
  destruct M as [|m|m] eqn:EM; [| |lia].
  - (* zero *)
    cbn [Zdigits2].
    assert (Hsh : fexp prec emax (0 + E) - E <= 0) by (rewrite fexp_eq; lia).
    destruct (fexp prec emax (0 + E) - E) as [|q|q] eqn:Eq; [| lia |];
      reflexivity.
  - destruct (Z.eq_dec (Zpos m) (2 ^ 53)) as [E53|N53].
    + (* carry *)
      assert (Em : m = (2 ^ 53)%positive) by lia. subst m.
      cbn [Zdigits2].
      change (Zpos (digits2_pos (2 ^ 53))) with 54.
      assert (Hsh : fexp prec emax (54 + E) - E = 1) by (rewrite fexp_eq; lia).
      rewrite Hsh. cbn [shr iter_pos shr_1 shr_m].
      unfold finish. rewrite Z.eqb_refl.
      change (emax - prec) with 971. reflexivity.
    + cbn [Zdigits2].
      assert (Hdm : Zpos (digits2_pos m) <= 53) by (apply digits2_le; lia).
      assert (Hsh : fexp prec emax (Zpos (digits2_pos m) + E) - E <= 0)
        by (rewrite fexp_eq; lia).
      destruct (fexp prec emax (Zpos (digits2_pos m) + E) - E) as [|q|q] eqn:Eq;
        [| lia |]; cbn [shr shr_m]; unfold finish;
        (replace (Zpos m =? 2 ^ 53) with false by (symmetry; apply Z.eqb_neq; exact N53));
        change (emax - prec) with 971; reflexivity.
Qed.

Lemma SFleb_finite_pos (m1 m2 : positive) (e1 e2 : Z) :
  SFleb (S754_finite false m1 e1) (S754_finite false m2 e2) = true <->
  e1 < e2 \/ (e1 = e2 /\ Zpos m1 <= Zpos m2).
Proof.
  unfold SFleb, SFcompare.
  change (Pos.compare_cont Eq m1 m2) with (Pos.compare m1 m2).
  destruct (Z.compare_spec e1 e2) as [E|L|G].
  - destruct (Pos.compare_spec m1 m2) as [Em|Lm|Gm]; split;
      try discriminate; try lia; intros; reflexivity.
  - split; [intros _; lia | reflexivity].
  - split; [discriminate | lia].
Qed.

Lemma pow2_pos (k : Z) : 0 <= k -> 0 < 2 ^ k.
Proof. intros. apply Z.pow_pos_nonneg; lia. Qed.

(** An inequality between scaled integers only depends on the difference
    of the two exponents. *)
Lemma scaled_le_shift (X Y a1 a2 b1 b2 : Z) :
  0 <= a1 -> 0 <= a2 -> 0 <= b1 -> 0 <= b2 ->
  a1 - a2 = b1 - b2 ->
  X * 2 ^ a1 <= Y * 2 ^ a2 -> X * 2 ^ b1 <= Y * 2 ^ b2.
Proof.
  intros Ha1 Ha2 Hb1 Hb2 Hd H.
  destruct (Z_le_gt_dec a1 b1) as [L|G].
  - replace b1 with (a1 + (b1 - a1)) by lia.
    replace b2 with (a2 + (b1 - a1)) by lia.
    rewrite !Z.pow_add_r by lia.
    pose proof (@pow2_pos (b1 - a1) ltac:(lia)). nia.
  - replace a1 with (b1 + (a1 - b1)) in H by lia.
    replace a2 with (b2 + (a1 - b1)) in H by lia.
    rewrite !Z.pow_add_r in H by lia.
    pose proof (@pow2_pos (a1 - b1) ltac:(lia)). nia.
Qed.

Lemma finish_le (M1 E1 M2 E2 : Z) :
  0 <= M1 <= 2 ^ 53 -> 0 <= M2 <= 2 ^ 53 ->
  (E1 = E2 /\ M1 <= M2) \/ (E1 < E2 /\ 2 ^ 52 <= M2) ->
  SFleb (finish false M1 E1) (finish false M2 E2) = true.
Proof.
  intros H1 H2 Hc. unfold finish.
  destruct M1 as [|m1|m1]; [| |exfalso; lia];
    (destruct M2 as [|m2|m2]; [| |exfalso; lia]).
  - reflexivity.
  - destruct (Z.eqb_spec (Zpos m2) (2 ^ 53));
      repeat match goal with
             | |- context [?a <=? ?b] => destruct (Z.leb_spec a b)
             end; reflexivity.
  - exfalso. destruct Hc as [[_ H]|[_ H]]; lia.
  - destruct (Z.eqb_spec (Zpos m1) (2 ^ 53)) as [A1|A1];
      destruct (Z.eqb_spec (Zpos m2) (2 ^ 53)) as [A2|A2];
      repeat match goal with
             | |- context [?a <=? ?b] => destruct (Z.leb_spec a b)
             end;
      try reflexivity;
      try (apply SFleb_finite_pos; change (Zpos (2 ^ 52)) with (2 ^ 52); lia);
      try (exfalso; lia).
Qed.

(** Rounding is monotone: of two positive numbers [P1 * 2^F1 <= P2 * 2^F2]
    (compared at a common scale [c]) the first rounds to the smaller
    float. *)
Lemma binary_round_aux_mono (P1 P2 : positive) (F1 F2 c : Z) :
  F1 <= fexp prec emax (Zpos (digits2_pos P1) + F1) ->
  F2 <= fexp prec emax (Zpos (digits2_pos P2) + F2) ->
  c <= F1 -> c <= F2 ->
  Zpos P1 * 2 ^ (F1 - c) <= Zpos P2 * 2 ^ (F2 - c) ->
  SFleb (binary_round_aux prec emax false (Zpos P1) F1 loc_Exact)
        (binary_round_aux prec emax false (Zpos P2) F2 loc_Exact) = true.
Proof.
  intros HF1 HF2 Hc1 Hc2 Hle.
  destruct (@binary_round_aux_finish false P1 F1 HF1) as (M1 & Hr1 & Hn1 & Hs1 & ->).
  destruct (@binary_round_aux_finish false P2 F2 HF2) as (M2 & Hr2 & Hn2 & Hs2 & ->).
  set (d1 := Zpos (digits2_pos P1)) in *.
  set (d2 := Zpos (digits2_pos P2)) in *.
  set (E1 := fexp prec emax (d1 + F1)) in *.
  set (E2 := fexp prec emax (d2 + F2)) in *.
  assert (HE1 : E1 = Z.max (d1 + F1 - 53) (-1074)) by reflexivity.
  assert (HE2 : E2 = Z.max (d2 + F2 - 53) (-1074)) by reflexivity.
  pose proof (@digits2_bounds P1) as [Hlo1 Hhi1]. fold d1 in Hlo1, Hhi1.
  pose proof (@digits2_bounds P2) as [Hlo2 Hhi2]. fold d2 in Hlo2, Hhi2.
  assert (Hd1 : 1 <= d1) by (unfold d1; lia).
  assert (Hd2 : 1 <= d2) by (unfold d2; lia).
  assert (HD : d1 + F1 <= d2 + F2).
  { destruct (Z_le_gt_dec (d1 + F1) (d2 + F2)) as [L|G]; [exact L|exfalso].
    assert (A : 2 ^ (d1 - 1) * 2 ^ (F1 - c) <= Zpos P1 * 2 ^ (F1 - c)).
    { apply Z.mul_le_mono_nonneg_r; [apply Z.pow_nonneg; lia | exact Hlo1]. }
    assert (B : Zpos P2 * 2 ^ (F2 - c) < 2 ^ d2 * 2 ^ (F2 - c)).
    { apply Z.mul_lt_mono_pos_r; [apply pow2_pos; lia | lia]. }
    rewrite <- Z.pow_add_r in A, B by lia.
    assert (C : 2 ^ (d2 + (F2 - c)) <= 2 ^ (d1 - 1 + (F1 - c)))
      by (apply Z.pow_le_mono_r; lia).
    lia. }
  assert (HM1 : 0 <= M1 <= 2 ^ 53).
  { destruct (Z.eq_dec E1 (d1 + F1 - 53)) as [En|En];
      [specialize (Hn1 En) | specialize (Hs1 En)]; lia. }
  assert (HM2 : 0 <= M2 <= 2 ^ 53).
  { destruct (Z.eq_dec E2 (d2 + F2 - 53)) as [En|En];
      [specialize (Hn2 En) | specialize (Hs2 En)]; lia. }
  apply finish_le; [exact HM1 | exact HM2 |].
  destruct (Z.eq_dec E1 E2) as [EE|NE].
  - left. split; [exact EE|].
    apply (@rounds_to_mono (Zpos P1) (E1 - F1) M1 (Zpos P2) (E2 - F2) M2);
      try lia; try assumption.
    apply (@scaled_le_shift (Zpos P1) (Zpos P2) (F1 - c) (F2 - c)); lia.
  - right. split; [lia|].
    assert (En : E2 = d2 + F2 - 53) by lia.
    specialize (Hn2 En). lia.
Qed.

End Rounding.

(* ================================================================== *)
(** ** Integers as floats *)

Section IntToFloat.
Local Open Scope Z_scope.

Lemma digits2_iter_xO (p k : positive) :
  digits2_pos (Pos.iter xO p k) = (digits2_pos p + k)%positive.
Proof.
  revert p. induction k as [|k IH] using Pos.peano_ind; intros p.
  - simpl. lia.
  - rewrite Pos.iter_succ. simpl. rewrite IH. lia.
Qed.

Lemma iter_xO_value (p q : positive) :
  Zpos (Pos.iter xO p q) = Zpos p * 2 ^ Zpos q.
Proof.
  induction q as [|q IH] using Pos.peano_ind.
  - simpl. lia.
  - rewrite Pos.iter_succ, Pos2Z.inj_succ, Z.pow_succ_r by lia.
    rewrite Pos2Z.inj_xO, IH. lia.
Qed.

(** A positive integer below [2^53] is a finite float of the same value,
    with a mantissa of 53 digits. *)
Lemma SF_of_Z_small (p : positive) :
  Zpos p < 2 ^ 53 ->
  exists m e, SF_of_Z (Zpos p) = S754_finite false m e
              /\ valid_binary (S754_finite false m e) = true
              /\ -52 <= e <= 0
              /\ Zpos m * 2 ^ (e + 52) = Zpos p * 2 ^ 52
              /\ 2 ^ 52 <= Zpos m.
Proof.
  intros Hp. pose proof (@digits2_le p 53 Hp) as Hd.
  unfold SF_of_Z, binary_normalize, binary_round.
  set (d := digits2_pos p) in *.
  assert (Hf : fexp prec emax (Zpos d + 0) = Zpos d - 53)
    by (unfold fexp, emin, prec, emax; lia).
  rewrite Hf.
  assert (Hal : exists mz, shl_align p 0 (Zpos d - 53) = (mz, Zpos d - 53)
                           /\ Zpos (digits2_pos mz) = 53
                           /\ Zpos mz * 2 ^ (Zpos d - 53 + 52) = Zpos p * 2 ^ 52).
  { unfold shl_align. destruct (Zpos d - 53 - 0) as [|q|q] eqn:E.
    - exists p. split; [f_equal; lia|]. split; [fold d; lia|].
      replace (Zpos d - 53 + 52) with 52 by lia. reflexivity.
    - lia.
    - exists (Pos.iter xO p q). split; [reflexivity|].
      split; [rewrite digits2_iter_xO; fold d; lia|].
      rewrite iter_xO_value, <- Z.mul_assoc, <- Z.pow_add_r by lia.
      f_equal. f_equal. lia. }
  destruct Hal as (mz & -> & Hmz & Hval).
  unfold binary_round_aux.
  assert (Hs : shr_fexp prec emax (Zpos mz) (Zpos d - 53) loc_Exact
               = ({| shr_m := Zpos mz; shr_r := false; shr_s := false |},
                  Zpos d - 53)).
  { unfold shr_fexp, Zdigits2. rewrite Hmz.
    replace (fexp prec emax (53 + (Zpos d - 53)) - (Zpos d - 53)) with 0
      by (unfold fexp, emin, prec, emax; lia).
    reflexivity. }
  rewrite Hs. cbn [shr_m loc_of_shr_record round_nearest_even].
  rewrite Hs. cbn [shr_m].
  assert (Hle : (Zpos d - 53 <=? emax - prec) = true)
    by (apply Z.leb_le; unfold emax, prec; lia).
  rewrite Hle.
  exists mz, (Zpos d - 53). split; [reflexivity|].
  split.
  { unfold SpecFloat.valid_binary, bounded, canonical_mantissa.
    rewrite Hle, Hmz, andb_true_r. apply Z.eqb_eq.
    unfold fexp, emin, prec, emax. lia. }
  split; [lia|]. split; [exact Hval|].
  pose proof (@digits2_bounds mz) as [Hlo _]. rewrite Hmz in Hlo. exact Hlo.
Qed.

(** [float(n)] does not raise for [0 <= n < 2^53]. *)
Lemma float_of_int_small (n : Z) :
  0 <= n < 2 ^ 53 -> float_of_int n = Ok (float_of_Z n).
Proof.
  intros [H0 Hn]. unfold float_of_int, float_of_Z.
  destruct n as [|p|p]; [reflexivity| |lia].
  destruct (SF_of_Z_small Hn) as (m & e & -> & _). reflexivity.
Qed.

(** [float(n)] is not zero for [1 <= n < 2^53]. *)
Lemma float_of_Z_nonzero (n : Z) :
  1 <= n < 2 ^ 53 -> PrimFloat.eqb (float_of_Z n) 0 = false.
Proof.
  intros [H1 Hn]. unfold float_of_Z.
  destruct n as [|p|p]; [lia| |lia].
  destruct (SF_of_Z_small Hn) as (m & e & -> & Hv & _).
  rewrite FloatAxioms.eqb_spec, (Prim2SF_SF2Prim _ Hv). reflexivity.
Qed.

Lemma Prim2SF_float_of_Z (n : Z) :
  0 <= n < 2 ^ 53 -> Prim2SF (float_of_Z n) = SF_of_Z n.
Proof.
  intros [H0 Hn]. unfold float_of_Z.
  destruct n as [|p|p]; [reflexivity| |lia].
  destruct (SF_of_Z_small Hn) as (m & e & -> & Hv & _).
  apply Prim2SF_SF2Prim. exact Hv.
Qed.

(** A finite float is a zero or has a mantissa and an exponent. *)
Lemma is_finite_cases (x : float) :
  is_finite x = true ->
  (exists s, Prim2SF x = S754_zero s)
  \/ (exists s m e, Prim2SF x = S754_finite s m e).
Proof.
  unfold is_finite. intros H.
  apply negb_true_iff, orb_false_iff in H. destruct H as [Hnan Hinf].
  unfold Prim2SF. rewrite Hnan, Hinf.
  destruct (is_zero x); [left; eauto|].
  destruct (Z.frexp x) as [r ex].
  destruct (shr_fexp prec emax _ _ _) as [sh e'].
  destruct (shr_m sh); [left|right|left]; eauto.
Qed.

Lemma SFleb_zero_finish (s : bool) (M E : Z) :
  SFleb (S754_zero s) (finish false M E) = true.
Proof.
  unfold finish. destruct M as [|m|m]; try reflexivity.
  destruct (Z.pos m =? 2 ^ 53).
  - destruct (E + 1 <=? 971); reflexivity.
  - destruct (E <=? 971); reflexivity.
Qed.

(** Multiplying by a positive float keeps the order of two positive
    floats with full mantissas. *)
Lemma SFmul_mono (ma mb ms : positive) (ea eb es : Z) :
  2 ^ 52 <= Zpos ma -> 2 ^ 52 <= Zpos mb ->
  -52 <= ea -> -52 <= eb ->
  Zpos ma * 2 ^ (ea + 52) <= Zpos mb * 2 ^ (eb + 52) ->
  SFleb (SFmul prec emax (S754_finite false ma ea) (S754_finite false ms es))
        (SFmul prec emax (S754_finite false mb eb) (S754_finite false ms es))
  = true.
Proof.
  intros Hma Hmb Hea Heb Hle. cbn [SFmul xorb].
  assert (Hdig : forall m : positive, 2 ^ 52 <= Zpos m ->
            forall F, F <= fexp prec emax (Zpos (digits2_pos (m * ms)) + F)).
  { intros m Hm F.
    assert (53 <= Zpos (digits2_pos (m * ms))).
    { apply (@digits2_ge (m * ms) 52). rewrite Pos2Z.inj_mul. nia. }
    rewrite fexp_eq. lia. }
  apply (@binary_round_aux_mono (ma * ms) (mb * ms) (ea + es) (eb + es) (es - 52)).
  - apply Hdig. exact Hma.
  - apply Hdig. exact Hmb.
  - lia.
  - lia.
  - replace (ea + es - (es - 52)) with (ea + 52) by lia.
    replace (eb + es - (es - 52)) with (eb + 52) by lia.
    rewrite !Pos2Z.inj_mul. nia.
Qed.

End IntToFloat.

Section Products.

(** For [0 <= i] and [i + 1 < 2^53] and a finite [step >= 0]:
    [i * step <= (i + 1) * step] in float arithmetic. *)
Lemma mul_float_of_Z_mono (i : Z) (step : float) :
  (0 <= i)%Z -> (i + 1 < 2 ^ 53)%Z ->
  is_finite step = true -> py_le 0 step = true ->
  py_le (float_of_Z i * step) (float_of_Z (i + 1) * step) = true.
Proof.
  intros Hi0 Hi1 Hfin Hpos.
  unfold py_le in *. rewrite leb_spec in *. rewrite !mul_spec.
  rewrite !Prim2SF_float_of_Z by lia.
  change (Prim2SF 0) with (S754_zero false) in Hpos.
  assert (Hb : exists mb eb,
             SF_of_Z (i + 1) = S754_finite false mb eb /\
             (-52 <= eb)%Z /\ (2 ^ 52 <= Zpos mb)%Z /\
             (Zpos mb * 2 ^ (eb + 52) = (i + 1) * 2 ^ 52)%Z).
  { destruct (i + 1)%Z as [|p|p] eqn:E; try lia.
    destruct (@SF_of_Z_small p ltac:(lia)) as (m & e & Hm & _ & He & Hval & Hlo).
    exists m, e. repeat split; try assumption; lia. }
  destruct Hb as (mb & eb & -> & Heb & Hmb & Hvb).
  destruct (is_finite_cases step Hfin) as [[s Hs]|(s & ms & es & Hs)];
    rewrite Hs in *.
  - destruct i as [|p|p]; [| |lia].
    + reflexivity.
    + destruct (@SF_of_Z_small p ltac:(lia)) as (m & e & -> & _).
      reflexivity.
  - destruct s; [discriminate Hpos|].
    destruct i as [|p|p]; [| |lia].
    + change (SF_of_Z 0) with (S754_zero false). cbn [SFmul SF64mul xorb].
      unfold SF64mul. cbn [SFmul xorb].
      assert (HF : (eb + es <= fexp prec emax (Zpos (digits2_pos (mb * ms)) + (eb + es)))%Z).
      { assert (53 <= Zpos (digits2_pos (mb * ms)))%Z.
        { apply (@digits2_ge (mb * ms) 52). rewrite Pos2Z.inj_mul. nia. }
        rewrite fexp_eq. lia. }
      destruct (@binary_round_aux_finish false (mb * ms) (eb + es) HF)
        as (M & _ & _ & _ & ->).
      apply SFleb_zero_finish.
    + destruct (@SF_of_Z_small p ltac:(lia)) as (m & e & -> & _ & He & Hval & Hlo).
      apply SFmul_mono; lia.
Qed.

Lemma iter_shr_1_nonneg (k : nat) (mrs : shr_record) :
  (0 <= shr_m mrs)%Z -> (0 <= shr_m (Nat.iter k shr_1 mrs))%Z.
Proof.
  intros H. induction k as [|k IH]; [exact H|].
  rewrite Nat.iter_succ. destruct (Nat.iter k shr_1 mrs) as [m r s].
  cbn [shr_m] in IH. rewrite (@shr_1_nonneg m r s IH). cbn [shr_m].
  apply Z.div_pos; lia.
Qed.

Lemma shr_fexp_nonneg (m e : Z) (l : location) :
  (0 <= m)%Z -> (0 <= shr_m (fst (shr_fexp prec emax m e l)))%Z.
Proof.
  intros H. unfold shr_fexp, shr.
  assert (H0 : (0 <= shr_m (shr_record_of_loc m l))%Z)
    by (destruct l as [|[]]; exact H).
  destruct (fexp prec emax (Zdigits2 m + e) - e)%Z; cbn [fst]; try exact H0.
  rewrite iter_pos_nat. apply iter_shr_1_nonneg. exact H0.
Qed.

Lemma round_nearest_even_nonneg (m : Z) (l : location) :
  (0 <= m)%Z -> (0 <= round_nearest_even m l)%Z.
Proof.
  intros H. destruct l as [|[]]; cbn [round_nearest_even]; try lia.
  destruct (Z.even m); lia.
Qed.

(** Rounding a mantissa that is not negative gives a zero, a finite float
    or an infinity of the given sign. *)
Lemma binary_round_aux_sign (s : bool) (m e : Z) (l : location) :
  (0 <= m)%Z ->
  binary_round_aux prec emax s m e l = S754_zero s
  \/ (exists m' e', binary_round_aux prec emax s m e l = S754_finite s m' e')
  \/ binary_round_aux prec emax s m e l = S754_infinity s.
Proof.
  intros H. unfold binary_round_aux.
  pose proof (@shr_fexp_nonneg m e l H) as H1.
  destruct (shr_fexp prec emax m e l) as [mrs' e']. cbn [fst] in H1.
  pose proof (@shr_fexp_nonneg _ e' loc_Exact
                (@round_nearest_even_nonneg _ (loc_of_shr_record mrs') H1)) as H2.
  destruct (shr_fexp prec emax _ e' loc_Exact) as [mrs'' e'']. cbn [fst] in H2.
  destruct (shr_m mrs'') as [|q|q]; [left; reflexivity| |lia].
  destruct (e'' <=? emax - prec)%Z; [right; left; eauto | right; right; reflexivity].
Qed.

(** A positive width over a count [1 <= N < 2^53], when finite, is not
    negative. *)
Lemma div_step_nonneg (W : float) (N : Z) :
  (1 <= N < 2 ^ 53)%Z ->
  py_lt 0 W = true ->
  is_finite (W / float_of_Z N) = true ->
  py_le 0 (W / float_of_Z N) = true.
Proof.
  intros HN HW Hfin.
  unfold py_le, py_lt in *. rewrite leb_spec. rewrite ltb_spec in HW.
  change (Prim2SF 0) with (S754_zero false) in *.
  pose proof (is_finite_cases _ Hfin) as Hcases.
  rewrite div_spec in *. rewrite Prim2SF_float_of_Z in * by lia.
  destruct N as [|p|p]; try lia.
  destruct (@SF_of_Z_small p ltac:(lia)) as (mn & en & Hn & _).
  rewrite Hn in *.
  destruct (Prim2SF W) as [sw|sw| |sw mw ew]; try discriminate HW.
  - (* an infinite width *)
    destruct sw; [discriminate HW|].
    cbn in Hcases. destruct Hcases as [[s Hs]|(s & m & e & Hs)]; discriminate.
  - destruct sw; [discriminate HW|].
    unfold SF64div, SFdiv. cbn [xorb].
    unfold SFdiv_core_binary.
    set (m' := match _ with Zpos _ => _ | Z0 => _ | Zneg _ => _ end).
    assert (Hm' : (0 <= m')%Z).
    { unfold m'. destruct (_ - _ - _)%Z; try lia.
      apply Z.shiftl_nonneg. lia. }
    pose proof (Z_div_mod m' (Zpos mn) ltac:(lia)) as Hdm.
    destruct (Z.div_eucl m' (Zpos mn)) as [q r].
    assert (Hq : (0 <= q)%Z) by nia.
    destruct (@binary_round_aux_sign false q
                (Z.min (fexp prec emax (Zdigits2 (Zpos mw) + ew - (Zdigits2 (Zpos mn) + en)))
                       (ew - en))
                (new_location (Zpos mn) r) Hq)
      as [E|[(a & b & E)|E]]; rewrite E; reflexivity.
Qed.

End Products.


(* ================================================================== *)
(** ** Equal columns *)

Section EqualColumns.

Lemma range_length (a b : Z) : List.length (range a b) = Z.to_nat (b - a).
Proof. unfold range. rewrite length_map, length_seq. reflexivity. Qed.

Lemma range_nth_error (a b : Z) (k : nat) :
  (k < Z.to_nat (b - a))%nat ->
  nth_error (range a b) k = Some (a + Z.of_nat k)%Z.
Proof.
  intros Hk. unfold range.
  rewrite nth_error_map.
  rewrite (nth_error_nth' (seq 0 (Z.to_nat (b - a))) 0%nat)
    by (rewrite length_seq; exact Hk).
  rewrite seq_nth by exact Hk. reflexivity.
Qed.

Lemma range_In (a b i : Z) : In i (range a b) -> (a <= i < b)%Z.
Proof.
  unfold range. rewrite in_map_iff. intros (k & <- & Hk).
  apply in_seq in Hk. lia.
Qed.

Lemma equal_columns_loop_small (step : float) (idxs : list Z) :
  Forall (fun i => 0 <= i /\ i + 1 < 2 ^ 53)%Z idxs ->
  equal_columns_loop step idxs = Ok (boxes_of_step step idxs).
Proof.
  induction 1 as [|i idxs [H0 H1] _ IH]; [reflexivity|].
  cbn [equal_columns_loop boxes_of_step map].
  rewrite (float_of_int_small (n := i)) by lia.
  rewrite (float_of_int_small (n := i + 1)) by lia.
  cbn [bind]. rewrite IH. reflexivity.
Qed.

(** Zero times a finite float is zero. *)
Lemma mul_zero_finite (x : float) :
  is_finite x = true -> PrimFloat.eqb (0 * x) 0 = true.
Proof.
  unfold is_finite. intros H.
  apply negb_true_iff, orb_false_iff in H. destruct H as [Hnan Hinf].
  rewrite FloatAxioms.eqb_spec, mul_spec.
  change (Prim2SF 0) with (S754_zero false).
  unfold Prim2SF. rewrite Hnan, Hinf.
  destruct (is_zero x); [reflexivity|].
  destruct (Z.frexp x) as [r ex].
  destruct (shr_fexp prec emax _ _ _) as [sh e'].
  destruct (shr_m sh); reflexivity.
Qed.

(** C6 (amended). For a count [1 <= N < 2^53], [equal_columns W N]
    returns exactly [N] boxes; the box at index [i] is
    [(i * step, (i + 1) * step)] with [step = W / N] in float arithmetic;
    the right edge of each box is the left edge of the next; when [step]
    is finite the first box starts at zero; and when moreover [W > 0] the
    boxes are in left-to-right order: the left edges ascend and no box ends
    before it starts. *)
Theorem equal_columns_boxes (W : float) (N : Z) :
  (1 <= N < 2 ^ 53)%Z ->
  exists cols,
    equal_columns W N = Ok cols
    /\ List.length cols = Z.to_nat N
    /\ (forall i, (0 <= i < N)%Z ->
          nth_error cols (Z.to_nat i)
          = Some (float_of_Z i * (W / float_of_Z N),
                  float_of_Z (i + 1) * (W / float_of_Z N))%float)
    /\ neighbours contiguous cols
    /\ (is_finite (W / float_of_Z N) = true ->
        exists b rest, cols = b :: rest /\ PrimFloat.eqb (fst b) 0 = true)
    /\ (py_lt 0 W = true -> is_finite (W / float_of_Z N) = true ->
        neighbours x0_le cols
        /\ Forall (fun b => py_le (fst b) (snd b) = true) cols).
Proof.
  intros HN.
  set (step := (W / float_of_Z N)%float).
  exists (boxes_of_step step (range 0 N)).
  assert (Hnth : forall k, (k < Z.to_nat N)%nat ->
            nth_error (boxes_of_step step (range 0 N)) k
            = Some (float_of_Z (Z.of_nat k) * step,
                    float_of_Z (Z.of_nat k + 1) * step)%float).
  { intros k Hk. unfold boxes_of_step.
    rewrite nth_error_map, range_nth_error by (rewrite Z.sub_0_r; exact Hk).
    reflexivity. }
  split; [|split; [|split; [|split; [|split]]]].
  - unfold equal_columns.
    rewrite (float_of_int_small (n := N)) by lia. cbn [bind].
    unfold py_div. rewrite float_of_Z_nonzero by exact HN. cbn [bind].
    apply equal_columns_loop_small.
    apply Forall_forall. intros i Hi. apply range_In in Hi. lia.
  - unfold boxes_of_step. rewrite length_map, range_length. f_equal. lia.
  - intros i Hi. rewrite Hnth by lia.
    rewrite Z2Nat.id by lia. reflexivity.
  - intros k a b [Ha Hb].
    assert (Hk : (S k < Z.to_nat N)%nat).
    { assert (Hs : nth_error (boxes_of_step step (range 0 N)) (S k) <> None)
        by congruence.
      apply nth_error_Some in Hs. unfold boxes_of_step in Hs.
      rewrite length_map, range_length in Hs. lia. }
    rewrite Hnth in Ha by lia. rewrite Hnth in Hb by lia.
    replace (Z.of_nat (S k)) with (Z.of_nat k + 1)%Z in Hb by lia.
    injection Ha as <-. injection Hb as <-.
    reflexivity.
  - intros Hfin.
    assert (H0 : (0 < Z.to_nat N)%nat) by lia.
    pose proof (Hnth 0%nat H0) as Hb.
    destruct (boxes_of_step step (range 0 N)) as [|b rest]; [discriminate|].
    exists b, rest. split; [reflexivity|].
    injection Hb as ->. cbn [fst].
    change (float_of_Z (Z.of_nat 0)) with 0%float.
    apply mul_zero_finite. exact Hfin.
  - intros HW Hfin.
    pose proof (div_step_nonneg HN HW Hfin) as Hpos. fold step in Hpos, Hfin.
    assert (Hlen : List.length (boxes_of_step step (range 0 N)) = Z.to_nat N).
    { unfold boxes_of_step. rewrite length_map, range_length. f_equal. lia. }
    split.
    + intros k a b [Ha Hb].
      assert (Hk : (S k < Z.to_nat N)%nat).
      { assert (Hs : nth_error (boxes_of_step step (range 0 N)) (S k) <> None)
          by congruence.
        apply nth_error_Some in Hs. lia. }
      rewrite Hnth in Ha by lia. rewrite Hnth in Hb by lia.
      replace (Z.of_nat (S k)) with (Z.of_nat k + 1)%Z in Hb by lia.
      injection Ha as <-. injection Hb as <-.
      unfold x0_le. cbn [fst].
      apply mul_float_of_Z_mono; [lia | lia | exact Hfin | exact Hpos].
    + apply Forall_forall. intros b Hb.
      apply In_nth_error in Hb. destruct Hb as [k Hk].
      assert (Hlt : (k < Z.to_nat N)%nat).
      { rewrite <- Hlen. apply nth_error_Some. unfold box in *.
        rewrite Hk. discriminate. }
      rewrite Hnth in Hk by exact Hlt. injection Hk as <-. cbn [fst snd].
      apply mul_float_of_Z_mono; [lia | lia | exact Hfin | exact Hpos].
Qed.

End EqualColumns.

(* ================================================================== *)
(** ** The order of floats *)

Section FloatTotal.

Lemma SFltb_rank (x y : spec_float) :
  x <> S754_nan -> y <> S754_nan ->
  (SFltb x y = true <-> rank_lt (rank x) (rank y)).
Proof.
  intros Hx Hy. unfold SFltb, rank_lt.
  destruct x as [sx|sx| |sx mx ex], y as [sy|sy| |sy my ey];
    try congruence; simpl;
    try (destruct sx; simpl; split; (discriminate || lia || reflexivity));
    try (destruct sy; simpl; split; (discriminate || lia || reflexivity));
    try (destruct sx, sy; simpl; split; (discriminate || lia || reflexivity)).
  change (Pos.compare_cont Eq mx my) with (Pos.compare mx my).
  destruct sx, sy; simpl; try (split; (discriminate || lia || reflexivity)).
  - destruct (Z.compare_spec ex ey); simpl;
      try (split; (discriminate || lia || reflexivity)).
    destruct (Pos.compare_spec mx my); simpl;
      split; (discriminate || lia || reflexivity).
  - destruct (Z.compare_spec ex ey); simpl;
      try (split; (discriminate || lia || reflexivity)).
    destruct (Pos.compare_spec mx my); simpl;
      split; (discriminate || lia || reflexivity).
Qed.


Lemma py_lt_spec (a b : float) :
  py_lt a b = true <->
  is_nan a = false /\ is_nan b = false /\ rank_lt (rk a) (rk b).
Proof.
  unfold py_lt, rk. rewrite ltb_spec, !is_nan_spec. split.
  - intros H.
    assert (Ha : Prim2SF a <> S754_nan).
    { intros E. rewrite E in H. discriminate. }
    assert (Hb : Prim2SF b <> S754_nan).
    { intros E. rewrite E in H. destruct (Prim2SF a); discriminate. }
    repeat split; try assumption. apply SFltb_rank; assumption.
  - intros (Ha & Hb & H). apply SFltb_rank; assumption.
Qed.

Lemma py_le_spec (a b : float) :
  py_le a b = true <->
  is_nan a = false /\ is_nan b = false /\ ~ rank_lt (rk b) (rk a).
Proof.
  split.
  - intros H.
    assert (Ha : is_nan a = false).
    { apply is_nan_spec. intros E. unfold py_le in H.
      rewrite leb_spec, E in H. discriminate. }
    assert (Hb : is_nan b = false).
    { apply is_nan_spec. intros E. unfold py_le in H.
      rewrite leb_spec, E in H. destruct (Prim2SF a); discriminate. }
    repeat split; try assumption.
    intros Hlt. apply py_le_not_gt in H.
    assert (py_lt b a = true) by (apply py_lt_spec; auto). congruence.
  - intros (Ha & Hb & H). apply py_not_lt_ge; try assumption.
    destruct (py_lt b a) eqn:E; [|reflexivity].
    apply py_lt_spec in E. tauto.
Qed.

Lemma py_lt_false (a b : float) :
  is_nan a = false -> is_nan b = false ->
  (py_lt a b = false <-> ~ rank_lt (rk a) (rk b)).
Proof.
  intros Ha Hb. split.
  - intros H Hlt. assert (py_lt a b = true) by (apply py_lt_spec; auto).
    congruence.
  - intros H. destruct (py_lt a b) eqn:E; [|reflexivity].
    apply py_lt_spec in E. tauto.
Qed.

Lemma py_lt_trans (a b c : float) :
  py_lt a b = true -> py_lt b c = true -> py_lt a c = true.
Proof.
  rewrite !py_lt_spec. unfold rank_lt.
  intros (? & ? & ?) (? & ? & ?). repeat split; try assumption. lia.
Qed.

Lemma py_le_trans (a b c : float) :
  py_le a b = true -> py_le b c = true -> py_le a c = true.
Proof.
  rewrite !py_le_spec. unfold rank_lt.
  intros (? & ? & ?) (? & ? & ?). repeat split; try assumption. lia.
Qed.

Lemma py_lt_le_trans (a b c : float) :
  py_lt a b = true -> py_le b c = true -> py_lt a c = true.
Proof.
  rewrite !py_lt_spec, py_le_spec. unfold rank_lt.
  intros (? & ? & ?) (? & ? & ?). repeat split; try assumption. lia.
Qed.

Lemma py_le_lt_trans (a b c : float) :
  py_le a b = true -> py_lt b c = true -> py_lt a c = true.
Proof.
  rewrite !py_lt_spec, py_le_spec. unfold rank_lt.
  intros (? & ? & ?) (? & ? & ?). repeat split; try assumption. lia.
Qed.

End FloatTotal.

(* ================================================================== *)
(** ** clean_lines: the form of the result *)

Section CleanForm.

Lemma drop_blank_head (ls : list str) : head_not_blank (drop_blank ls).
Proof.
  induction ls as [|l r IH]; simpl; [exact I|].
  destruct (is_blank l) eqn:E; [exact IH | exact E].
Qed.

Lemma drop_blank_fixed (ls : list str) : head_not_blank ls -> drop_blank ls = ls.
Proof.
  destruct ls as [|l r]; simpl; [reflexivity|]. intros ->. reflexivity.
Qed.

Lemma drop_blank_fixed_head (ls : list str) : drop_blank ls = ls -> head_not_blank ls.
Proof. intros <-. apply drop_blank_head. Qed.

Lemma drop_blank_end_idem (ls : list str) :
  drop_blank_end (drop_blank_end ls) = drop_blank_end ls.
Proof.
  induction ls as [|l r IH]; [reflexivity|].
  cbn [drop_blank_end].
  destruct (drop_blank_end r) as [|x r'] eqn:E.
  - destruct (is_blank l) eqn:El; [reflexivity|].
    simpl. rewrite El. reflexivity.
  - cbn [drop_blank_end]. cbn [drop_blank_end] in IH. rewrite IH. reflexivity.
Qed.

(** A first line with content stays the first line. *)
Lemma drop_blank_end_first (l : str) (r : list str) :
  is_blank l = false -> exists r', drop_blank_end (l :: r) = l :: r'.
Proof.
  intros E. cbn [drop_blank_end]. destruct (drop_blank_end r).
  - rewrite E. eauto.
  - eauto.
Qed.

Lemma clean_loop_fixed (ls : list str) (b : bool) :
  Sorted no_blank_after_blank ls -> (b = true -> head_not_blank ls) ->
  clean_loop ls b = ls.
Proof.
  intros Hs. revert b. induction Hs as [|l r Hs IH Hh]; intros b Hb.
  - reflexivity.
  - cbn [clean_loop].
    assert (Hnot : is_blank l && b = false).
    { destruct b; [|apply andb_false_r].
      simpl in Hb. rewrite (Hb eq_refl). reflexivity. }
    rewrite Hnot. f_equal. apply IH.
    intros Hl. destruct r as [|l2 r2]; [exact I|].
    inversion Hh; subst. simpl. auto.
Qed.

Lemma lstrip_idem (s : str) : lstrip (lstrip s) = lstrip s.
Proof.
  induction s as [|c s IH]; [reflexivity|].
  cbn [lstrip]. destruct (is_space c) eqn:E; [exact IH|].
  cbn [lstrip]. rewrite E. reflexivity.
Qed.

Lemma map_rstrip_fixed (ls : list str) :
  Forall rstripped ls -> map rstrip ls = ls.
Proof.
  induction 1 as [|l r Hl _ IH]; [reflexivity|].
  cbn [map]. rewrite Hl, IH. reflexivity.
Qed.

(** The text [clean_lines] returns, line by line. *)
Lemma clean_lines_join (text : str) :
  clean_lines text = join [newline] (kept_lines text).
Proof.
  unfold clean_lines, kept_lines.
  destruct text as [|c text]; [reflexivity|]. cbn [is_empty].
  set (out := clean_loop (map rstrip (splitlines (c :: text))) false).
  assert (Hr : Forall rstripped out).
  { apply clean_loop_Forall, Forall_map, Forall_forall.
    intros l _. apply rstrip_idem. }
  assert (Hr' : Forall rstripped (lstrip_first (drop_blank out))).
  { apply (drop_blank_Forall (P := rstripped)) in Hr.
    destruct (drop_blank out); [constructor|].
    inversion Hr; subst. constructor; [|assumption].
    apply rstrip_fixed_lstrip. assumption. }
  unfold strip. rewrite lstrip_join, (rstrip_join Hr'). reflexivity.
Qed.

Lemma kept_lines_clean_form (text : str) : clean_form (kept_lines text).
Proof.
  unfold kept_lines.
  set (out := clean_loop (map rstrip (splitlines text)) false).
  assert (Hr : Forall rstripped out).
  { apply clean_loop_Forall, Forall_map, Forall_forall.
    intros l _. apply rstrip_idem. }
  assert (Hn : Forall no_linebreak out).
  { apply clean_loop_Forall, Forall_map.
    eapply Forall_impl; [|apply splitlines_no_linebreak].
    intros l Hl. apply rstrip_Forall. exact Hl. }
  assert (Hr' : Forall rstripped (lstrip_first (drop_blank out))).
  { apply (drop_blank_Forall (P := rstripped)) in Hr.
    destruct (drop_blank out); [constructor|].
    inversion Hr; subst. constructor; [|assumption].
    apply rstrip_fixed_lstrip. assumption. }
  assert (Hn' : Forall no_linebreak (lstrip_first (drop_blank out))).
  { apply (drop_blank_Forall (P := no_linebreak)) in Hn.
    destruct (drop_blank out); [constructor|].
    inversion Hn; subst. constructor; [|assumption].
    apply lstrip_Forall. assumption. }
  assert (Hhead : forall l r, lstrip_first (drop_blank out) = l :: r ->
                   is_blank l = false /\ lstrip l = l).
  { intros l r E. pose proof (drop_blank_head out) as Hh.
    destruct (drop_blank out) as [|l0 r0]; [discriminate|].
    simpl in E. injection E as <- <-. simpl in Hh.
    rewrite is_blank_lstrip, lstrip_idem. auto. }
  repeat split.
  - apply drop_blank_end_Forall. exact Hn'.
  - apply drop_blank_end_Forall. exact Hr'.
  - apply drop_blank_end_sorted, lstrip_first_sorted, drop_blank_sorted.
    apply clean_loop_sorted.
  - destruct (lstrip_first (drop_blank out)) as [|l r] eqn:E; [reflexivity|].
    destruct (Hhead l r eq_refl) as [Hb _].
    destruct (@drop_blank_end_first l r Hb) as [r' ->].
    simpl. rewrite Hb. reflexivity.
  - destruct (lstrip_first (drop_blank out)) as [|l r] eqn:E; [reflexivity|].
    destruct (Hhead l r eq_refl) as [Hb Hl].
    destruct (@drop_blank_end_first l r Hb) as [r' ->].
    simpl. rewrite Hl. reflexivity.
  - apply drop_blank_end_idem.
Qed.

Lemma strip_join_clean_form (K : list str) :
  clean_form K -> strip (join [newline] K) = join [newline] K.
Proof.
  intros (Hn & Hr & Hs & Hd & Hl & He).
  unfold strip. rewrite lstrip_join, Hd, Hl, (rstrip_join Hr), He. reflexivity.
Qed.

(** Text in clean form is left as it is. *)
Lemma clean_form_fixed (K : list str) :
  clean_form K -> clean_lines (join [newline] K) = join [newline] K.
Proof.
  intros HK. pose proof HK as (Hn & Hr & Hs & Hd & Hl & He).
  unfold clean_lines.
  destruct (is_empty (join [newline] K)) eqn:E.
  - destruct (join [newline] K); [reflexivity | discriminate].
  - assert (Hsl : splitlines (join [newline] K) = K).
    { rewrite <- He at 1. rewrite (splitlines_join Hn). exact He. }
    rewrite Hsl, (map_rstrip_fixed Hr).
    rewrite (clean_loop_fixed Hs) by discriminate.
    apply strip_join_clean_form. exact HK.
Qed.

Lemma forallb_space_splitlines_upto (n : nat) (s : str) :
  (List.length s <= n)%nat ->
  forallb (forallb is_space) (splitlines s) = forallb is_space s.
Proof.
  revert s. induction n as [|n IH]; intros s Hs.
  - destruct s; [reflexivity | simpl in Hs; lia].
  - destruct s as [|c s']; [reflexivity|].
    simpl in Hs. cbn [splitlines].
    destruct (is_linebreak c) eqn:E.
    + cbn [forallb]. rewrite (linebreak_is_space c E). cbn [andb].
      destruct s' as [|d s'']; [reflexivity|].
      destruct ((c =? cr)%N && (d =? newline)%N) eqn:Ecr.
      * apply andb_true_iff in Ecr. destruct Ecr as [_ Hd].
        apply N.eqb_eq in Hd. subst d.
        rewrite IH by (simpl in *; lia). reflexivity.
      * apply IH. simpl in *. lia.
    + assert (H : forallb (forallb is_space) (splitlines s')
                  = forallb is_space s') by (apply IH; lia).
      destruct (splitlines s') as [|l ls]; cbn [forallb] in *.
      * rewrite <- H. rewrite !andb_true_r. reflexivity.
      * rewrite <- H. rewrite andb_assoc. reflexivity.
Qed.

(** A text is whitespace when all its lines are. *)
Lemma forallb_space_splitlines (s : str) :
  forallb (forallb is_space) (splitlines s) = forallb is_space s.
Proof. apply (forallb_space_splitlines_upto (n := List.length s)). lia. Qed.

Lemma count_nonblank_zero (ls : list str) :
  count_nonblank ls = 0%nat <-> forallb (forallb is_space) ls = true.
Proof.
  induction ls as [|l r IH]; [simpl; tauto|].
  rewrite count_nonblank_cons. cbn [forallb].
  rewrite <- is_blank_spec. destruct (is_blank l); simpl.
  - exact IH.
  - split; [lia | discriminate].
Qed.

Lemma clean_form_count_zero (K : list str) :
  clean_form K -> count_nonblank K = 0%nat -> K = [].
Proof.
  intros (_ & _ & _ & Hd & _) H0.
  apply drop_blank_fixed_head in Hd.
  destruct K as [|l r]; [reflexivity|].
  simpl in Hd. rewrite count_nonblank_cons, Hd in H0. discriminate.
Qed.

Lemma join_nil_clean_form (K : list str) :
  clean_form K -> join [newline] K = [] -> K = [].
Proof.
  intros (_ & _ & _ & Hd & _) Hj.
  apply drop_blank_fixed_head in Hd.
  destruct K as [|l r]; [reflexivity|].
  rewrite join_cons in Hj. apply app_eq_nil in Hj. destruct Hj as [-> _].
  simpl in Hd. discriminate.
Qed.

Lemma kept_lines_count (text : str) :
  count_nonblank (kept_lines text) = count_nonblank (splitlines text).
Proof.
  unfold kept_lines.
  rewrite drop_blank_end_count, lstrip_first_count, drop_blank_count,
    clean_loop_count, map_rstrip_count.
  reflexivity.
Qed.

Lemma strip_idem (s : str) : strip (strip s) = strip s.
Proof.
  unfold strip.
  assert (H : lstrip (rstrip (lstrip s)) = rstrip (lstrip s)).
  { destruct (lstrip s) as [|c r] eqn:E; [reflexivity|].
    pose proof (lstrip_head _ E) as Hc.
    cbn [rstrip]. destruct (rstrip r).
    - rewrite Hc. simpl. rewrite Hc. reflexivity.
    - simpl. rewrite Hc. reflexivity. }
  rewrite H. apply rstrip_idem.
Qed.

Lemma only_newlines_join (K : list str) :
  Forall no_linebreak K -> only_newlines (join [newline] K).
Proof.
  unfold only_newlines.
  induction 1 as [|l r Hl _ IH]; [constructor|].
  rewrite join_cons. apply Forall_app. split.
  - eapply Forall_impl; [|exact Hl]. simpl. intros c Hc E. congruence.
  - destruct r; [constructor|].
    apply Forall_app. split; [|exact IH].
    repeat constructor.
Qed.

(** What holds of a text in clean form. *)
Lemma clean_text_facts (t : str) :
  clean_text t ->
  clean_lines t = t /\ strip t = t /\ only_newlines t
  /\ Forall rstripped (splitlines t)
  /\ neighbours no_blank_after_blank (splitlines t).
Proof.
  intros (K & HK & ->). pose proof HK as (Hn & Hr & Hs & Hd & Hl & He).
  assert (Hsl : splitlines (join [newline] K) = K).
  { rewrite <- He at 1. rewrite (splitlines_join Hn). exact He. }
  rewrite Hsl. repeat split.
  - apply clean_form_fixed. exact HK.
  - apply strip_join_clean_form. exact HK.
  - apply only_newlines_join. exact Hn.
  - exact Hr.
  - apply Sorted_neighbours. exact Hs.
Qed.

Lemma clean_lines_clean_text (text : str) : clean_text (clean_lines text).
Proof.
  exists (kept_lines text). split.
  - apply kept_lines_clean_form.
  - apply clean_lines_join.
Qed.

Lemma drop_blank_end_fixed_tail (l l2 : str) (r : list str) :
  drop_blank_end (l :: l2 :: r) = l :: l2 :: r ->
  drop_blank_end (l2 :: r) = l2 :: r.
Proof.
  change (drop_blank_end (l :: l2 :: r))
    with (match drop_blank_end (l2 :: r) with
          | [] => if is_blank l then [] else [l]
          | r' => l :: r'
          end).
  destruct (drop_blank_end (l2 :: r)) as [|x r'].
  - destruct (is_blank l); discriminate.
  - intros H. injection H as <- <-. reflexivity.
Qed.

Lemma drop_blank_end_app_fixed (A B : list str) :
  drop_blank_end B = B -> B <> [] -> drop_blank_end (A ++ B) = A ++ B.
Proof.
  intros HB Hne. induction A as [|a A IH]; [exact HB|].
  change ((a :: A) ++ B) with (a :: (A ++ B)).
  cbn [drop_blank_end]. rewrite IH.
  destruct (A ++ B) eqn:E; [|reflexivity].
  apply app_eq_nil in E. destruct E as [_ E]. contradiction.
Qed.

Lemma sorted_app_blank (K1 K2 : list str) :
  Sorted no_blank_after_blank K1 -> drop_blank_end K1 = K1 -> K1 <> [] ->
  Sorted no_blank_after_blank K2 -> head_not_blank K2 ->
  Sorted no_blank_after_blank (K1 ++ [] :: K2).
Proof.
  intros Hs1 He1 Hne1 Hs2 Hh2.
  assert (Hmid : Sorted no_blank_after_blank ([] :: K2)).
  { constructor; [exact Hs2|].
    destruct K2 as [|h r]; constructor. intros _. exact Hh2. }
  induction K1 as [|l [|l2 r] IH]; [contradiction| |].
  - simpl. constructor; [exact Hmid|]. constructor.
    simpl in He1. destruct (is_blank l) eqn:E; [discriminate|].
    unfold no_blank_after_blank. congruence.
  - inversion Hs1 as [|? ? Hs1' Hh1]; subst.
    change ((l :: l2 :: r) ++ [] :: K2) with (l :: (l2 :: r) ++ [] :: K2).
    constructor.
    + apply IH; [exact Hs1' | | discriminate].
      apply (drop_blank_end_fixed_tail He1).
    + inversion Hh1; subst. constructor. assumption.
Qed.

(** Two texts in clean form with a blank line between them are in clean
    form. *)
Lemma clean_form_app (K1 K2 : list str) :
  clean_form K1 -> clean_form K2 -> K1 <> [] -> K2 <> [] ->
  clean_form (K1 ++ [] :: K2).
Proof.
  intros (Hn1 & Hr1 & Hs1 & Hd1 & Hl1 & He1)
         (Hn2 & Hr2 & Hs2 & Hd2 & Hl2 & He2) Hne1 Hne2.
  repeat split.
  - apply Forall_app. split; [exact Hn1|]. constructor; [constructor | exact Hn2].
  - apply Forall_app. split; [exact Hr1|]. constructor; [reflexivity | exact Hr2].
  - apply sorted_app_blank; try assumption.
    apply drop_blank_fixed_head. exact Hd2.
  - apply drop_blank_fixed_head in Hd1.
    destruct K1 as [|l r]; [contradiction|]. simpl in *. rewrite Hd1. reflexivity.
  - destruct K1 as [|l r]; [contradiction|]. simpl in *.
    injection Hl1 as Hl1. rewrite Hl1. reflexivity.
  - apply drop_blank_end_app_fixed; [|discriminate].
    cbn [drop_blank_end]. rewrite He2.
    destruct K2; [contradiction | reflexivity].
Qed.

Lemma join_app_blank (K1 K2 : list str) :
  K1 <> [] -> K2 <> [] ->
  join [newline] (K1 ++ [] :: K2)
  = join [newline] K1 ++ [newline; newline] ++ join [newline] K2.
Proof.
  intros Hne1 Hne2. induction K1 as [|l [|l2 r] IH]; [contradiction| |].
  - destruct K2 as [|h t]; [contradiction|].
    change ([l] ++ [] :: h :: t) with (l :: [] :: h :: t).
    rewrite !join_cons. simpl. rewrite app_nil_r. reflexivity.
  - change ((l :: l2 :: r) ++ [] :: K2) with (l :: ((l2 :: r) ++ [] :: K2)).
    rewrite (join_cons [newline] l ((l2 :: r) ++ [] :: K2)).
    rewrite IH by discriminate.
    rewrite (join_cons [newline] l (l2 :: r)).
    simpl. rewrite <- !app_assoc. reflexivity.
Qed.

(** Non-empty texts in clean form, joined by a blank line, are in clean
    form. *)
Lemma clean_text_join (ts : list str) :
  Forall (fun t => clean_text t /\ t <> []) ts ->
  clean_text (join [newline; newline] ts).
Proof.
  induction 1 as [|t r [(K & HK & Ht) Hne] Hr IH].
  - exists []. split; [|reflexivity].
    repeat split; constructor.
  - destruct r as [|t2 r2].
    + simpl. exists K. auto.
    + destruct IH as (K2 & HK2 & Hj).
      inversion Hr as [|? ? [_ Hne2] _]; subst.
      assert (HK1 : K <> []) by (intros ->; apply Hne; reflexivity).
      assert (HK2' : K2 <> []).
      { intros ->. rewrite join_cons in Hj.
        apply app_eq_nil in Hj. destruct Hj as [Hj _]. contradiction. }
      exists (K ++ [] :: K2). split; [apply clean_form_app; assumption|].
      rewrite join_app_blank by assumption.
      rewrite (join_cons [newline; newline]), Hj. reflexivity.
Qed.

(** X1. [clean_lines] is idempotent: cleaning a cleaned text changes
    nothing. *)
Theorem clean_lines_idempotent (text : str) :
  clean_lines (clean_lines text) = clean_lines text.
Proof.
  rewrite (clean_lines_join text). apply clean_form_fixed, kept_lines_clean_form.
Qed.

(** X2. [clean_lines] returns the empty string exactly for the texts
    that hold nothing but whitespace (the empty text among them). *)
Theorem clean_lines_empty_iff_whitespace (text : str) :
  clean_lines text = [] <-> forallb is_space text = true.
Proof.
  rewrite clean_lines_join, <- forallb_space_splitlines, <- count_nonblank_zero,
    <- kept_lines_count.
  pose proof (kept_lines_clean_form text) as HK.
  split.
  - intros Hj. rewrite (join_nil_clean_form HK Hj). reflexivity.
  - intros H0. rewrite (clean_form_count_zero HK H0). reflexivity.
Qed.

(** X3. The text [clean_lines] returns has no whitespace at its start or
    end, no line break but ["\n"], and no line with trailing whitespace. *)
Theorem clean_lines_normal_form (text : str) :
  strip (clean_lines text) = clean_lines text
  /\ only_newlines (clean_lines text)
  /\ Forall rstripped (splitlines (clean_lines text)).
Proof.
  destruct (clean_text_facts (clean_lines_clean_text text))
    as (_ & Hs & Hn & Hr & _).
  auto.
Qed.

End CleanForm.

(* ================================================================== *)
(** ** clean_lines: which lines are kept *)

Section KeptLines.

Lemma lstrip_nonspace (c : char) (r : str) :
  is_space c = false -> lstrip (c :: r) = c :: r.
Proof. intros E. simpl. rewrite E. reflexivity. Qed.

Lemma lstrip_rstrip (s : str) : lstrip (rstrip s) = rstrip (lstrip s).
Proof.
  induction s as [|c s IH]; [reflexivity|].
  destruct (is_space c) eqn:E.
  - change (lstrip (c :: s)) with (if is_space c then lstrip s else c :: s).
    rewrite E, <- IH.
    change (rstrip (c :: s))
      with (match rstrip s with
            | [] => if is_space c then [] else [c]
            | r => c :: r
            end).
    destruct (rstrip s) as [|x r]; rewrite ?E; [reflexivity|].
    change (lstrip (c :: x :: r)) with (if is_space c then lstrip (x :: r) else c :: x :: r).
    rewrite E. reflexivity.
  - rewrite (@lstrip_nonspace c s E).
    change (rstrip (c :: s))
      with (match rstrip s with
            | [] => if is_space c then [] else [c]
            | r => c :: r
            end).
    destruct (rstrip s) as [|x r]; rewrite ?E; apply lstrip_nonspace; exact E.
Qed.

Lemma drop_blank_end_content (l : str) (ls : list str) :
  is_blank l = false -> drop_blank_end (l :: ls) = l :: drop_blank_end ls.
Proof.
  intros E. cbn [drop_blank_end]. destruct (drop_blank_end ls); [|reflexivity].
  rewrite E. reflexivity.
Qed.

Lemma rstrip_blank (l : str) : forallb is_space l = true -> rstrip l = [].
Proof. apply rstrip_nil_iff. Qed.

Lemma rstrip_content (l : str) :
  forallb is_space l = false -> is_blank (rstrip l) = false.
Proof. intros E. rewrite is_blank_rstrip, is_blank_spec. exact E. Qed.

(** Once a line with content has been kept: what the loop keeps of the
    rest, less the blank lines at its end. *)
Lemma clean_loop_squeezed (ls : list str) :
  drop_blank_end (clean_loop (map rstrip ls) false) = squeezed ls true false
  /\ drop_blank_end ([] :: clean_loop (map rstrip ls) true)
     = squeezed ls true true.
Proof.
  induction ls as [|l r [IH1 IH2]]; [split; reflexivity|].
  cbn [map clean_loop squeezed].
  destruct (forallb is_space l) eqn:E.
  - rewrite (rstrip_blank l E).
    replace (is_blank []) with true by reflexivity. cbn [andb].
    split; exact IH2.
  - pose proof (rstrip_content l E) as Hc. rewrite Hc. cbn [andb].
    split.
    + rewrite drop_blank_end_content by exact Hc. rewrite IH1. reflexivity.
    + change (drop_blank_end ([] :: rstrip l :: clean_loop (map rstrip r) false))
        with (match drop_blank_end (rstrip l :: clean_loop (map rstrip r) false) with
              | [] => if is_blank [] then [] else [[]]
              | r' => [] :: r'
              end).
      rewrite drop_blank_end_content by exact Hc. rewrite IH1. reflexivity.
Qed.

Lemma clean_loop_squeezed_start (ls : list str) (b : bool) :
  drop_blank_end (lstrip_first (drop_blank (clean_loop (map rstrip ls) b)))
  = squeezed ls false false.
Proof.
  revert b. induction ls as [|l r IH]; intros b; [reflexivity|].
  cbn [map clean_loop squeezed].
  destruct (forallb is_space l) eqn:E.
  - rewrite (rstrip_blank l E).
    replace (is_blank []) with true by reflexivity.
    destruct b; cbn [andb]; [apply IH|].
    cbn [drop_blank]. replace (is_blank []) with true by reflexivity.
    apply IH.
  - pose proof (rstrip_content l E) as Hc. rewrite Hc. cbn [andb].
    cbn [drop_blank]. rewrite Hc. cbn [lstrip_first].
    rewrite drop_blank_end_content by (rewrite is_blank_lstrip; exact Hc).
    rewrite (proj1 (clean_loop_squeezed r)).
    unfold strip. rewrite lstrip_rstrip. reflexivity.
Qed.

(** The lines [clean_lines] keeps are the lines of the amended claim. *)
Lemma kept_lines_squeezed (text : str) :
  kept_lines text = squeezed (splitlines text) false false.
Proof. unfold kept_lines. apply clean_loop_squeezed_start. Qed.

Lemma count_blank_cons (l : str) (ls : list str) :
  count_blank (l :: ls) = ((if is_blank l then 1 else 0) + count_blank ls)%nat.
Proof. unfold count_blank. simpl. destruct (is_blank l); reflexivity. Qed.

Lemma is_blank_strip (l : str) : is_blank (strip l) = is_blank l.
Proof. unfold strip. rewrite is_blank_rstrip, is_blank_lstrip. reflexivity. Qed.

(** Counting the empty lines of [squeezed]: one for each run of blank
    lines that a line with content follows. *)
Lemma count_blank_squeezed (ls : list str) :
  count_blank (squeezed ls true false) = blank_runs false (drop_blank_end ls)
  /\ count_blank (squeezed ls true true)
     = (blank_runs true (drop_blank_end ls)
        + match drop_blank_end ls with [] => 0 | _ :: _ => 1 end)%nat.
Proof.
  induction ls as [|l r [IH1 IH2]]; [split; reflexivity|].
  cbn [squeezed].
  destruct (forallb is_space l) eqn:E.
  - assert (Hb : is_blank l = true) by (rewrite is_blank_spec; exact E).
    cbn [drop_blank_end]. rewrite IH2.
    destruct (drop_blank_end r) as [|x r'].
    + rewrite Hb. split; reflexivity.
    + cbn [blank_runs]. rewrite Hb. split; lia.
  - assert (Hb : is_blank l = false) by (rewrite is_blank_spec; exact E).
    rewrite drop_blank_end_content by exact Hb.
    cbn [blank_runs]. rewrite Hb.
    split.
    + cbn [app]. rewrite count_blank_cons, is_blank_rstrip, Hb, IH1. reflexivity.
    + cbn [app]. rewrite !count_blank_cons, is_blank_rstrip, Hb, IH1.
      replace (is_blank []) with true by reflexivity. lia.
Qed.

Lemma count_blank_squeezed_start (ls : list str) :
  count_blank (squeezed ls false false)
  = blank_runs false (drop_blank_end (drop_blank ls)).
Proof.
  induction ls as [|l r IH]; [reflexivity|].
  cbn [squeezed drop_blank].
  destruct (forallb is_space l) eqn:E.
  - assert (Hb : is_blank l = true) by (rewrite is_blank_spec; exact E).
    rewrite Hb. exact IH.
  - assert (Hb : is_blank l = false) by (rewrite is_blank_spec; exact E).
    rewrite Hb. rewrite drop_blank_end_content by exact Hb.
    cbn [app blank_runs]. rewrite Hb.
    rewrite count_blank_cons, is_blank_strip, Hb.
    rewrite (proj1 (count_blank_squeezed r)). reflexivity.
Qed.
(** C5 (amended). The text [clean_lines] returns is made of these lines,
    joined by ["\n"]: the lines of the text with content, in their order,
    right-stripped (the first of them stripped on both sides), with one
    empty line between two of them exactly when at least one blank line
    lies between them in the text, and with no line before the first or
    after the last of them. So of each run of blank lines between two
    lines with content exactly one line is kept, and none of the runs at
    either end: the result has as many blank lines as the text has runs of
    blank lines once the blank lines at its ends are taken off. No two
    consecutive lines of the result are both blank, and the result has as
    many lines with content as the text. *)
Theorem clean_lines_blank_lines (text : str) :
  clean_lines text = join [newline] (squeezed (splitlines text) false false)
  /\ splitlines (clean_lines text) = squeezed (splitlines text) false false
  /\ count_blank (splitlines (clean_lines text))
     = blank_runs false (drop_blank_end (drop_blank (splitlines text)))
  /\ neighbours no_blank_after_blank (splitlines (clean_lines text))
  /\ count_nonblank (splitlines (clean_lines text))
     = count_nonblank (splitlines text).
Proof.
  rewrite clean_lines_lines.
  split; [rewrite clean_lines_join, kept_lines_squeezed; reflexivity|].
  split; [apply kept_lines_squeezed|].
  split; [rewrite kept_lines_squeezed; apply count_blank_squeezed_start|].
  split.
  - apply Sorted_neighbours. unfold kept_lines.
    apply drop_blank_end_sorted, lstrip_first_sorted, drop_blank_sorted.
    apply clean_loop_sorted.
  - apply kept_lines_count.
Qed.

End KeptLines.

(* ================================================================== *)
(** ** Column specifications: tokens and errors *)

Section StripFacts.

(** Whitespace around a string does not change what [strip] returns. *)
Lemma strip_outer_whitespace (a tok b : str) :
  forallb is_space a = true -> forallb is_space b = true ->
  strip (a ++ tok ++ b) = strip tok.
Proof.
  intros Ha Hb. unfold strip.
  rewrite <- is_blank_spec in Ha.
  rewrite (@lstrip_app_blank a (tok ++ b) Ha).
  destruct (is_blank tok) eqn:E.
  - rewrite (@lstrip_app_blank tok b E).
    apply lstrip_nil_iff in Hb. rewrite Hb.
    rewrite is_blank_spec in E. apply lstrip_nil_iff in E. rewrite E.
    reflexivity.
  - rewrite (@lstrip_app_nonblank tok b E), rstrip_app.
    apply rstrip_nil_iff in Hb. rewrite Hb. reflexivity.
Qed.

Lemma split1_first (sep : char) (a b : str) :
  contains sep a = false -> split1 sep (a ++ sep :: b) = [a; b].
Proof.
  induction a as [|c a IH]; simpl.
  - intros _. rewrite N.eqb_refl. reflexivity.
  - rewrite N.eqb_sym. destruct (c =? sep)%N; simpl; [discriminate|].
    intros H. rewrite (IH H). reflexivity.
Qed.

(** A string that holds [sep] splits at its first [sep]. *)
Lemma split1_contains (sep : char) (p : str) :
  contains sep p = true ->
  exists a b, p = a ++ sep :: b /\ contains sep a = false
              /\ split1 sep p = [a; b].
Proof.
  induction p as [|c p IH]; simpl; [discriminate|].
  rewrite N.eqb_sym. destruct (c =? sep)%N eqn:E; simpl.
  - intros _. apply N.eqb_eq in E. subst c.
    exists [], p. auto.
  - intros H. destruct (IH H) as (a & b & -> & Ha & Hs).
    exists (c :: a), b. repeat split.
    + simpl. rewrite N.eqb_sym, E. exact Ha.
    + rewrite Hs. reflexivity.
Qed.

Lemma contains_app_sep (sep : char) (a b : str) :
  contains sep (a ++ sep :: b) = true.
Proof.
  unfold contains. rewrite existsb_app. simpl. rewrite N.eqb_refl.
  apply orb_true_iff. right. reflexivity.
Qed.

End StripFacts.

Section ParseFacts.
Context {RT : Runtime}.

Lemma _parse_coord_Raise_inv (token : str) (width : float) (e : exn) :
  _parse_coord token width = Raise e ->
  exists s, e = FloatSyntaxError s /\ float_of_str s = None.
Proof.
  unfold _parse_coord.
  destruct (endswith percent (strip token)).
  - destruct (float_of_str (drop_last (strip token))) eqn:E; [discriminate|].
    intros H. injection H as <-. eauto.
  - destruct (float_of_str (strip token)) eqn:E; [discriminate|].
    intros H. injection H as <-. eauto.
Qed.

(** What one token gives: a box, or one of three errors. *)
Lemma parse_part_cases (p : str) (width : float) :
  (contains colon p = false /\ parse_part p width = Raise (FormatError p))
  \/ (exists a b, p = a ++ colon :: b /\ contains colon a = false /\
        ((exists s, float_of_str s = None /\
                    parse_part p width = Raise (FloatSyntaxError s))
         \/ (exists x0 x1, _parse_coord a width = Ok x0 /\
                           _parse_coord b width = Ok x1 /\
                           ((py_le x1 x0 = true /\
                             parse_part p width = Raise (InvalidBoxError p x0 x1))
                            \/ (py_le x1 x0 = false /\
                                parse_part p width = Ok (x0, x1)))))).
Proof.
  unfold parse_part. destruct (contains colon p) eqn:Ec; simpl.
  - right. destruct (split1_contains _ _ Ec) as (a & b & Hp & Ha & Hs).
    exists a, b. split; [exact Hp|]. split; [exact Ha|].
    rewrite Hs.
    destruct (_parse_coord a width) as [x0|e] eqn:Ea; simpl.
    + destruct (_parse_coord b width) as [x1|e] eqn:Eb; simpl.
      * right. exists x0, x1. split; [reflexivity|]. split; [reflexivity|].
        destruct (py_le x1 x0); auto.
      * left. destruct (_parse_coord_Raise_inv _ _ Eb) as (s & -> & Hs').
        eauto.
    + left. destruct (_parse_coord_Raise_inv _ _ Ea) as (s & -> & Hs').
      eauto.
  - left. auto.
Qed.

Lemma parse_parts_Raise (parts : list str) (width : float) (e : exn) :
  parse_parts parts width = Raise e ->
  exists pre p post bs,
    parts = pre ++ p :: post /\ parse_parts pre width = Ok bs
    /\ parse_part p width = Raise e.
Proof.
  induction parts as [|q parts IH]; simpl; [discriminate|].
  destruct (parse_part q width) as [b|e'] eqn:Eq; simpl.
  - destruct (parse_parts parts width) as [bs|e'] eqn:Eps; simpl;
      [discriminate|].
    intros H. injection H as ->.
    destruct (IH eq_refl) as (pre & p & post & bs & -> & Hpre & Hp).
    exists (q :: pre), p, post, (b :: bs). simpl.
    rewrite Eq, Hpre. auto.
  - intros H. injection H as ->.
    exists [], q, parts, []. auto.
Qed.

Lemma parse_parts_app_Raise (pre post : list str) (p : str) (width : float)
    (bs : list box) (e : exn) :
  parse_parts pre width = Ok bs -> parse_part p width = Raise e ->
  parse_parts (pre ++ p :: post) width = Raise e.
Proof.
  revert bs. induction pre as [|q pre IH]; intros bs Hpre Hp.
  - simpl. rewrite Hp. reflexivity.
  - destruct (parse_parts_cons_Ok _ _ _ Hpre) as (b & bs' & Hq & Hpre').
    change ((q :: pre) ++ p :: post) with (q :: (pre ++ p :: post)).
    cbn [parse_parts]. rewrite Hq, (IH bs' Hpre' Hp). reflexivity.
Qed.

Lemma check_overlaps_Raise_inv (l : list box) (e : exn) :
  check_overlaps l = Raise e ->
  exists i a b, adjacent_at l i a b /\ e = OverlapError a b
                /\ py_lt (fst b) (snd a) = true.
Proof.
  induction l as [|x [|y l] IH]; try discriminate.
  cbn [check_overlaps].
  destruct (py_lt (fst y) (snd x)) eqn:E.
  - intros H. injection H as <-. exists 0%nat, x, y.
    split; [split; reflexivity | auto].
  - intros H. destruct (IH H) as (i & a & b & [Ha Hb] & He & Hlt).
    exists (S i), a, b. split; [split; assumption | auto].
Qed.

(** The ways [parse_cols_spec] ends. *)
Lemma parse_cols_spec_cases (spec : str) (width : float) :
  (exists e, parse_parts (nonblank_parts spec) width = Raise e
             /\ parse_cols_spec spec width = Raise e)
  \/ (exists bs, parse_parts (nonblank_parts spec) width = Ok bs
        /\ ((exists e, check_overlaps (sorted_by py_lt (@fst float float) bs) = Raise e
                       /\ parse_cols_spec spec width = Raise e)
            \/ (check_overlaps (sorted_by py_lt (@fst float float) bs) = Ok tt
                /\ parse_cols_spec spec width
                   = Ok (sorted_by py_lt (@fst float float) bs)))).
Proof.
  unfold parse_cols_spec. destruct (is_empty spec) eqn:E.
  - destruct spec; [|discriminate]. right. exists []. split; [reflexivity|].
    right. split; reflexivity.
  - destruct (parse_parts (nonblank_parts spec) width) as [bs|e]; simpl.
    + right. exists bs. split; [reflexivity|].
      destruct (check_overlaps (sorted_by py_lt fst bs)) as [[]|e]; simpl.
      * right. auto.
      * left. eauto.
    + left. eauto.
Qed.

End ParseFacts.

(* ================================================================== *)
(** ** Column specifications: boxes and exceptions *)

Section ParseTheorems.
Context {RT : Runtime}.

(** X4. Whitespace around a coordinate token is ignored: the token is
    stripped before anything else is done with it. *)
Theorem _parse_coord_outer_whitespace (a tok b : str) (width : float) :
  forallb is_space a = true -> forallb is_space b = true ->
  _parse_coord (a ++ tok ++ b) width = _parse_coord tok width.
Proof.
  intros Ha Hb. unfold _parse_coord.
  rewrite (@strip_outer_whitespace a tok b Ha Hb). reflexivity.
Qed.

Lemma parse_parts_length (parts : list str) (width : float) (bs : list box) :
  parse_parts parts width = Ok bs -> List.length bs = List.length parts.
Proof.
  revert bs. induction parts as [|p parts IH]; intros bs; simpl.
  - intros H. injection H as <-. reflexivity.
  - destruct (parse_part p width) as [b|e]; simpl; [|discriminate].
    destruct (parse_parts parts width) as [bs'|e]; simpl; [|discriminate].
    intros H. injection H as <-. simpl. rewrite (IH bs' eq_refl). reflexivity.
Qed.

Lemma parse_part_Ok_width (p : str) (width : float) (b : box) :
  parse_part p width = Ok b -> py_le (snd b) (fst b) = false.
Proof.
  intros H.
  destruct (parse_part_cases p width) as [[_ E]|(a0 & b0 & _ & _ & [(s & _ & E)|(x0 & x1 & _ & _ & [[_ E]|[Hle E]])])];
    rewrite E in H; try discriminate.
  injection H as <-. exact Hle.
Qed.

Lemma parse_parts_Ok_width (parts : list str) (width : float) (bs : list box) :
  parse_parts parts width = Ok bs ->
  Forall (fun b => py_le (snd b) (fst b) = false) bs.
Proof.
  revert bs. induction parts as [|p parts IH]; intros bs; simpl.
  - intros H. injection H as <-. constructor.
  - destruct (parse_part p width) as [b|e] eqn:Ep; simpl; [|discriminate].
    destruct (parse_parts parts width) as [bs'|e]; simpl; [|discriminate].
    intros H. injection H as <-. constructor.
    + apply (@parse_part_Ok_width p width b Ep).
    + apply IH. reflexivity.
Qed.

Lemma parse_cols_spec_Raise_kinds (spec : str) (width : float) (e : exn) :
  parse_cols_spec spec width = Raise e ->
  (exists p, e = FormatError p /\ In p (nonblank_parts spec)
             /\ contains colon p = false)
  \/ (exists s, e = FloatSyntaxError s /\ float_of_str s = None)
  \/ (exists p x0 x1, e = InvalidBoxError p x0 x1
                      /\ In p (nonblank_parts spec) /\ py_le x1 x0 = true)
  \/ (exists a b, e = OverlapError a b /\ py_lt (fst b) (snd a) = true).
Proof.
  intros H.
  destruct (parse_cols_spec_cases spec width)
    as [(e' & Hps & Hr)|(bs & Hps & [(e' & Hc & Hr)|[Hc Hr]])];
    rewrite Hr in H; try discriminate; injection H as ->.
  - pose proof Hps as Hps'; apply parse_parts_Raise in Hps' as (pre & p & post & bs & Hparts & _ & Hp).
    assert (Hin : In p (nonblank_parts spec)).
    { rewrite Hparts. apply in_or_app. right. left. reflexivity. }
    destruct (parse_part_cases p width)
      as [[Hno E]|(a0 & b0 & _ & _ & [(s & Hs & E)|(x0 & x1 & _ & _ & [[Hle E]|[Hle E]])])];
      rewrite E in Hp; try discriminate; injection Hp as <-.
    + left. eauto.
    + right. left. eauto.
    + right. right. left. exists p, x0, x1. auto.
  - apply check_overlaps_Raise_inv in Hc as (i & a & b & _ & -> & Hlt).
    right. right. right. eauto.
Qed.

(** X6. The only exceptions of [parse_cols_spec] are the format error on a
    token without colon, the error of [float] on a string it rejects, the
    error on a box with [x1 <= x0] and the overlap error; unpacking the
    split token never fails. *)
Theorem parse_cols_spec_exceptions (spec : str) (width : float) (e : exn) :
  parse_cols_spec spec width = Raise e ->
  (exists p, e = FormatError p /\ In p (nonblank_parts spec)
             /\ contains colon p = false)
  \/ (exists s, e = FloatSyntaxError s /\ float_of_str s = None)
  \/ (exists p x0 x1, e = InvalidBoxError p x0 x1
                      /\ In p (nonblank_parts spec) /\ py_le x1 x0 = true)
  \/ (exists a b, e = OverlapError a b /\ py_lt (fst b) (snd a) = true).
Proof. apply parse_cols_spec_Raise_kinds. Qed.

(** X7. When [parse_cols_spec] returns, it returns one box per non-blank
    token: the boxes of the tokens, rearranged. For no box does [x1 <= x0]
    hold, and no box starts left of the right edge of the box before it. *)
Theorem parse_cols_spec_boxes (spec : str) (width : float) (boxes : list box) :
  parse_cols_spec spec width = Ok boxes ->
  exists bs,
    parse_parts (nonblank_parts spec) width = Ok bs
    /\ Permutation boxes bs
    /\ List.length boxes = List.length (nonblank_parts spec)
    /\ Forall (fun b => py_le (snd b) (fst b) = false) boxes
    /\ neighbours (fun a b => py_lt (fst b) (snd a) = false) boxes.
Proof.
  intros H.
  destruct (parse_cols_spec_cases spec width)
    as [(e' & Hps & Hr)|(bs & Hps & [(e' & Hc & Hr)|[Hc Hr]])];
    rewrite Hr in H; try discriminate; injection H as <-.
  exists bs.
  assert (Hp : Permutation (sorted_by py_lt (@fst float float) bs) bs)
    by apply sorted_by_perm.
  split; [exact Hps|]. split; [exact Hp|]. split; [|split].
  - etransitivity; [apply (Permutation_length Hp)|].
    eapply parse_parts_length. exact Hps.
  - apply (Permutation_Forall (Permutation_sym Hp)).
    eapply parse_parts_Ok_width. exact Hps.
  - apply check_overlaps_Ok. exact Hc.
Qed.

(** X8. [parse_cols_spec] raises the error on a box with [x1 <= x0],
    naming the token [p] and its edges, exactly when [p] is a non-blank
    token, every token before it yields a box, and the two parts of [p]
    around its first colon convert to [x0] and [x1] with [x1 <= x0]. *)
Theorem parse_cols_spec_InvalidBoxError (spec p : str) (x0 x1 width : float) :
  parse_cols_spec spec width = Raise (InvalidBoxError p x0 x1) <->
  exists pre post bs a b,
    nonblank_parts spec = pre ++ p :: post /\ parse_parts pre width = Ok bs
    /\ p = a ++ colon :: b /\ contains colon a = false
    /\ _parse_coord a width = Ok x0 /\ _parse_coord b width = Ok x1
    /\ py_le x1 x0 = true.
Proof.
  split.
  - intros H.
    destruct (parse_cols_spec_cases spec width)
      as [(e' & Hps & Hr)|(bs & Hps & [(e' & Hc & Hr)|[Hc Hr]])];
      rewrite Hr in H; try discriminate; injection H as ->.
    + pose proof Hps as Hps'; apply parse_parts_Raise in Hps' as (pre & q & post & bs & Hparts & Hpre & Hq).
      destruct (parse_part_cases q width)
        as [[Hno E]|(a0 & b0 & Hsplit & Ha0 & [(s & Hs & E)|(y0 & y1 & Hy0 & Hy1 & [[Hle E]|[Hle E]])])];
        rewrite E in Hq; try discriminate.
      injection Hq as -> -> ->.
      exists pre, post, bs, a0, b0. auto 10.
    + apply check_overlaps_Raise_inv in Hc as (i & a & b & _ & He & _).
      discriminate.
  - intros (pre & post & bs & a & b & Hparts & Hpre & -> & Ha & Hx0 & Hx1 & Hle).
    assert (Hp : parse_part (a ++ colon :: b) width
                 = Raise (InvalidBoxError (a ++ colon :: b) x0 x1)).
    { unfold parse_part.
      rewrite contains_app_sep, (@split1_first colon a b Ha), Hx0, Hx1. simpl.
      rewrite Hle. reflexivity. }
    unfold parse_cols_spec. destruct (is_empty spec) eqn:E.
    + destruct spec; [|discriminate]. destruct pre; discriminate.
    + rewrite Hparts, (@parse_parts_app_Raise _ pre post _ width bs _ Hpre Hp). reflexivity.
Qed.

End ParseTheorems.

(* ================================================================== *)
(** ** Column specifications in points *)

Section NoPercent.

Lemma contains_false_Forall (c : char) (s : str) :
  contains c s = false <-> Forall (fun x => x <> c) s.
Proof.
  unfold contains. induction s as [|x s IH]; simpl.
  - split; [constructor | reflexivity].
  - rewrite orb_false_iff, IH, N.eqb_neq. split.
    + intros [Hx Hs]. constructor; [congruence | exact Hs].
    + intros H. inversion H; subst. split; [congruence | assumption].
Qed.

Lemma split_Forall (P : char -> Prop) (sep : char) (s : str) :
  Forall P s -> Forall (Forall P) (split sep s).
Proof.
  induction 1 as [|c s Hc _ IH]; simpl.
  - repeat constructor.
  - destruct (c =? sep)%N; [constructor; [constructor | exact IH]|].
    destruct (split sep s) as [|w ws]; [repeat constructor; exact Hc|].
    inversion IH; subst. constructor; [constructor|]; assumption.
Qed.

Lemma endswith_In (c : char) (s : str) : endswith c s = true -> In c s.
Proof.
  unfold endswith. destruct (rev s) as [|x r] eqn:E; [discriminate|].
  intros H. apply N.eqb_eq in H. subst x.
  apply in_rev. rewrite E. left. reflexivity.
Qed.

Lemma endswith_strip_false (c : char) (t : str) :
  Forall (fun x => x <> c) t -> endswith c (strip t) = false.
Proof.
  intros H. destruct (endswith c (strip t)) eqn:E; [|reflexivity].
  apply endswith_In in E.
  assert (Hs : Forall (fun x => x <> c) (strip t))
    by (apply rstrip_Forall, lstrip_Forall; exact H).
  rewrite Forall_forall in Hs. exfalso. apply (Hs c E). reflexivity.
Qed.

End NoPercent.

Section PointsIgnoreWidth.
Context {RT : Runtime}.

Lemma _parse_coord_points (token : str) (w1 w2 : float) :
  Forall (fun x => x <> percent) token ->
  _parse_coord token w1 = _parse_coord token w2.
Proof.
  intros H. unfold _parse_coord.
  rewrite (endswith_strip_false H). reflexivity.
Qed.

Lemma parse_part_points (p : str) (w1 w2 : float) :
  Forall (fun x => x <> percent) p -> parse_part p w1 = parse_part p w2.
Proof.
  intros H. unfold parse_part.
  destruct (contains colon p) eqn:Ec; [|reflexivity]. simpl.
  destruct (split1_contains _ _ Ec) as (a & b & -> & _ & ->).
  apply Forall_app in H. destruct H as [Ha Hb].
  inversion Hb as [|? ? _ Hb']; subst.
  rewrite (_parse_coord_points w1 w2 Ha), (_parse_coord_points w1 w2 Hb').
  reflexivity.
Qed.

Lemma parse_parts_points (parts : list str) (w1 w2 : float) :
  Forall (Forall (fun x => x <> percent)) parts ->
  parse_parts parts w1 = parse_parts parts w2.
Proof.
  induction 1 as [|p parts Hp _ IH]; [reflexivity|].
  cbn [parse_parts]. rewrite (parse_part_points w1 w2 Hp), IH. reflexivity.
Qed.

(** X10. A spec without percent sign does not depend on the reference
    width: it gives the same boxes, or the same exception, for every
    width. *)
Theorem parse_cols_spec_points_ignore_width (spec : str) (w1 w2 : float) :
  contains percent spec = false ->
  parse_cols_spec spec w1 = parse_cols_spec spec w2.
Proof.
  intros H. apply contains_false_Forall in H.
  unfold parse_cols_spec. destruct (is_empty spec); [reflexivity|].
  rewrite (@parse_parts_points (nonblank_parts spec) w1 w2); [reflexivity|].
  unfold nonblank_parts.
  apply Forall_forall. intros p Hp. apply filter_In in Hp. destruct Hp as [Hp _].
  pose proof (split_Forall comma H) as Hall.
  rewrite Forall_forall in Hall. apply Hall. exact Hp.
Qed.

End PointsIgnoreWidth.

(* ================================================================== *)
(** ** Column specifications: the order of the tokens *)

Section FloatTotal2.

Lemma py_not_le_lt (a b : float) :
  is_nan a = false -> is_nan b = false -> py_le a b = false -> py_lt b a = true.
Proof.
  intros Ha Hb H. apply py_lt_spec. repeat split; try assumption.
  assert (Hd : rank_lt (rk b) (rk a) \/ ~ rank_lt (rk b) (rk a))
    by (unfold rank_lt; lia).
  destruct Hd as [Hd|Hd]; [exact Hd|].
  assert (Hc : py_le a b = true) by (apply py_le_spec; auto).
  congruence.
Qed.

End FloatTotal2.

Section SortedUnique.
Variables (A : Type) (key : A -> float).

Let ltk (a b : A) : Prop := py_lt (key a) (key b) = true.
Let lek (a b : A) : Prop := py_le (key a) (key b) = true.

Lemma ltk_trans : Relations_1.Transitive ltk.
Proof. intros a b c. apply py_lt_trans. Qed.

Lemma lek_trans : Relations_1.Transitive lek.
Proof. intros a b c. apply py_le_trans. Qed.

(** A list in strictly ascending order of its keys is the only
    arrangement of its elements in ascending order. *)
Lemma sorted_unique (l1 l2 : list A) :
  Permutation l1 l2 -> StronglySorted ltk l1 -> StronglySorted lek l2 ->
  l1 = l2.
Proof.
  revert l2. induction l1 as [|a t1 IH]; intros l2 Hp H1 H2.
  - apply Permutation_nil in Hp. auto.
  - destruct l2 as [|b t2].
    { apply Permutation_sym, Permutation_nil in Hp. discriminate. }
    inversion H1 as [|? ? Hs1 Ha]; subst.
    inversion H2 as [|? ? Hs2 Hb]; subst.
    assert (Hab : a = b).
    { assert (Hina : In a (b :: t2))
        by (apply (Permutation_in _ Hp); left; reflexivity).
      assert (Hinb : In b (a :: t1))
        by (apply (Permutation_in _ (Permutation_sym Hp)); left; reflexivity).
      destruct Hina as [E|Hina]; [auto|].
      destruct Hinb as [E|Hinb]; [auto|].
      rewrite Forall_forall in Ha, Hb.
      pose proof (Ha _ Hinb) as Hlt. pose proof (Hb _ Hina) as Hle.
      unfold ltk, lek in *. apply py_le_not_gt in Hle. congruence. }
    subst b. f_equal. apply IH; try assumption.
    apply (Permutation_cons_inv Hp).
Qed.

End SortedUnique.

Section OrderIrrelevant.
Context {RT : Runtime}.

Lemma parse_parts_perm (l l' : list str) (width : float) :
  Permutation l l' ->
  forall bs, parse_parts l width = Ok bs ->
  exists bs', parse_parts l' width = Ok bs' /\ Permutation bs bs'.
Proof.
  induction 1 as [|x l l' Hp IH|x y l|l l' l'' Hp1 IH1 Hp2 IH2]; intros bs.
  - intros H. exists bs. auto.
  - simpl. destruct (parse_part x width) as [b|e]; simpl; [|discriminate].
    destruct (parse_parts l width) as [bs0|e]; simpl; [|discriminate].
    intros H. injection H as <-.
    destruct (IH bs0 eq_refl) as (bs' & -> & Hperm).
    exists (b :: bs'). simpl. auto.
  - simpl. destruct (parse_part y width) as [by_|e]; simpl; [|discriminate].
    destruct (parse_part x width) as [bx|e]; simpl; [|discriminate].
    destruct (parse_parts l width) as [bs0|e]; simpl; [|discriminate].
    intros H. injection H as <-.
    exists (bx :: by_ :: bs0). split; [reflexivity | apply perm_swap].
  - intros H. destruct (IH1 bs H) as (bs1 & H1 & Hperm1).
    destruct (IH2 bs1 H1) as (bs2 & H2 & Hperm2).
    exists bs2. split; [exact H2 | exact (Permutation_trans Hperm1 Hperm2)].
Qed.

(** Boxes that passed the checks, none with a NaN edge, are in strictly
    ascending order of their left edges. *)
Lemma checked_boxes_strict (boxes : list box) :
  Forall box_no_nan boxes ->
  Forall (fun b => py_le (snd b) (fst b) = false) boxes ->
  neighbours (fun a b => py_lt (fst b) (snd a) = false) boxes ->
  Sorted (fun a b => py_lt (fst a) (fst b) = true) boxes.
Proof.
  intros Hnan Hw Hn. apply Sorted_neighbours.
  intros i a b Hadj. pose proof (Hn i a b Hadj) as Hab.
  destruct Hadj as [Ha Hb].
  rewrite Forall_forall in Hnan, Hw.
  apply nth_error_In in Ha, Hb.
  destruct (Hnan a Ha) as [Ha0 Ha1]. destruct (Hnan b Hb) as [Hb0 Hb1].
  apply (@py_lt_le_trans (fst a) (snd a) (fst b)).
  - apply py_not_le_lt; auto.
  - apply py_not_lt_ge; auto.
Qed.

(** X9. The order of the tokens in the spec does not matter: when a spec
    parses to boxes without NaN edge, every spec with the same non-blank
    tokens in another order parses to the same boxes. *)
Theorem parse_cols_spec_order_irrelevant
    (spec spec' : str) (width : float) (boxes : list box) :
  Permutation (nonblank_parts spec) (nonblank_parts spec') ->
  parse_cols_spec spec width = Ok boxes ->
  Forall box_no_nan boxes ->
  parse_cols_spec spec' width = Ok boxes.
Proof.
  intros Hperm H Hnan.
  destruct (parse_cols_spec_cases spec width)
    as [(e' & Hps & Hr)|(bs & Hps & [(e' & Hc & Hr)|[Hc Hr]])];
    rewrite Hr in H; try discriminate; injection H as <-.
  destruct (parse_parts_perm width Hperm Hps) as (bs' & Hps' & Hbs).
  set (L := sorted_by py_lt (@fst float float) bs) in *.
  set (L' := sorted_by py_lt (@fst float float) bs').
  assert (HpL : Permutation L bs) by apply sorted_by_perm.
  assert (HpL' : Permutation L' bs') by apply sorted_by_perm.
  assert (Hw : Forall (fun b : box => py_le (snd b) (fst b) = false) L).
  { apply (Permutation_Forall (Permutation_sym HpL)).
    eapply parse_parts_Ok_width. exact Hps. }
  assert (HLL' : Permutation L L').
  { eapply Permutation_trans; [exact HpL|].
    eapply Permutation_trans; [exact Hbs|]. apply Permutation_sym. exact HpL'. }
  assert (Heq : L = L').
  { apply (sorted_unique (@fst float float)); [exact HLL'| |].
    - apply Sorted_StronglySorted; [apply ltk_trans|].
      apply checked_boxes_strict; [exact Hnan | exact Hw |].
      apply check_overlaps_Ok. exact Hc.
    - apply Sorted_StronglySorted; [apply lek_trans|].
      apply sorted_by_Sorted.
      apply (Permutation_Forall (Permutation_trans HpL Hbs)).
      eapply Forall_impl; [|exact Hnan]. intros c [Hc0 _]. exact Hc0. }
  destruct (parse_cols_spec_cases spec' width)
    as [(e' & Hq & Hr')|(bs2 & Hq & [(e' & Hc' & Hr')|[Hc' Hr']])];
    rewrite Hps' in Hq; try discriminate; injection Hq as <-.
  - fold L' in Hc'. rewrite <- Heq, Hc in Hc'. discriminate.
  - rewrite Hr'. fold L'. rewrite Heq. reflexivity.
Qed.

End OrderIrrelevant.

(* ================================================================== *)
(** ** [sorted_by] is the stable sort *)

Section StableSort.
Variables (A K : Type) (lt : K -> K -> bool) (key : A -> K) (okk : K -> Prop).
Hypothesis lt_irrefl : forall k, okk k -> lt k k = false.
Hypothesis lt_trans :
  forall a b c, okk a -> okk b -> okk c ->
                lt a b = true -> lt b c = true -> lt a c = true.
Hypothesis lt_cotrans :
  forall a b c, okk a -> okk b -> okk c ->
                lt a c = true -> lt a b = true \/ lt b c = true.

Let ok (a : A) : Prop := okk (key a).
Let nlt (a b : A) : Prop := lt (key b) (key a) = false.
Let same (k : K) (a : A) : bool := same_key lt key k a.

Lemma nlt_trans (a b c : A) : ok a -> ok b -> ok c -> nlt a b -> nlt b c -> nlt a c.
Proof.
  unfold nlt, ok. intros Ha Hb Hc Hab Hbc.
  destruct (lt (key c) (key a)) eqn:E; [|reflexivity].
  destruct (lt_cotrans Hc Hb Ha E) as [H|H]; congruence.
Qed.

(** In a sorted list the head is not after any element. *)
Lemma Sorted_head (a : A) (l : list A) :
  Forall ok (a :: l) -> Sorted nlt (a :: l) -> Forall (nlt a) l.
Proof.
  revert a. induction l as [|b l IH]; intros a Hok Hs; [constructor|].
  inversion Hs as [|? ? Hs' Hh]; subst. inversion Hh; subst.
  inversion Hok as [|? ? Ha Hok']; subst. inversion Hok' as [|? ? Hb Hok'']; subst.
  constructor; [assumption|].
  specialize (IH b Hok' Hs').
  rewrite Forall_forall in *. intros c Hc.
  apply (@nlt_trans a b c); auto.
Qed.

Lemma same_refl (a : A) : ok a -> same (key a) a = true.
Proof.
  intros Ha. unfold same, same_key. rewrite (lt_irrefl Ha). reflexivity.
Qed.

(** An element with the key of [x] is greater than what [x] is greater
    than, and less than what [x] is less than. *)
Lemma same_lt_r (k : K) (x z : A) :
  okk k -> ok x -> ok z ->
  same k x = true -> lt (key x) (key z) = true -> same k z = false.
Proof.
  unfold same, same_key, ok. intros Hk Hx Hz Hs Hlt.
  apply andb_true_iff in Hs. destruct Hs as [H1 H2].
  apply negb_true_iff in H1, H2.
  destruct (lt_cotrans Hx Hk Hz Hlt) as [H|H]; [congruence|].
  rewrite H. apply andb_false_r.
Qed.

Lemma filter_same_after (k : K) (x : A) (l : list A) :
  okk k -> ok x -> Forall ok l -> same k x = true ->
  Forall (fun z => lt (key x) (key z) = true) l ->
  filter (same k) l = [].
Proof.
  intros Hk Hx Hok Hs Hl. induction l as [|z l IH]; [reflexivity|].
  inversion Hok; subst. inversion Hl; subst. simpl.
  rewrite (@same_lt_r k x z) by assumption. auto.
Qed.

(** [insert_by] puts the element after those of its key. *)
Lemma insert_by_filter (k : K) (x : A) (l : list A) :
  okk k -> ok x -> Forall ok l -> Sorted nlt l ->
  filter (same k) (insert_by lt key x l)
  = filter (same k) l ++ (if same k x then [x] else []).
Proof.
  intros Hk Hx Hok Hs. induction l as [|y l IH]; simpl.
  - destruct (same k x); reflexivity.
  - inversion Hok as [|? ? Hy Hok']; subst.
    destruct (lt (key x) (key y)) eqn:E.
    + cbn [filter]. destruct (same k x) eqn:Ex; [|rewrite app_nil_r; reflexivity].
      assert (Hall : Forall (fun z => lt (key x) (key z) = true) (y :: l)).
      { pose proof (Sorted_head Hok Hs) as Hh.
        constructor; [assumption|].
        rewrite Forall_forall in *. intros z Hz.
        specialize (Hh z Hz). unfold nlt in Hh.
        destruct (lt_cotrans Hx (Hok' z Hz) Hy E) as [H|H];
          [assumption | congruence]. }
      change (if same k y then y :: filter (same k) l else filter (same k) l)
        with (filter (same k) (y :: l)).
      rewrite (@filter_same_after k x (y :: l)) by assumption. reflexivity.
    + cbn [filter]. inversion Hs; subst. rewrite IH by assumption.
      destruct (same k y); reflexivity.
Qed.

Lemma lt_asym (a b : K) : okk a -> okk b -> lt a b = true -> lt b a = false.
Proof.
  intros Ha Hb H. destruct (lt b a) eqn:E; [|reflexivity].
  pose proof (lt_trans Ha Hb Ha H E) as H'.
  rewrite (lt_irrefl Ha) in H'. discriminate.
Qed.

Lemma insert_by_nlt_Sorted (x : A) (l : list A) :
  ok x -> Forall ok l -> Sorted nlt l -> Sorted nlt (insert_by lt key x l).
Proof.
  intros Hx Hok Hs. induction l as [|y l IH]; simpl.
  - repeat constructor.
  - inversion Hs as [|? ? Hs' Hh]; subst.
    inversion Hok as [|? ? Hy Hok']; subst.
    destruct (lt (key x) (key y)) eqn:E.
    + constructor; [assumption|]. constructor. unfold nlt.
      apply lt_asym; assumption.
    + constructor; [apply IH; assumption|].
      destruct l as [|z l]; simpl.
      * constructor. exact E.
      * destruct (lt (key x) (key z)); constructor; [exact E|].
        inversion Hh; assumption.
Qed.

Lemma fold_insert_stable (k : K) (l acc : list A) :
  okk k -> Forall ok l -> Forall ok acc -> Sorted nlt acc ->
  let r := fold_left (fun acc x => insert_by lt key x acc) l acc in
  Permutation r (acc ++ l) /\ Sorted nlt r
  /\ filter (same k) r = filter (same k) acc ++ filter (same k) l.
Proof.
  intros Hk. revert acc.
  induction l as [|x l IH]; intros acc Hl Hacc Hs; cbn [fold_left].
  - rewrite !app_nil_r. auto.
  - inversion Hl as [|? ? Hx Hl']; subst.
    assert (Hp : Permutation (insert_by lt key x acc) (x :: acc)).
    { clear. induction acc as [|y acc IHa]; simpl; [reflexivity|].
      destruct (lt (key x) (key y)); [reflexivity|].
      rewrite IHa. apply perm_swap. }
    assert (Hok' : Forall ok (insert_by lt key x acc)).
    { apply (Permutation_Forall (Permutation_sym Hp)). constructor; assumption. }
    destruct (IH (insert_by lt key x acc) Hl' Hok'
                 (insert_by_nlt_Sorted Hx Hacc Hs)) as (P1 & P2 & P3).
    split; [|split; [exact P2|]].
    + rewrite P1, Hp. change (x :: acc) with ([x] ++ acc).
      rewrite (Permutation_app_comm [x] acc), <- app_assoc. reflexivity.
    + rewrite P3, (insert_by_filter Hk Hx Hacc Hs), <- app_assoc.
      cbn [filter]. destruct (same k x); reflexivity.
Qed.

(** On keys that [lt] orders, [sorted_by] is a stable sort. *)
Lemma sorted_by_stable (l : list A) :
  Forall ok l -> stable_sort_of lt key l (sorted_by lt key l).
Proof.
  intros Hl. unfold stable_sort_of, sorted_by.
  split; [|split].
  - destruct l as [|x0 l0]; [reflexivity|].
    inversion Hl as [|? ? Hx0 _]; subst.
    apply (fold_insert_stable Hx0 Hl (Forall_nil _) (Sorted_nil _)).
  - destruct l as [|x0 l0]; [constructor|].
    inversion Hl as [|? ? Hx0 _]; subst.
    apply (fold_insert_stable Hx0 Hl (Forall_nil _) (Sorted_nil _)).
  - intros x Hx.
    assert (Hk : okk (key x)) by (rewrite Forall_forall in Hl; apply (Hl x Hx)).
    apply (fold_insert_stable Hk Hl (Forall_nil _) (Sorted_nil _)).
Qed.

(** Two sorted lists with the same elements of each key, in the same
    order, are one list. *)
Lemma sorted_same_keys_eq (l1 l2 : list A) :
  Forall ok l1 -> Forall ok l2 -> Sorted nlt l1 -> Sorted nlt l2 ->
  (forall x, In x l1 \/ In x l2 ->
             filter (same (key x)) l1 = filter (same (key x)) l2) ->
  l1 = l2.
Proof.
  revert l2. induction l1 as [|a t1 IH]; intros l2 Ho1 Ho2 Hs1 Hs2 Hf.
  - destruct l2 as [|b t2]; [reflexivity|].
    inversion Ho2 as [|? ? Hb _]; subst.
    specialize (Hf b (or_intror (or_introl eq_refl))).
    cbn [filter] in Hf. rewrite (same_refl Hb) in Hf. discriminate.
  - inversion Ho1 as [|? ? Ha Ho1']; subst.
    destruct l2 as [|b t2].
    { specialize (Hf a (or_introl (or_introl eq_refl))).
      cbn [filter] in Hf. rewrite (same_refl Ha) in Hf. discriminate. }
    inversion Ho2 as [|? ? Hb Ho2']; subst.
    pose proof (Sorted_head Ho1 Hs1) as Hh1.
    pose proof (Sorted_head Ho2 Hs2) as Hh2.
    rewrite Forall_forall in Hh1, Hh2.
    assert (In_filter : forall k z l, In z (filter (same k) l) -> In z l).
    { intros k z l Hz. apply filter_In in Hz. tauto. }
    (* [a] is in [l2], so it is not before [b]; and the other way round *)
    assert (Hba : nlt b a).
    { pose proof (Hf a (or_introl (or_introl eq_refl))) as E.
      cbn [filter] in E. rewrite (same_refl Ha) in E.
      assert (Hin : In a (b :: t2)).
      { apply (In_filter (key a)).
        change (In a (filter (same (key a)) (b :: t2))).
        cbn [filter]. rewrite <- E. left. reflexivity. }
      destruct Hin as [<-|Hin]; [apply (lt_irrefl Hb) | apply Hh2, Hin]. }
    assert (Hab : nlt a b).
    { pose proof (Hf b (or_intror (or_introl eq_refl))) as E.
      cbn [filter] in E. rewrite (same_refl Hb) in E.
      assert (Hin : In b (a :: t1)).
      { apply (In_filter (key b)).
        change (In b (filter (same (key b)) (a :: t1))).
        cbn [filter]. rewrite E. left. reflexivity. }
      destruct Hin as [<-|Hin]; [apply (lt_irrefl Ha) | apply Hh1, Hin]. }
    assert (Hsame : same (key a) b = true).
    { unfold same, same_key. unfold nlt in Hab, Hba. rewrite Hab, Hba. reflexivity. }
    assert (Eab : a = b).
    { pose proof (Hf a (or_introl (or_introl eq_refl))) as E.
      cbn [filter] in E. rewrite (same_refl Ha), Hsame in E. congruence. }
    subst b. f_equal.
    inversion Hs1; subst. inversion Hs2; subst.
    apply IH; try assumption.
    intros x Hx.
    assert (E : filter (same (key x)) (a :: t1) = filter (same (key x)) (a :: t2)).
    { apply Hf. destruct Hx; [left|right]; right; assumption. }
    cbn [filter] in E. destruct (same (key x) a); congruence.
Qed.

(** On keys that [lt] orders, a stable sort returns what [sorted_by]
    returns. *)
Lemma stable_sort_is_sorted_by (l l' : list A) :
  Forall ok l -> stable_sort_of lt key l l' -> l' = sorted_by lt key l.
Proof.
  intros Hl (P & S & F).
  destruct (sorted_by_stable Hl) as (P' & S' & F').
  apply sorted_same_keys_eq; try assumption.
  - apply (Permutation_Forall (Permutation_sym P)). exact Hl.
  - apply (Permutation_Forall (Permutation_sym P')). exact Hl.
  - intros x Hx.
    assert (Hin : In x l).
    { destruct Hx as [Hx|Hx];
        [apply (Permutation_in _ P) | apply (Permutation_in _ P')]; exact Hx. }
    etransitivity; [exact (F x Hin) | symmetry; exact (F' x Hin)].
Qed.

End StableSort.

Section StableSortFloat.
Variables (A : Type) (key : A -> float).

(** [sorted(l, key=key)] on float keys without NaN: the result of
    [sorted_by], whatever stable sort the interpreter runs. *)
Lemma sorted_by_float_keys (l l' : list A) :
  Forall (fun a => is_nan (key a) = false) l ->
  stable_sort_of py_lt key l (sorted_by py_lt key l)
  /\ (stable_sort_of py_lt key l l' -> l' = sorted_by py_lt key l).
Proof.
  intros Hl.
  assert (I : forall k, is_nan k = false -> py_lt k k = false).
  { intros k Hk. destruct (py_lt k k) eqn:E; [|reflexivity].
    rewrite (py_lt_asym E) in E. discriminate. }
  assert (T : forall a b c : float,
             is_nan a = false -> is_nan b = false -> is_nan c = false ->
             py_lt a b = true -> py_lt b c = true -> py_lt a c = true).
  { intros a b c _ _ _. apply py_lt_trans. }
  assert (C : forall a b c : float,
             is_nan a = false -> is_nan b = false -> is_nan c = false ->
             py_lt a c = true -> py_lt a b = true \/ py_lt b c = true).
  { intros a b c Ha Hb Hc Hac.
    destruct (py_lt a b) eqn:E; [left; reflexivity|right].
    apply (@py_le_lt_trans b a c); [|exact Hac].
    apply py_not_lt_ge; assumption. }
  split.
  - apply (@sorted_by_stable A float py_lt key (fun k => is_nan k = false) I T C l Hl).
  - apply (@stable_sort_is_sorted_by A float py_lt key (fun k => is_nan k = false) I T C l l' Hl).
Qed.

End StableSortFloat.

Section PairKeys.

Lemma SFeqb_rank (x y : spec_float) :
  x <> S754_nan -> y <> S754_nan ->
  (SFeqb x y = true <-> rank x = rank y).
Proof.
  intros Hx Hy. unfold SFeqb.
  destruct x as [sx|sx| |sx mx ex], y as [sy|sy| |sy my ey];
    try congruence; simpl;
    try (destruct sx; simpl; split; (discriminate || reflexivity));
    try (destruct sy; simpl; split; (discriminate || reflexivity));
    try (destruct sx, sy; simpl; split; (discriminate || reflexivity)).
  change (Pos.compare_cont Eq mx my) with (Pos.compare mx my).
  destruct sx, sy; simpl; try (split; (discriminate || reflexivity)).
  - destruct (Z.compare_spec ex ey); simpl;
      try (split; [discriminate | intros E; injection E; lia]).
    destruct (Pos.compare_spec mx my); simpl;
      split; try discriminate; try (intros E; injection E; lia).
    all: intros _; subst; reflexivity.
  - destruct (Z.compare_spec ex ey); simpl;
      try (split; [discriminate | intros E; injection E; lia]).
    destruct (Pos.compare_spec mx my); simpl;
      split; try discriminate; try (intros E; injection E; lia).
    all: intros _; subst; reflexivity.
Qed.

Lemma py_eq_spec (a b : float) :
  is_nan a = false -> is_nan b = false ->
  (PrimFloat.eqb a b = true <-> rk a = rk b).
Proof.
  rewrite !is_nan_spec. intros Ha Hb. rewrite FloatAxioms.eqb_spec.
  apply SFeqb_rank; assumption.
Qed.

Lemma key_lt_spec (a b : float * float) :
  pair_ok a -> pair_ok b ->
  (key_lt a b = true <->
   rank_lt (rk (fst a)) (rk (fst b))
   \/ (rk (fst a) = rk (fst b) /\ rank_lt (rk (snd a)) (rk (snd b)))).
Proof.
  intros [Ha1 Ha2] [Hb1 Hb2]. unfold key_lt.
  destruct (PrimFloat.eqb (fst a) (fst b)) eqn:E.
  - apply py_eq_spec in E; try assumption.
    rewrite py_lt_spec. split.
    + intros (_ & _ & H). right. auto.
    + intros [H|[_ H]]; [|auto].
      rewrite E in H. unfold rank_lt in H. lia.
  - assert (Hne : rk (fst a) <> rk (fst b)).
    { intros H. apply py_eq_spec in H; try assumption. congruence. }
    rewrite py_lt_spec. split.
    + intros (_ & _ & H). left. exact H.
    + intros [H|[H _]]; [auto | contradiction].
Qed.

Lemma rank_eq (x y : Z * (Z * Z)) :
  x = y <-> (fst x = fst y /\ fst (snd x) = fst (snd y) /\ snd (snd x) = snd (snd y))%Z.
Proof.
  destruct x as [x1 [x2 x3]], y as [y1 [y2 y3]]; simpl. split.
  - intros E; injection E; auto.
  - intros (-> & -> & ->). reflexivity.
Qed.

Lemma sorted_by_pair_keys (A : Type) (key : A -> float * float) (l l' : list A) :
  Forall (fun a => pair_ok (key a)) l ->
  stable_sort_of key_lt key l (sorted_by key_lt key l)
  /\ (stable_sort_of key_lt key l l' -> l' = sorted_by key_lt key l).
Proof.
  intros Hl.
  assert (I : forall k, pair_ok k -> key_lt k k = false).
  { intros k Hk. destruct (key_lt k k) eqn:E; [|reflexivity].
    apply key_lt_spec in E; try assumption.
    unfold rank_lt in E. lia. }
  assert (T : forall a b c, pair_ok a -> pair_ok b -> pair_ok c ->
             key_lt a b = true -> key_lt b c = true -> key_lt a c = true).
  { intros a b c Ha Hb Hc Hab Hbc.
    apply key_lt_spec in Hab, Hbc; try assumption.
    apply key_lt_spec; try assumption.
    rewrite rank_eq in Hab, Hbc |- *. unfold rank_lt in *. lia. }
  assert (C : forall a b c, pair_ok a -> pair_ok b -> pair_ok c ->
             key_lt a c = true -> key_lt a b = true \/ key_lt b c = true).
  { intros a b c Ha Hb Hc Hac.
    apply key_lt_spec in Hac; try assumption.
    rewrite !key_lt_spec by assumption.
    rewrite !rank_eq. rewrite rank_eq in Hac. unfold rank_lt in *. lia. }
  split.
  - apply (@sorted_by_stable A _ key_lt key pair_ok I T C l Hl).
  - apply (@stable_sort_is_sorted_by A _ key_lt key pair_ok I T C l l' Hl).
Qed.
End PairKeys.

(* ================================================================== *)
(** ** Column specifications: sorted, and no two boxes meet *)

Section Overlap.
Context {RT : Runtime}.

Lemma StronglySorted_app_r {A} (R : A -> A -> Prop) (l1 l2 : list A) :
  StronglySorted R (l1 ++ l2) -> StronglySorted R l2.
Proof.
  induction l1 as [|a l1 IH]; [auto|].
  intros H. inversion H; subst. auto.
Qed.

Lemma adjacent_at_app {A} (m1 : list A) (x y : A) (rest : list A) :
  adjacent_at (m1 ++ x :: y :: rest) (List.length m1) x y.
Proof.
  unfold adjacent_at. split.
  - rewrite nth_error_app2 by lia. rewrite Nat.sub_diag. reflexivity.
  - rewrite nth_error_app2 by lia.
    replace (S (List.length m1) - List.length m1)%nat with 1%nat by lia.
    reflexivity.
Qed.

(** In boxes in ascending order of their left edges, a box that starts
    left of the right edge of a box before it makes that box overlap its
    neighbour. *)
Lemma sorted_overlap_adjacent (m1 m2 m3 : list box) (x y : box) :
  StronglySorted (fun a b => py_le (fst a) (fst b) = true)
                 (m1 ++ x :: m2 ++ y :: m3) ->
  py_lt (fst y) (snd x) = true ->
  exists i c, adjacent_at (m1 ++ x :: m2 ++ y :: m3) i x c /\ overlaps x c.
Proof.
  intros Hs Hlt. apply StronglySorted_app_r in Hs.
  destruct m2 as [|c m2'].
  - exists (List.length m1), y. split; [apply adjacent_at_app | exact Hlt].
  - exists (List.length m1), c.
    split; [apply (adjacent_at_app m1 x c (m2' ++ y :: m3))|].
    inversion Hs as [|? ? Hs' _]; subst.
    inversion Hs' as [|? ? _ Hc]; subst.
    rewrite Forall_forall in Hc.
    assert (Hcy : py_le (fst c) (fst y) = true).
    { apply Hc. apply in_or_app. right. left. reflexivity. }
    unfold overlaps. apply (py_le_lt_trans Hcy Hlt).
Qed.

(** Two places of a list are two places of each of its arrangements. *)
Lemma perm_two_positions {A} (L pre mid post : list A) (a b : A) :
  Permutation L (pre ++ a :: mid ++ b :: post) ->
  exists m1 m2 m3,
    L = m1 ++ a :: m2 ++ b :: m3 \/ L = m1 ++ b :: m2 ++ a :: m3.
Proof.
  intros Hp.
  assert (Ha : In a L).
  { apply (Permutation_in _ (Permutation_sym Hp)).
    apply in_or_app. right. left. reflexivity. }
  apply in_split in Ha. destruct Ha as (m1 & m2 & ->).
  apply Permutation_app_inv in Hp.
  assert (Hb : In b (m1 ++ m2)).
  { apply (Permutation_in _ (Permutation_sym Hp)).
    apply in_or_app. right. apply in_or_app. right. left. reflexivity. }
  apply in_app_or in Hb. destruct Hb as [Hb|Hb];
    apply in_split in Hb; destruct Hb as (n1 & n2 & ->).
  - exists n1, n2, m2. right. rewrite <- app_assoc. reflexivity.
  - exists m1, n1, n2. left. reflexivity.
Qed.

(** C1 (amended). When [parse_cols_spec] returns boxes of which no edge
    is NaN, the boxes are in ascending order of x0 and each box starts at or
    after the right edge of the box before it. When the tokens yield boxes
    of which no edge is NaN, then: if, once the boxes are sorted, some box
    starts strictly left of the right edge of the box before it,
    [parse_cols_spec] raises the overlap error naming the first such pair;
    and if any two of the boxes meet, wherever their tokens stand in the
    spec, [parse_cols_spec] raises the overlap error, naming two boxes of
    the spec of which the second starts left of the right edge of the
    first. *)
Theorem parse_cols_spec_sorted_disjoint (spec : str) (width : float) :
  (forall boxes,
      parse_cols_spec spec width = Ok boxes ->
      Forall box_no_nan boxes ->
      neighbours x0_le boxes /\ neighbours starts_after boxes)
  /\
  (forall bs i a b,
      parse_parts (nonblank_parts spec) width = Ok bs ->
      Forall box_no_nan bs ->
      adjacent_at (sorted_by py_lt (@fst float float) bs) i a b ->
      overlaps a b ->
      exists j a' b',
        adjacent_at (sorted_by py_lt (@fst float float) bs) j a' b' /\
        overlaps a' b' /\
        (forall k c d,
            (k < j)%nat ->
            adjacent_at (sorted_by py_lt (@fst float float) bs) k c d ->
            ~ overlaps c d) /\
        parse_cols_spec spec width = Raise (OverlapError a' b'))
  /\
  (forall bs pre a mid b post,
      parse_parts (nonblank_parts spec) width = Ok bs ->
      Forall box_no_nan bs ->
      bs = pre ++ a :: mid ++ b :: post ->
      intersect a b ->
      exists a' b',
        In a' bs /\ In b' bs /\ overlaps a' b' /\
        parse_cols_spec spec width = Raise (OverlapError a' b')).
Proof.
  assert (Hraise : forall bs a' b',
             parse_parts (nonblank_parts spec) width = Ok bs -> bs <> [] ->
             check_overlaps (sorted_by py_lt (@fst float float) bs)
             = Raise (OverlapError a' b') ->
             parse_cols_spec spec width = Raise (OverlapError a' b')).
  { intros bs a' b' Hbs Hne Hr. unfold parse_cols_spec.
    destruct (is_empty spec) eqn:Hemp.
    - destruct spec; [|discriminate].
      cbv in Hbs. injection Hbs as <-. contradiction.
    - rewrite Hbs. simpl. rewrite Hr. reflexivity. }
  split; [|split].
  - intros boxes Hparse Hnan.
    destruct (parse_cols_spec_Ok_inv _ _ Hparse) as [->|(bs & Hbs & Hsort & Hchk)].
    { split; apply neighbours_short; simpl; lia. }
    split.
    + apply Sorted_neighbours. rewrite Hsort.
      apply sorted_by_Sorted.
      assert (Hp : Permutation boxes bs)
        by (rewrite Hsort; apply sorted_by_perm).
      apply (Permutation_Forall Hp).
      eapply Forall_impl; [|exact Hnan]. intros c [Hc _]. exact Hc.
    + apply check_overlaps_Ok in Hchk.
      intros i a b Hadj. unfold starts_after, py_ge.
      rewrite Forall_forall in Hnan.
      destruct Hadj as [Ha Hb].
      apply py_not_lt_ge.
      * apply (Hnan b). eapply nth_error_In; eassumption.
      * apply (Hnan a). eapply nth_error_In; eassumption.
      * apply (Hchk i a b). split; assumption.
  - intros bs i a b Hbs _ Hadj Hov.
    destruct (check_overlaps_Raise Hadj Hov)
      as (j & a' & b' & Hadj' & Hov' & Hfirst & Hr).
    exists j, a', b'.
    split; [exact Hadj'|]. split; [exact Hov'|]. split; [exact Hfirst|].
    apply (Hraise bs); [exact Hbs | | exact Hr].
    intros E. rewrite E in Hadj. destruct Hadj as [Hx _].
    destruct i; discriminate.
  - intros bs pre a mid b post Hbs Hnan Hsplit [Hab Hba].
    set (L := sorted_by py_lt (@fst float float) bs).
    assert (HpL : Permutation L bs) by apply sorted_by_perm.
    assert (HsL : StronglySorted (fun a b => py_le (fst a) (fst b) = true) L).
    { apply Sorted_StronglySorted; [apply lek_trans|].
      apply sorted_by_Sorted.
      eapply Forall_impl; [|exact Hnan]. intros c [Hc _]. exact Hc. }
    assert (Hadj : exists i x c, adjacent_at L i x c /\ overlaps x c).
    { rewrite Hsplit in HpL.
      destruct (perm_two_positions _ _ _ _ _ HpL) as (m1 & m2 & m3 & [E|E]);
        rewrite E in HsL.
      - destruct (sorted_overlap_adjacent _ _ _ _ _ HsL Hab) as (i & c & Hadj & Hov).
        exists i, a, c. rewrite E. auto.
      - destruct (sorted_overlap_adjacent _ _ _ _ _ HsL Hba) as (i & c & Hadj & Hov).
        exists i, b, c. rewrite E. auto. }
    destruct Hadj as (i & x & c & Hadj & Hov).
    destruct (check_overlaps_Raise Hadj Hov)
      as (j & a' & b' & [Ha' Hb'] & Hov' & _ & Hr).
    exists a', b'.
    split; [apply (Permutation_in _ HpL), (nth_error_In _ _ Ha')|].
    split; [apply (Permutation_in _ HpL), (nth_error_In _ _ Hb')|].
    split; [exact Hov'|].
    apply (Hraise bs); [exact Hbs | | exact Hr].
    rewrite Hsplit. destruct pre; discriminate.
Qed.

End Overlap.

(* ================================================================== *)
(** ** Counts that give no column; one hundred percent *)

Section NegativeCounts.
Local Open Scope Z_scope.

(** A negative integer above [-2^53] is a finite float that is not zero. *)
Lemma SF_of_Z_small_neg (p : positive) :
  Zpos p < 2 ^ 53 ->
  exists m e, SF_of_Z (Zneg p) = S754_finite true m e
              /\ valid_binary (S754_finite true m e) = true.
Proof.
  intros Hp. destruct (SF_of_Z_small Hp) as (m & e & Hm & Hv & _).
  exists m, e. split; [|exact Hv].
  unfold SF_of_Z, binary_normalize, binary_round, binary_round_aux in *.
  destruct (shl_align p 0 _) as [mz ez].
  destruct (shr_fexp prec emax (Zpos mz) ez loc_Exact) as [mrs' e'].
  destruct (shr_fexp prec emax _ e' loc_Exact) as [mrs'' e''].
  destruct (shr_m mrs'') as [|q|q]; try discriminate.
  destruct (e'' <=? emax - prec); [|discriminate].
  injection Hm as -> ->. reflexivity.
Qed.

Lemma float_of_int_small_neg (n : Z) :
  - 2 ^ 53 < n < 0 ->
  exists f, float_of_int n = Ok f /\ PrimFloat.eqb f 0 = false.
Proof.
  intros [Hlo Hhi]. destruct n as [|p|p]; [lia|lia|].
  destruct (@SF_of_Z_small_neg p ltac:(lia)) as (m & e & Hm & Hv).
  exists (SF2Prim (S754_finite true m e)). split.
  - unfold float_of_int. rewrite Hm. reflexivity.
  - rewrite FloatAxioms.eqb_spec, (Prim2SF_SF2Prim _ Hv). reflexivity.
Qed.

End NegativeCounts.

Section EqualColumnsEdges.

(** X11. [equal_columns] with the count 0 raises [ZeroDivisionError],
    whatever the width; with a negative count (above [-2^53]) it returns no
    column at all. *)
Theorem equal_columns_no_columns (W : float) (n : Z) :
  (n = 0%Z -> equal_columns W n = Raise ZeroDivisionError)
  /\ ((- 2 ^ 53 < n < 0)%Z -> equal_columns W n = Ok []).
Proof.
  split.
  - intros ->. reflexivity.
  - intros Hn. unfold equal_columns.
    destruct (float_of_int_small_neg Hn) as (f & -> & Hf). cbn [bind].
    unfold py_div. rewrite Hf. cbn [bind].
    unfold range. replace (Z.to_nat (n - 0)) with 0%nat by lia. reflexivity.
Qed.

End EqualColumnsEdges.

Section TimesOne.
Local Open Scope Z_scope.

Lemma digits2_mul_pow (m : positive) :
  Zpos (digits2_pos (4503599627370496 * m)) = Zpos (digits2_pos m) + 52.
Proof.
  pose proof (@digits2_bounds m) as [Hlo Hhi].
  set (d := Zpos (digits2_pos m)) in *.
  assert (Hd : 1 <= d) by (unfold d; lia).
  assert (HP : Zpos (4503599627370496 * m) = 2 ^ 52 * Zpos m) by reflexivity.
  apply Z.le_antisymm.
  - apply digits2_le. rewrite HP, Z.pow_add_r by lia. lia.
  - replace (d + 52) with ((d - 1 + 52) + 1) by lia.
    apply digits2_ge. rewrite HP, Z.pow_add_r by lia. lia.
Qed.

Lemma rounds_to_unique (P n M1 M2 : Z) :
  0 <= n -> rounds_to P n M1 -> rounds_to P n M2 -> M1 = M2.
Proof.
  intros Hn H1 H2. apply Z.le_antisymm.
  - apply (@rounds_to_mono P n M1 P n M2); auto. lia.
  - apply (@rounds_to_mono P n M2 P n M1); auto. lia.
Qed.

(** One times a float is that float. *)
Lemma mul_one_l (W : float) : (1 * W)%float = W.
Proof.
  apply Prim2SF_inj. rewrite mul_spec.
  change (Prim2SF 1) with (S754_finite false 4503599627370496 (-52)).
  pose proof (Prim2SF_valid W) as Hv.
  destruct (Prim2SF W) as [s|s| |s m e]; try reflexivity.
  unfold SF64mul. cbn [SFmul xorb].
  unfold SpecFloat.valid_binary, bounded, canonical_mantissa in Hv.
  apply andb_true_iff in Hv. destruct Hv as [Hc Hb].
  apply Z.eqb_eq in Hc. apply Z.leb_le in Hb.
  destruct (@binary_round_aux_finish s (4503599627370496 * m) (-52 + e))
    as (M & Hrt & _ & _ & ->).
  { rewrite digits2_mul_pow.
    replace (Zpos (digits2_pos m) + 52 + (-52 + e)) with (Zpos (digits2_pos m) + e) by lia.
    rewrite Hc. lia. }
  rewrite digits2_mul_pow in *.
  replace (Zpos (digits2_pos m) + 52 + (-52 + e)) with (Zpos (digits2_pos m) + e) in * by lia.
  rewrite Hc in *.
  replace (e - (-52 + e)) with 52 in Hrt by lia.
  assert (HM : M = Zpos m).
  { apply (@rounds_to_unique (Zpos (4503599627370496 * m)) 52); [lia|exact Hrt|].
    replace (Zpos (4503599627370496 * m)) with (Zpos m * 2 ^ 52) by (rewrite Z.mul_comm; reflexivity).
    apply rounds_to_grid. lia. }
  subst M. unfold finish.
  assert (Hm53 : Zpos m < 2 ^ 53).
  { pose proof (@digits2_bounds m) as [_ Hhi].
    assert (Zpos (digits2_pos m) <= 53).
    { rewrite fexp_eq in Hc. lia. }
    assert (2 ^ Zpos (digits2_pos m) <= 2 ^ 53) by (apply Z.pow_le_mono_r; lia).
    lia. }
  replace (Zpos m =? 2 ^ 53) with false by (symmetry; apply Z.eqb_neq; lia).
  replace (e <=? 971) with true by (symmetry; apply Z.leb_le; exact Hb).
  reflexivity.
Qed.

End TimesOne.

Section FullWidth.
Context {RT : Runtime}.

(** X5. A coordinate of 100 percent is the reference width itself, without
    rounding. *)
Theorem _parse_coord_full_width (token : str) (width : float) :
  endswith percent (strip token) = true ->
  float_of_str (drop_last (strip token)) = Some 100%float ->
  _parse_coord token width = Ok width.
Proof.
  intros Hp Hf. unfold _parse_coord. rewrite Hp, Hf.
  replace (100 / 100)%float with 1%float by (vm_compute; reflexivity).
  rewrite mul_one_l. reflexivity.
Qed.

End FullWidth.

(* ================================================================== *)
(** ** Font names *)

Section Substrings.

Lemma startswith_spec (p s : str) :
  startswith p s = true <-> exists r, s = p ++ r.
Proof.
  revert s. induction p as [|a p IH]; intros s.
  - simpl. split; [intros _; exists s; reflexivity | reflexivity].
  - destruct s as [|b s]; simpl.
    + split; [discriminate | intros [r H]; discriminate].
    + rewrite andb_true_iff, N.eqb_eq, IH. split.
      * intros [-> [r ->]]. exists r. reflexivity.
      * intros [r H]. injection H as -> ->. split; [reflexivity | eauto].
Qed.

Lemma contains_str_spec (p s : str) :
  contains_str p s = true <-> substring p s.
Proof.
  unfold substring. induction s as [|c s IH].
  - simpl. rewrite orb_false_r, startswith_spec. split.
    + intros [r H]. exists [], r. exact H.
    + intros (l & r & H). destruct l as [|x l]; [|discriminate].
      exists r. exact H.
  - cbn [contains_str]. rewrite orb_true_iff, startswith_spec, IH. split.
    + intros [[r H]|(l & r & H)].
      * exists [], r. exact H.
      * exists (c :: l), r. rewrite H. reflexivity.
    + intros (l & r & H). destruct l as [|x l].
      * left. exists r. exact H.
      * right. injection H as -> ->. eauto.
Qed.

Lemma substring_longer (a p b s : str) :
  substring (a ++ p ++ b) s -> substring p s.
Proof.
  intros (l & r & ->). exists (l ++ a), (b ++ r).
  rewrite <- !app_assoc. reflexivity.
Qed.

End Substrings.

Section LooksBold.
Context {RT : Runtime}.

(** X12. A font name looks bold exactly when it is not empty and its
    lower-case form holds one of ["bold"], ["bd"], ["black"], ["heavy"],
    ["demi"]; the tokens ["semibold"] and ["mediumbold"] add nothing, as
    they hold ["bold"]. *)
Theorem _looks_bold_substring (fontname : str) :
  _looks_bold fontname = true <->
  fontname <> []
  /\ exists tok, In tok bold_tokens_minimal /\ substring tok (lower fontname).
Proof.
  unfold _looks_bold. destruct fontname as [|c f].
  - simpl. split; [discriminate | intros [H _]; congruence].
  - cbn [is_empty]. rewrite existsb_exists. split.
    + intros (tok & Hin & Hc). split; [discriminate|].
      apply contains_str_spec in Hc.
      simpl in Hin.
      destruct Hin as [<-|[<-|[<-|[<-|[<-|[<-|[<-|[]]]]]]]].
      * exists (lit "bold"). split; [simpl; auto | exact Hc].
      * exists (lit "bd"). split; [simpl; auto | exact Hc].
      * exists (lit "black"). split; [simpl; auto | exact Hc].
      * exists (lit "heavy"). split; [simpl; auto | exact Hc].
      * exists (lit "bold"). split; [simpl; auto|].
        apply (@substring_longer (lit "semi") (lit "bold") []).
        exact Hc.
      * exists (lit "demi"). split; [simpl; auto 6 | exact Hc].
      * exists (lit "bold"). split; [simpl; auto|].
        apply (@substring_longer (lit "medium") (lit "bold") []).
        exact Hc.
    + intros (_ & tok & Hin & Hs). exists tok.
      split; [|apply contains_str_spec; exact Hs].
      simpl in Hin. destruct Hin as [<-|[<-|[<-|[<-|[<-|[]]]]]]; simpl; auto 10.
Qed.

End LooksBold.

(* ================================================================== *)
(** ** Grouping glyphs into lines *)

Section SortedAny.
Variables (A K : Type) (lt : K -> K -> bool) (key : A -> K).

Lemma insert_by_any_perm (x : A) (l : list A) :
  Permutation (insert_by lt key x l) (x :: l).
Proof.
  induction l as [|y l IH]; simpl.
  - reflexivity.
  - destruct (lt (key x) (key y)).
    + reflexivity.
    + rewrite IH. apply perm_swap.
Qed.

Lemma fold_insert_any_perm (l acc : list A) :
  Permutation (fold_left (fun acc x => insert_by lt key x acc) l acc)
              (acc ++ l).
Proof.
  revert acc. induction l as [|x l IH]; intros acc; simpl.
  - rewrite app_nil_r. reflexivity.
  - rewrite IH, insert_by_any_perm.
    change (x :: acc) with ([x] ++ acc).
    rewrite (Permutation_app_comm [x] acc), <- app_assoc. reflexivity.
Qed.

(** [sorted_by] rearranges its input, whatever the order of the keys. *)
Lemma sorted_by_any_perm (l : list A) : Permutation (sorted_by lt key l) l.
Proof. unfold sorted_by. apply (fold_insert_any_perm l []). Qed.

End SortedAny.

Section Grouping.
Context {RT : Runtime}.
Variable line_tol : float.

Lemma sort_by_x0_perm (l : list glyph) : Permutation (sort_by_x0 l) l.
Proof. apply sorted_by_any_perm. Qed.

Lemma sort_by_x0_nonempty (l : list glyph) : l <> [] -> sort_by_x0 l <> [].
Proof.
  intros Hne E. pose proof (sort_by_x0_perm l) as Hp.
  rewrite E in Hp. apply Permutation_nil in Hp. contradiction.
Qed.

Lemma group_loop_perm (cs : list glyph) (lines : list (list glyph))
    (cur : list glyph) (top : option float) :
  group_state cur top ->
  Permutation (List.concat (group_loop line_tol cs lines cur top))
              (List.concat lines ++ cur ++ cs).
Proof.
  revert lines cur top. induction cs as [|ch rest IH]; intros lines cur top Hst.
  - cbn [group_loop]. destruct cur as [|a cur'].
    + rewrite !app_nil_r. reflexivity.
    + rewrite concat_app. simpl. rewrite !app_nil_r.
      apply Permutation_app_head. apply sort_by_x0_perm.
  - cbn [group_loop]. destruct cur as [|a cur'].
    + rewrite IH by reflexivity. reflexivity.
    + simpl in Hst. subst top.
      destruct (py_gt (abs (get_or 0 (g_top ch) - top_of a)) line_tol).
      * rewrite IH by reflexivity.
        rewrite concat_app. simpl. rewrite app_nil_r, <- !app_assoc.
        apply Permutation_app_head.
        change (a :: cur' ++ ch :: rest) with ((a :: cur') ++ ch :: rest).
        apply Permutation_app; [apply sort_by_x0_perm | reflexivity].
      * rewrite IH by reflexivity.
        rewrite <- !app_assoc. reflexivity.
Qed.

Lemma group_loop_nonempty (cs : list glyph) (lines : list (list glyph))
    (cur : list glyph) (top : option float) :
  Forall (fun l => l <> []) lines ->
  Forall (fun l => l <> []) (group_loop line_tol cs lines cur top).
Proof.
  revert lines cur top. induction cs as [|ch rest IH]; intros lines cur top Hl.
  - cbn [group_loop]. destruct cur as [|a cur']; [exact Hl|].
    apply Forall_app. split; [exact Hl|]. constructor; [|constructor].
    apply sort_by_x0_nonempty. discriminate.
  - cbn [group_loop]. destruct cur as [|a cur']; [apply IH; exact Hl|].
    destruct top as [top0|]; [|apply IH; exact Hl].
    destruct (py_gt (abs (get_or 0 (g_top ch) - top0)) line_tol).
    + apply IH. apply Forall_app. split; [exact Hl|].
      constructor; [|constructor]. apply sort_by_x0_nonempty. discriminate.
    + apply IH. exact Hl.
Qed.

Lemma group_loop_sorted (cs : list glyph) (lines : list (list glyph))
    (cur : list glyph) (top : option float) :
  Forall (fun ch => is_nan (x0_of ch) = false) cs ->
  Forall (fun ch => is_nan (x0_of ch) = false) cur ->
  Forall (Sorted (fun a b => py_le (x0_of a) (x0_of b) = true)) lines ->
  Forall (Sorted (fun a b => py_le (x0_of a) (x0_of b) = true))
         (group_loop line_tol cs lines cur top).
Proof.
  intros Hcs. revert lines cur top.
  induction Hcs as [|ch rest Hch Hrest IH]; intros lines cur top Hcur Hl.
  - cbn [group_loop]. destruct cur as [|a cur']; [exact Hl|].
    apply Forall_app. split; [exact Hl|]. constructor; [|constructor].
    apply (sorted_by_Sorted x0_of). exact Hcur.
  - cbn [group_loop].
    assert (Hone : Forall (fun c => is_nan (x0_of c) = false) [ch])
      by (constructor; [exact Hch | constructor]).
    destruct cur as [|a cur']; [apply IH; assumption|].
    destruct top as [top0|]; [|apply IH; assumption].
    destruct (py_gt (abs (get_or 0 (g_top ch) - top0)) line_tol).
    + apply IH; [exact Hone|].
      apply Forall_app. split; [exact Hl|]. constructor; [|constructor].
      apply (sorted_by_Sorted x0_of). exact Hcur.
    + apply IH; [|exact Hl]. apply Forall_app. split; assumption.
Qed.

Lemma anchored_perm (l l' : list glyph) (a : glyph) :
  Permutation l l' -> anchored line_tol l a -> anchored line_tol l' a.
Proof.
  intros Hp [Hin Hall]. split.
  - apply (Permutation_in _ Hp Hin).
  - apply (Permutation_Forall Hp Hall).
Qed.

Lemma neighbours_snoc {A} (R : A -> A -> Prop) (l : list A) (x y : A) :
  neighbours R (l ++ [x]) -> R x y -> neighbours R ((l ++ [x]) ++ [y]).
Proof.
  intros Hl Hxy. apply Sorted_neighbours. apply Sorted_neighbours in Hl.
  induction l as [|a l IH].
  - simpl. repeat constructor. exact Hxy.
  - inversion Hl as [|? ? Hs Hh]; subst.
    change (((a :: l) ++ [x]) ++ [y]) with (a :: ((l ++ [x]) ++ [y])).
    constructor; [apply IH; exact Hs|].
    destruct l; simpl in *; inversion Hh; subst; constructor; assumption.
Qed.

(** The invariant of the loop: the finished lines have anchors, and the
    line under construction is anchored at its first glyph, which lies
    beyond the tolerance from the last finished line's anchor. *)
Lemma group_loop_anchors (cs : list glyph) (lines : list (list glyph))
    (anchors : list glyph) (cur : list glyph) (top : option float) :
  group_state cur top ->
  Forall2 (anchored line_tol) lines anchors ->
  match cur with
  | [] => anchors = []
  | a :: _ => anchored line_tol cur a
              /\ neighbours (beyond line_tol) (anchors ++ [a])
  end ->
  exists anchors',
    anchors_ok line_tol (group_loop line_tol cs lines cur top) anchors'.
Proof.
  revert lines anchors cur top.
  induction cs as [|ch rest IH]; intros lines anchors cur top Hst Hl Hcur.
  - cbn [group_loop]. destruct cur as [|a cur'].
    + subst anchors. exists []. split; [exact Hl|].
      apply neighbours_short. simpl. lia.
    + destruct Hcur as [Ha Hn]. exists (anchors ++ [a]). split; [|exact Hn].
      apply Forall2_app; [exact Hl|]. constructor; [|constructor].
      apply (anchored_perm (Permutation_sym (sort_by_x0_perm (a :: cur'))) Ha).
  - assert (Hone : anchored line_tol [ch] ch).
    { split; [left; reflexivity|].
      constructor; [left; reflexivity | constructor]. }
    cbn [group_loop]. destruct cur as [|a cur'].
    + subst anchors.
      apply (IH lines [] [ch] (Some (get_or 0 (g_top ch)))).
      * reflexivity.
      * exact Hl.
      * split; [exact Hone|]. apply neighbours_short. simpl. lia.
    + simpl in Hst. subst top. destruct Hcur as [Ha Hn].
      destruct (py_gt (abs (get_or 0 (g_top ch) - top_of a)) line_tol) eqn:E.
      * apply (IH (lines ++ [sort_by_x0 (a :: cur')]) (anchors ++ [a]) [ch]
                  (Some (get_or 0 (g_top ch)))).
        -- reflexivity.
        -- apply Forall2_app; [exact Hl|]. constructor; [|constructor].
           apply (anchored_perm
                    (Permutation_sym (sort_by_x0_perm (a :: cur'))) Ha).
        -- split; [exact Hone|].
           apply neighbours_snoc; [exact Hn | exact E].
      * apply (IH lines anchors ((a :: cur') ++ [ch]) (Some (top_of a))).
        -- reflexivity.
        -- exact Hl.
        -- split; [|exact Hn]. destruct Ha as [Hin Hall]. split.
           ++ left. reflexivity.
           ++ apply Forall_app. split; [exact Hall|].
              constructor; [right; exact E | constructor].
Qed.

End Grouping.

Section GroupingTheorems.
Context {RT : Runtime}.

(** X13. Grouping loses no glyph and invents none: the lines, one after
    the other, are a rearrangement of the glyphs given, and no line is
    empty. *)
Theorem _group_chars_into_lines_partition (chars : list glyph) (line_tol : float) :
  Permutation (List.concat (_group_chars_into_lines chars line_tol)) chars
  /\ Forall (fun l => l <> []) (_group_chars_into_lines chars line_tol).
Proof.
  unfold _group_chars_into_lines. destruct chars as [|c chars].
  - split; [reflexivity | constructor].
  - split.
    + rewrite group_loop_perm by exact I. simpl.
      apply sorted_by_any_perm.
    + apply group_loop_nonempty. constructor.
Qed.

(** X14. When no glyph has a NaN left edge, the glyphs of every line are
    in ascending order of their left edges (a missing edge reads 0.0). *)
Theorem _group_chars_into_lines_left_to_right
    (chars : list glyph) (line_tol : float) :
  Forall (fun ch => is_nan (x0_of ch) = false) chars ->
  Forall (fun l => neighbours (fun a b => py_le (x0_of a) (x0_of b) = true) l)
         (_group_chars_into_lines chars line_tol).
Proof.
  intros Hnan.
  assert (H : Forall (Sorted (fun a b => py_le (x0_of a) (x0_of b) = true))
                     (_group_chars_into_lines chars line_tol)).
  { unfold _group_chars_into_lines. destruct chars as [|c chars]; [constructor|].
    apply group_loop_sorted; [|constructor|constructor].
    eapply Permutation_Forall; [|exact Hnan].
    apply Permutation_sym, sorted_by_any_perm. }
  eapply Forall_impl; [|exact H].
  intros l Hl. apply Sorted_neighbours. exact Hl.
Qed.

(** X15. Every line has an anchor glyph of its own from which none of its
    glyphs is further than the tolerance, by the ["top"] coordinate, and the
    anchor of each line is further than the tolerance from the anchor of the
    line before. *)
Theorem _group_chars_into_lines_tolerance (chars : list glyph) (line_tol : float) :
  exists anchors,
    Forall2 (anchored line_tol) (_group_chars_into_lines chars line_tol) anchors
    /\ neighbours (beyond line_tol) anchors.
Proof.
  unfold _group_chars_into_lines. destruct chars as [|c chars].
  - exists []. split; [constructor | apply neighbours_short; simpl; lia].
  - apply group_loop_anchors with (anchors := []);
      [exact I | constructor | reflexivity].
Qed.

End GroupingTheorems.

(* ================================================================== *)
(** ** Line reconstruction: texts, weights and markers *)

Section Tagging.
Context {RT : Runtime}.
Variable gap_ratio : float.

Lemma tagged_app (b : bool) (l1 l2 : list piece) (b' : bool) :
  bold_run b l1 = Some b' ->
  tagged b (l1 ++ l2) = tagged b l1 ++ tagged b' l2.
Proof.
  revert b. induction l1 as [|p l1 IH]; intros b; simpl.
  - intros H. injection H as <-. reflexivity.
  - destruct p, b; simpl; try discriminate; intros H;
      rewrite ?(IH _ H); reflexivity.
Qed.

Lemma tagged_emitted (st : rstate) (ch : glyph) :
  tagged (in_bold st) (emitted gap_ratio st ch)
  = [(g_text ch, _looks_bold (g_fontname ch))].
Proof.
  unfold emitted, marker_change.
  destruct (wants_space gap_ratio (prev_x1 st) (prev_w st) ch),
    (_looks_bold (g_fontname ch)), (in_bold st); reflexivity.
Qed.

Lemma count_open_app (l1 l2 : list piece) :
  count_open (l1 ++ l2) = (count_open l1 + count_open l2)%nat.
Proof. induction l1 as [|[] l1 IH]; simpl; rewrite ?IH; reflexivity. Qed.

Lemma count_close_app (l1 l2 : list piece) :
  count_close (l1 ++ l2) = (count_close l1 + count_close l2)%nat.
Proof. induction l1 as [|[] l1 IH]; simpl; rewrite ?IH; reflexivity. Qed.

Lemma count_open_emitted (st : rstate) (ch : glyph) :
  count_open (emitted gap_ratio st ch)
  = if _looks_bold (g_fontname ch) && negb (in_bold st) then 1%nat else 0%nat.
Proof.
  unfold emitted, marker_change.
  destruct (wants_space gap_ratio (prev_x1 st) (prev_w st) ch),
    (_looks_bold (g_fontname ch)), (in_bold st); reflexivity.
Qed.

(** In balanced markup every [<bold>] has its [</bold>]. *)
Lemma bold_run_counts (b b' : bool) (ps : list piece) :
  bold_run b ps = Some b' ->
  (count_open ps + (if b then 1 else 0)
   = count_close ps + (if b' then 1 else 0))%nat.
Proof.
  revert b. induction ps as [|p ps IH]; intros b; simpl.
  - intros H. injection H as <-. lia.
  - destruct p, b; simpl; try discriminate; intros H;
      specialize (IH _ H); simpl in IH; lia.
Qed.

(** What the loop has written: the texts of the glyphs with text, each in
    the bold state of its font, and one [<bold>] per run of bold glyphs. *)
Lemma fold_rstep_tagged (l : list glyph) (st : rstate) :
  bold_run false (out st) = Some (in_bold st) ->
  tagged false (out (fold_left (rstep gap_ratio) l st))
  = tagged false (out st)
    ++ map (fun ch => (g_text ch, _looks_bold (g_fontname ch)))
           (filter has_text l)
  /\ count_open (out (fold_left (rstep gap_ratio) l st))
     = (count_open (out st) + runs_of_true (in_bold st) (weights l))%nat.
Proof.
  revert st. induction l as [|g l IH]; intros st Hst.
  - simpl. rewrite app_nil_r. split; [reflexivity | unfold weights; simpl; lia].
  - cbn [fold_left]. unfold weights. cbn [filter].
    destruct (has_text g) eqn:E.
    + assert (Hst' : bold_run false (out (rstep gap_ratio st g))
                     = Some (in_bold (rstep gap_ratio st g)))
        by (apply rstep_bold_run; exact Hst).
      destruct (IH _ Hst') as [IH1 IH2].
      rewrite IH1, IH2. rewrite (rstep_has_text gap_ratio st g E).
      cbn [out in_bold map runs_of_true].
      rewrite (@tagged_app _ _ _ _ Hst), tagged_emitted.
      rewrite count_open_app, count_open_emitted.
      split.
      * rewrite <- app_assoc. reflexivity.
      * unfold weights. lia.
    + rewrite (rstep_no_text gap_ratio st g E). apply IH. exact Hst.
Qed.

(** X16. Every glyph with text has its text in the line once, in the order
    of the glyphs, and inside a bold run exactly when its font looks bold;
    nothing but spaces and the two markers is added. *)
Theorem reconstruct_line_text_and_weight (l : list glyph) :
  _reconstruct_line_with_bold l gap_ratio
  = concat_all (map render (reconstruct_pieces l gap_ratio))
  /\ tagged false (reconstruct_pieces l gap_ratio)
     = map (fun ch => (g_text ch, _looks_bold (g_fontname ch)))
           (filter has_text l).
Proof.
  split; [apply render_reconstruct|].
  unfold reconstruct_pieces.
  pose proof (fold_rstep_bold_run gap_ratio l rstate0 eq_refl) as Hb.
  destruct (@fold_rstep_tagged l rstate0 eq_refl) as [Ht _].
  destruct (in_bold (fold_left (rstep gap_ratio) l rstate0)).
  - rewrite (@tagged_app _ _ _ _ Hb), Ht. simpl. rewrite app_nil_r. reflexivity.
  - exact Ht.
Qed.

(** X17. The markers are as few as can be: the line holds one [<bold>] and
    one [</bold>] for every maximal run of glyphs (with text) in a font that
    looks bold, so that no run is closed and opened again in its middle. *)
Theorem reconstruct_line_one_marker_pair_per_run (l : list glyph) :
  count_open (reconstruct_pieces l gap_ratio) = runs_of_true false (weights l)
  /\ count_close (reconstruct_pieces l gap_ratio)
     = runs_of_true false (weights l).
Proof.
  assert (Ho : count_open (reconstruct_pieces l gap_ratio)
               = runs_of_true false (weights l)).
  { unfold reconstruct_pieces.
    destruct (@fold_rstep_tagged l rstate0 eq_refl) as [_ Hc].
    destruct (in_bold (fold_left (rstep gap_ratio) l rstate0)).
    - rewrite count_open_app, Hc. simpl. lia.
    - rewrite Hc. reflexivity. }
  split; [exact Ho|].
  pose proof (reconstruct_pieces_balanced gap_ratio l) as Hb.
  apply bold_run_counts in Hb. lia.
Qed.

(** The pieces between the texts of two consecutive glyphs with text. *)
Lemma pieces_between (l1 sk l2 : list glyph) (p c : glyph) :
  has_text p = true -> has_text c = true ->
  Forall (fun g => has_text g = false) sk ->
  exists before after,
    loop_out gap_ratio (l1 ++ [p]) = before ++ [Text (g_text p)] /\
    reconstruct_pieces (l1 ++ p :: sk ++ c :: l2) gap_ratio
    = before ++ Text (g_text p)
        :: ((if wants_space gap_ratio (g_x1 p) (glyph_w p) c
             then [Space] else [])
            ++ marker_change (_looks_bold (g_fontname c))
                 (_looks_bold (g_fontname p)))
        ++ Text (g_text c) :: after.
Proof.
  intros Hp Hc Hsk.
  set (st1 := fold_left (rstep gap_ratio) l1 rstate0).
  assert (Hlp : loop_out gap_ratio (l1 ++ [p])
                = (out st1
                   ++ (if wants_space gap_ratio (prev_x1 st1) (prev_w st1) p
                       then [Space] else [])
                   ++ marker_change (_looks_bold (g_fontname p)) (in_bold st1))
                  ++ [Text (g_text p)]).
  { unfold loop_out. rewrite fold_left_app. simpl. fold st1.
    rewrite (rstep_has_text gap_ratio st1 p Hp). simpl.
    unfold emitted. rewrite <- !app_assoc. reflexivity. }
  destruct (fold_rstep_out_prefix gap_ratio l2
              (fold_left (rstep gap_ratio) (l1 ++ p :: sk ++ [c]) rstate0))
    as [more Hmore].
  assert (Hwhole : exists after,
             reconstruct_pieces (l1 ++ p :: sk ++ c :: l2) gap_ratio
             = loop_out gap_ratio (l1 ++ p :: sk ++ [c]) ++ after).
  { unfold reconstruct_pieces, loop_out.
    replace (l1 ++ p :: sk ++ c :: l2) with ((l1 ++ p :: sk ++ [c]) ++ l2)
      by (rewrite <- !app_assoc; simpl; rewrite <- app_assoc; reflexivity).
    rewrite fold_left_app, Hmore. clear Hlp Hmore.
    destruct (in_bold _).
    - exists (more ++ [BoldClose]). rewrite app_assoc. reflexivity.
    - exists more. reflexivity. }
  destruct Hwhole as [after Hafter].
  rewrite (@loop_out_next RT gap_ratio l1 sk p c Hp Hc Hsk), Hlp in Hafter.
  eexists _, after. split; [exact Hlp|].
  rewrite Hafter. rewrite <- !app_assoc. reflexivity.
Qed.

(** X18. No space is written before the first glyph with text, and none
    between two consecutive glyphs with text when the right edge of the
    first or the left edge of the second is missing. *)
Theorem reconstruct_line_no_space_without_edges :
  (forall sk c l2,
      Forall (fun g => has_text g = false) sk -> has_text c = true ->
      exists after,
        reconstruct_pieces (sk ++ c :: l2) gap_ratio
        = marker_change (_looks_bold (g_fontname c)) false
          ++ Text (g_text c) :: after)
  /\ (forall l1 sk l2 p c,
        has_text p = true -> has_text c = true ->
        Forall (fun g => has_text g = false) sk ->
        g_x1 p = None \/ g_x0 c = None ->
        exists before between after,
          loop_out gap_ratio (l1 ++ [p]) = before ++ [Text (g_text p)] /\
          reconstruct_pieces (l1 ++ p :: sk ++ c :: l2) gap_ratio
          = before ++ Text (g_text p) :: between ++ Text (g_text c) :: after /\
          Forall not_text between /\ count_spaces between = 0%nat).
Proof.
  split.
  - intros sk c l2 Hsk Hc.
    destruct (fold_rstep_out_prefix gap_ratio l2
                (fold_left (rstep gap_ratio) (sk ++ [c]) rstate0))
      as [more Hmore].
    assert (Hout : out (fold_left (rstep gap_ratio) (sk ++ [c]) rstate0)
                   = marker_change (_looks_bold (g_fontname c)) false
                     ++ [Text (g_text c)]).
    { rewrite fold_left_app, (fold_rstep_skipped gap_ratio rstate0 Hsk).
      simpl. rewrite (rstep_has_text gap_ratio rstate0 c Hc). reflexivity. }
    unfold reconstruct_pieces.
    replace (sk ++ c :: l2) with ((sk ++ [c]) ++ l2)
      by (rewrite <- app_assoc; reflexivity).
    rewrite fold_left_app, Hmore, Hout. clear Hmore Hout.
    destruct (in_bold _).
    + exists (more ++ [BoldClose]). rewrite <- !app_assoc. reflexivity.
    + exists more. rewrite <- !app_assoc. reflexivity.
  - intros l1 sk l2 p c Hp Hc Hsk Hedge.
    destruct (@pieces_between l1 sk l2 p c Hp Hc Hsk)
      as (before & after & Hlp & Hpieces).
    assert (Hw : wants_space gap_ratio (g_x1 p) (glyph_w p) c = false).
    { unfold wants_space. destruct Hedge as [-> | ->]; [reflexivity|].
      destruct (g_x1 p); reflexivity. }
    rewrite Hw in Hpieces. simpl in Hpieces.
    exists before, (marker_change (_looks_bold (g_fontname c))
                      (_looks_bold (g_fontname p))), after.
    split; [exact Hlp|]. split; [exact Hpieces|].
    destruct (marker_change_no_space (_looks_bold (g_fontname c))
                (_looks_bold (g_fontname p))) as [H0 Ht].
    split; assumption.
Qed.

End Tagging.

(* ================================================================== *)
(** ** Columns of a page and pages of a document *)

Section Clamp.

Lemma py_lt_false_cases (a b : float) :
  py_lt a b = false ->
  is_nan a = true \/ is_nan b = true \/ ~ rank_lt (rk a) (rk b).
Proof.
  intros H. destruct (is_nan a) eqn:Ea; [auto|].
  destruct (is_nan b) eqn:Eb; [auto|].
  right. right. apply (@py_lt_false a b Ea Eb). exact H.
Qed.

Lemma rk_zero : rk 0%float = (0, (0, 0))%Z.
Proof. reflexivity. Qed.

Ltac float_facts :=
  repeat match goal with
         | H : py_lt _ _ = true |- _ =>
             apply py_lt_spec in H; destruct H as (? & ? & ?)
         | H : py_le _ _ = true |- _ =>
             apply py_le_spec in H; destruct H as (? & ? & ?)
         | H : py_lt _ _ = false |- _ =>
             apply py_lt_false_cases in H; destruct H as [H|[H|H]]
         end.

Ltac float_order :=
  float_facts;
  try congruence;
  try match goal with
      | H : is_nan 0%float = true |- _ => vm_compute in H; discriminate
      end;
  apply py_le_spec;
  (split; [first [assumption | reflexivity]|]);
  (split; [first [assumption | reflexivity]|]);
  rewrite ?rk_zero in *; unfold rank_lt in *; simpl in *; lia.

(** A box left of the page, right of it, or ending where it starts or
    before, is empty once cut to the page. *)
Lemma clamp_empty (W x0 x1 : float) :
  py_le x1 0 = true \/ py_le W x0 = true \/ py_le x1 x0 = true ->
  py_le (clamp W x1) (clamp W x0) = true.
Proof.
  intros H. unfold clamp, py_max, py_min, py_gt.
  repeat match goal with
         | |- context [PrimFloat.ltb ?a ?b] =>
             change (PrimFloat.ltb a b) with (py_lt a b)
         end.
  destruct (py_lt x1 W) eqn:E1, (py_lt x0 W) eqn:E0.
  - destruct (py_lt 0 x1) eqn:P1, (py_lt 0 x0) eqn:P0;
      destruct H as [H|[H|H]]; float_order.
  - destruct (py_lt 0 x1) eqn:P1, (py_lt 0 W) eqn:PW;
      destruct H as [H|[H|H]]; float_order.
  - destruct (py_lt 0 W) eqn:PW, (py_lt 0 x0) eqn:P0;
      destruct H as [H|[H|H]]; float_order.
  - destruct (py_lt 0 W) eqn:PW;
      destruct H as [H|[H|H]]; float_order.
Qed.

End Clamp.

Section Columns.
Context {RT : Runtime}.

Lemma columns_loop_skip (pg : page) (W y0 y1 line_tol : float)
    (pre post : list box) (x0 x1 : float) :
  py_le (clamp W x1) (clamp W x0) = true ->
  columns_loop pg W y0 y1 line_tol (pre ++ (x0, x1) :: post)
  = columns_loop pg W y0 y1 line_tol (pre ++ post).
Proof.
  intros H. induction pre as [|[a b] pre IH].
  - simpl. fold (clamp W x0) (clamp W x1). rewrite H. reflexivity.
  - change (((a, b) :: pre) ++ (x0, x1) :: post)
      with ((a, b) :: (pre ++ (x0, x1) :: post)).
    change (((a, b) :: pre) ++ post) with ((a, b) :: (pre ++ post)).
    cbn [columns_loop]. rewrite IH. reflexivity.
Qed.

Lemma extract_text_with_bold_clean_text (pg : page) (bb : bbox)
    (line_tol : float) (t : str) :
  extract_text_with_bold pg bb line_tol = Ok t -> clean_text t.
Proof.
  unfold extract_text_with_bold.
  destruct (crop_chars pg bb) as [chars|e]; simpl; [|discriminate].
  intros H. injection H as <-. apply clean_lines_clean_text.
Qed.

Lemma columns_loop_clean (pg : page) (W y0 y1 line_tol : float)
    (col_boxes : list box) (ts : list str) :
  columns_loop pg W y0 y1 line_tol col_boxes = Ok ts ->
  Forall (fun t => clean_text t /\ t <> []) ts.
Proof.
  revert ts. induction col_boxes as [|[x0 x1] rest IH]; intros ts.
  - simpl. intros H. injection H as <-. constructor.
  - cbn [columns_loop].
    destruct (py_le (py_max 0 (py_min W x1)) (py_max 0 (py_min W x0)));
      [apply IH|].
    destruct (extract_text_with_bold pg _ line_tol) as [t|e] eqn:Et; simpl;
      [|discriminate].
    destruct (columns_loop pg W y0 y1 line_tol rest) as [ts0|e]; simpl;
      [|discriminate].
    intros H. injection H as <-.
    specialize (IH ts0 eq_refl).
    destruct t as [|c t]; [exact IH|]. cbn [is_empty].
    apply extract_text_with_bold_clean_text in Et.
    destruct (clean_text_facts Et) as [Hfix _]. rewrite Hfix.
    constructor; [split; [exact Et | discriminate] | exact IH].
Qed.

Lemma extract_page_columns_clean_text (pg : page) (col_boxes : list box)
    (header_ratio footer_ratio x_tolerance y_tolerance : float) (text : str) :
  extract_page_columns pg col_boxes header_ratio footer_ratio x_tolerance
    y_tolerance = Ok text ->
  clean_text text.
Proof.
  unfold extract_page_columns.
  destruct (py_le _ _).
  - destruct (columns_loop pg _ _ _ _ col_boxes) as [ts|e] eqn:E; simpl;
      [|discriminate].
    intros H. injection H as <-. apply clean_text_join.
    apply columns_loop_clean in E.
    rewrite Forall_forall in *. intros t Ht. apply filter_In in Ht.
    apply E. tauto.
  - destruct (columns_loop pg _ _ _ _ col_boxes) as [ts|e] eqn:E; simpl;
      [|discriminate].
    intros H. injection H as <-. apply clean_text_join.
    apply columns_loop_clean in E.
    rewrite Forall_forall in *. intros t Ht. apply filter_In in Ht.
    apply E. tauto.
Qed.

Lemma extract_text_with_bold_Raise (pg : page) (bb : bbox) (line_tol : float)
    (e : exn) :
  extract_text_with_bold pg bb line_tol = Raise e -> crop_chars pg bb = Raise e.
Proof.
  unfold extract_text_with_bold.
  destruct (crop_chars pg bb) as [chars|e']; simpl; [discriminate|].
  intros H. injection H as ->. reflexivity.
Qed.

Lemma columns_loop_Raise (pg : page) (W y0 y1 line_tol : float)
    (col_boxes : list box) (e : exn) :
  columns_loop pg W y0 y1 line_tol col_boxes = Raise e ->
  exists bb, crop_chars pg bb = Raise e.
Proof.
  induction col_boxes as [|[x0 x1] rest IH]; [discriminate|].
  cbn [columns_loop].
  destruct (py_le (py_max 0 (py_min W x1)) (py_max 0 (py_min W x0)));
    [exact IH|].
  destruct (extract_text_with_bold pg _ line_tol) as [t|e'] eqn:Et; simpl.
  - destruct (columns_loop pg W y0 y1 line_tol rest) as [ts0|e']; simpl;
      [discriminate|].
    intros H. injection H as ->. apply IH. reflexivity.
  - intros H. injection H as ->.
    apply extract_text_with_bold_Raise in Et. eauto.
Qed.

Lemma extract_page_columns_Raise (pg : page) (col_boxes : list box)
    (header_ratio footer_ratio x_tolerance y_tolerance : float) (e : exn) :
  extract_page_columns pg col_boxes header_ratio footer_ratio x_tolerance
    y_tolerance = Raise e ->
  exists bb, crop_chars pg bb = Raise e.
Proof.
  unfold extract_page_columns.
  destruct (py_le _ _);
    destruct (columns_loop pg _ _ _ _ col_boxes) as [ts|e'] eqn:E; simpl;
    try discriminate; intros H; injection H as ->;
    apply columns_loop_Raise in E; exact E.
Qed.

(** X19. What [extract_text_with_bold] returns is in the form
    [clean_lines] gives: cleaning it once more, as [extract_page_columns]
    does, changes nothing. *)
Theorem extract_text_with_bold_is_clean (pg : page) (bb : bbox)
    (line_tol : float) (t : str) :
  extract_text_with_bold pg bb line_tol = Ok t -> clean_lines t = t.
Proof.
  intros H. apply extract_text_with_bold_clean_text in H.
  apply (clean_text_facts H).
Qed.

(** X20. A box that lies left of the page ([x1 <= 0]), right of it
    ([W <= x0]) or that ends where it starts or before ([x1 <= x0]) is
    skipped without an error: the page reads as if the box were not in the
    list. *)
Theorem extract_page_columns_skips_empty_boxes
    (pg : page) (pre post : list box) (x0 x1 : float)
    (header_ratio footer_ratio x_tolerance y_tolerance : float) :
  py_le x1 0 = true \/ py_le (page_width pg) x0 = true \/ py_le x1 x0 = true ->
  extract_page_columns pg (pre ++ (x0, x1) :: post) header_ratio footer_ratio
    x_tolerance y_tolerance
  = extract_page_columns pg (pre ++ post) header_ratio footer_ratio
      x_tolerance y_tolerance.
Proof.
  intros H. apply clamp_empty with (W := page_width pg) in H.
  unfold extract_page_columns.
  destruct (py_le (page_height pg * (1 - footer_ratio))
                  (page_height pg * header_ratio));
    rewrite (@columns_loop_skip pg (page_width pg) _ _ _ pre post x0 x1 H);
    reflexivity.
Qed.

End Columns.

Section Joining.

Lemma join_nonempty (sep : str) (ts : list str) :
  Forall (fun t => t <> []) ts -> ts <> [] -> join sep ts <> [].
Proof.
  intros Hall Hne. destruct ts as [|t r]; [contradiction|].
  inversion Hall; subst. rewrite join_cons.
  destruct t; [contradiction | discriminate].
Qed.

Lemma join_app_nonempty (sep : str) (a b : list str) :
  a <> [] -> b <> [] -> join sep (a ++ b) = join sep a ++ sep ++ join sep b.
Proof.
  intros Ha Hb. induction a as [|t [|t2 r] IH]; [contradiction| |].
  - destruct b as [|u b']; [contradiction|]. reflexivity.
  - change ((t :: t2 :: r) ++ b) with (t :: ((t2 :: r) ++ b)).
    rewrite (join_cons sep t ((t2 :: r) ++ b)), IH by discriminate.
    rewrite (join_cons sep t (t2 :: r)).
    simpl. rewrite <- !app_assoc. reflexivity.
Qed.

(** Joining two lists of non-empty texts glues the two joined texts. *)
Lemma join_app_glue (a b : list str) :
  Forall (fun t => t <> []) a -> Forall (fun t => t <> []) b ->
  join [newline; newline] (a ++ b)
  = glue (join [newline; newline] a) (join [newline; newline] b).
Proof.
  intros Ha Hb. destruct a as [|t r].
  - reflexivity.
  - destruct b as [|u b'].
    + rewrite app_nil_r. unfold glue.
      destruct (join [newline; newline] (t :: r)); reflexivity.
    + rewrite join_app_nonempty by discriminate.
      pose proof (join_nonempty [newline; newline] Ha ltac:(discriminate)) as H1.
      pose proof (join_nonempty [newline; newline] Hb ltac:(discriminate)) as H2.
      unfold glue.
      destruct (join [newline; newline] (t :: r)); [contradiction|].
      destruct (join [newline; newline] (u :: b')); [contradiction|].
      reflexivity.
Qed.

Lemma range_app (a b c : Z) :
  (a <= b <= c)%Z -> range a c = range a b ++ range b c.
Proof.
  intros H. unfold range.
  replace (Z.to_nat (c - a)) with (Z.to_nat (b - a) + Z.to_nat (c - b))%nat by lia.
  rewrite seq_app, map_app. f_equal. simpl.
  assert (Hs : forall m s,
             map (fun k => (a + Z.of_nat k)%Z) (seq (Z.to_nat (b - a) + s) m)
             = map (fun k => (b + Z.of_nat k)%Z) (seq s m)).
  { induction m as [|m IH]; intros s; [reflexivity|].
    simpl. f_equal; [lia|].
    rewrite <- IH. f_equal. f_equal. lia. }
  rewrite <- (Hs _ 0%nat). f_equal. f_equal. lia.
Qed.

Lemma range_cons (a b : Z) : (a < b)%Z -> range a b = a :: range (a + 1) b.
Proof.
  intros H. rewrite (@range_app a (a + 1) b) by lia.
  replace (a + 1)%Z with (a + 1 - 1 + 1)%Z at 1 by lia.
  replace a with (a + 1 - 1)%Z at 1 by lia.
  replace (a + 1 - 1 + 1)%Z with (a + 1)%Z by lia.
  rewrite range_one. simpl. f_equal. lia.
Qed.

End Joining.

Section Tolerance.
Context {RT : Runtime}.

(** The loop over the boxes gives the texts of the columns that are not
    empty. *)
Lemma columns_loop_traverse (pg : page) (header_ratio footer_ratio tol : float)
    (col_boxes : list box) :
  columns_loop pg (page_width pg) (fst (band pg header_ratio footer_ratio))
    (snd (band pg header_ratio footer_ratio)) tol col_boxes
  = (texts <- traverse (column_text pg header_ratio footer_ratio tol) col_boxes ;;
     Ok (filter (fun t => negb (is_empty t)) texts)).
Proof.
  induction col_boxes as [|[x0 x1] rest IH]; [reflexivity|].
  cbn [columns_loop traverse]. rewrite IH.
  set (T := traverse (column_text pg header_ratio footer_ratio tol) rest).
  clearbody T. unfold column_text. cbn [fst snd].
  fold (clamp (page_width pg) x0) (clamp (page_width pg) x1).
  destruct (py_le (clamp (page_width pg) x1) (clamp (page_width pg) x0)).
  - cbn [bind]. destruct T; reflexivity.
  - unfold extract_text_with_bold.
    destruct (crop_chars pg _) as [chars|e]; [|reflexivity]. cbn [bind].
    fold (lines_text chars tol).
    destruct T as [texts|e]; [|reflexivity].
    cbn [bind filter].
    assert (Hfix : clean_lines (lines_text chars tol) = lines_text chars tol).
    { apply (clean_text_facts (clean_lines_clean_text _)). }
    destruct (lines_text chars tol) as [|c t] eqn:Et; [reflexivity|].
    cbn [is_empty negb]. rewrite Hfix. reflexivity.
Qed.

(** C9. The lines of every column are grouped with the tolerance
    [max(1.0, y_tolerance)]: the text of the page is made of the texts of
    the columns, each the text of the glyphs in its box grouped with that
    tolerance. So extraction with [y_tolerance] is extraction with
    [max(1.0, y_tolerance)], below 1.0 it is extraction with 1.0, and the
    tolerance applied is never less than 1.0. *)
Theorem extract_page_columns_min_tolerance
    (pg : page) (col_boxes : list box)
    (header_ratio footer_ratio x_tolerance y_tolerance : float) :
  extract_page_columns pg col_boxes header_ratio footer_ratio x_tolerance
    y_tolerance
  = (texts <- traverse (column_text pg header_ratio footer_ratio
                          (py_max 1 y_tolerance)) col_boxes ;;
     Ok (join [newline; newline] (filter (fun t => negb (is_empty t)) texts)))
  /\ extract_page_columns pg col_boxes header_ratio footer_ratio x_tolerance
       y_tolerance
     = extract_page_columns pg col_boxes header_ratio footer_ratio x_tolerance
         (py_max 1 y_tolerance)
  /\ (py_lt y_tolerance 1 = true ->
      extract_page_columns pg col_boxes header_ratio footer_ratio x_tolerance
        y_tolerance
      = extract_page_columns pg col_boxes header_ratio footer_ratio x_tolerance
          1)
  /\ py_lt (py_max 1 y_tolerance) 1 = false.
Proof.
  assert (Hidem : py_max 1 (py_max 1 y_tolerance) = py_max 1 y_tolerance).
  { unfold py_max, py_gt. destruct (PrimFloat.ltb 1 y_tolerance) eqn:E.
    - rewrite E. reflexivity.
    - reflexivity. }
  assert (Hlow : py_lt y_tolerance 1 = true -> py_max 1 y_tolerance = 1%float).
  { intros H. unfold py_max, py_gt.
    apply py_lt_asym in H. unfold py_lt in H. rewrite H. reflexivity. }
  assert (Hspec : forall y,
             extract_page_columns pg col_boxes header_ratio footer_ratio
               x_tolerance y
             = (texts <- traverse (column_text pg header_ratio footer_ratio
                                     (py_max 1 y)) col_boxes ;;
                Ok (join [newline; newline]
                      (filter (fun t => negb (is_empty t)) texts)))).
  { intros y.
    pose proof (columns_loop_traverse pg header_ratio footer_ratio (py_max 1 y)
                  col_boxes) as Hl.
    unfold extract_page_columns. unfold band in Hl.
    destruct (py_le (page_height pg * (1 - footer_ratio))
                    (page_height pg * header_ratio));
      cbn [fst snd] in Hl; rewrite Hl;
      destruct (traverse _ col_boxes) as [texts|e]; cbn [bind];
      rewrite ?filter_idem; reflexivity. }
  split; [apply Hspec|]. split; [|split].
  - rewrite !Hspec, Hidem. reflexivity.
  - intros H. rewrite !Hspec, (Hlow H).
    replace (py_max 1 1) with 1%float by reflexivity. reflexivity.
  - unfold py_max, py_gt. destruct (PrimFloat.ltb 1 y_tolerance) eqn:E.
    + apply py_lt_asym. exact E.
    + reflexivity.
Qed.

End Tolerance.

Section ColumnsCompose.
Context {RT : Runtime}.

Lemma columns_loop_app (pg : page) (W y0 y1 line_tol : float)
    (bs1 bs2 : list box) :
  columns_loop pg W y0 y1 line_tol (bs1 ++ bs2)
  = (a <- columns_loop pg W y0 y1 line_tol bs1 ;;
     b <- columns_loop pg W y0 y1 line_tol bs2 ;;
     Ok (a ++ b)).
Proof.
  induction bs1 as [|[x0 x1] bs1 IH].
  - simpl. destruct (columns_loop pg W y0 y1 line_tol bs2); reflexivity.
  - change (((x0, x1) :: bs1) ++ bs2) with ((x0, x1) :: (bs1 ++ bs2)).
    cbn [columns_loop]. rewrite IH.
    destruct (py_le (py_max 0 (py_min W x1)) (py_max 0 (py_min W x0)));
      [reflexivity|].
    destruct (extract_text_with_bold pg _ line_tol) as [t|e]; simpl;
      [|reflexivity].
    destruct (columns_loop pg W y0 y1 line_tol bs1) as [a|e]; simpl;
      [|reflexivity].
    destruct (columns_loop pg W y0 y1 line_tol bs2) as [b|e]; simpl;
      [|reflexivity].
    destruct (is_empty t); reflexivity.
Qed.

Lemma filter_nonempty_Forall (ts : list str) :
  Forall (fun t => t <> []) (filter (fun t => negb (is_empty t)) ts).
Proof.
  apply Forall_forall. intros t Ht. apply filter_In in Ht.
  destruct Ht as [_ Ht]. destruct t; [discriminate | discriminate].
Qed.

(** X21. The columns of a page are read in the order of the boxes, each
    by itself: the text for two lists of boxes, one after the other, is the
    text for the first list, then the text for the second, with a blank
    line between them when neither is empty; an exception on the first list
    is the exception on both. *)
Theorem extract_page_columns_app (pg : page) (bs1 bs2 : list box)
    (header_ratio footer_ratio x_tolerance y_tolerance : float) :
  (forall t1 t2,
      extract_page_columns pg bs1 header_ratio footer_ratio x_tolerance
        y_tolerance = Ok t1 ->
      extract_page_columns pg bs2 header_ratio footer_ratio x_tolerance
        y_tolerance = Ok t2 ->
      extract_page_columns pg (bs1 ++ bs2) header_ratio footer_ratio
        x_tolerance y_tolerance = Ok (glue t1 t2))
  /\ (forall ex,
        extract_page_columns pg bs1 header_ratio footer_ratio x_tolerance
          y_tolerance = Raise ex ->
        extract_page_columns pg (bs1 ++ bs2) header_ratio footer_ratio
          x_tolerance y_tolerance = Raise ex).
Proof.
  unfold extract_page_columns.
  destruct (py_le (page_height pg * (1 - footer_ratio))
                  (page_height pg * header_ratio));
    rewrite columns_loop_app;
    (split;
     [ intros t1 t2;
       destruct (columns_loop pg _ _ _ _ bs1) as [a|e1]; simpl; [|discriminate];
       destruct (columns_loop pg _ _ _ _ bs2) as [b|e2]; simpl; [|discriminate];
       intros H1 H2; injection H1 as <-; injection H2 as <-;
       rewrite filter_app; f_equal;
       apply join_app_glue; apply filter_nonempty_Forall
     | intros ex;
       destruct (columns_loop pg _ _ _ _ bs1) as [a|e1]; simpl; [discriminate|];
       intros H; exact H ]).
Qed.

End ColumnsCompose.

Section EqualColumnsErrors.

Lemma float_of_int_Raise (n : Z) (e : exn) :
  float_of_int n = Raise e -> e = OverflowError.
Proof.
  unfold float_of_int. destruct (SF_of_Z n); try discriminate.
  intros H. injection H as <-. reflexivity.
Qed.

Lemma equal_columns_loop_Raise (step : float) (idxs : list Z) (e : exn) :
  equal_columns_loop step idxs = Raise e -> e = OverflowError.
Proof.
  induction idxs as [|i rest IH]; [discriminate|].
  cbn [equal_columns_loop].
  destruct (float_of_int i) as [fi|e1] eqn:E1; simpl;
    [|intros H; injection H as <-; apply (float_of_int_Raise _ E1)].
  destruct (float_of_int (i + 1)) as [fi1|e2] eqn:E2; simpl;
    [|intros H; injection H as <-; apply (float_of_int_Raise _ E2)].
  destruct (equal_columns_loop step rest) as [cols|e3]; simpl; [discriminate|].
  intros H. injection H as <-. apply IH. reflexivity.
Qed.

Lemma equal_columns_Raise (W : float) (n : Z) (e : exn) :
  equal_columns W n = Raise e -> e = OverflowError \/ e = ZeroDivisionError.
Proof.
  unfold equal_columns.
  destruct (float_of_int n) as [fn|e1] eqn:E1; simpl;
    [|intros H; injection H as <-; left; apply (float_of_int_Raise _ E1)].
  unfold py_div. destruct (PrimFloat.eqb fn 0); simpl.
  - intros H. injection H as <-. right. reflexivity.
  - intros H. left. apply (equal_columns_loop_Raise _ _ H).
Qed.

End EqualColumnsErrors.

Section Pages.
Context {RT : Runtime}.
Variables (pages : list page) (default_cols : Z)
          (header_ratio footer_ratio x_tolerance y_tolerance : float)
          (odd_cols_spec even_cols_spec : option str).

Local Abbreviation loop :=
  (pages_loop pages default_cols header_ratio footer_ratio x_tolerance
     y_tolerance odd_cols_spec even_cols_spec).
Local Abbreviation run s e :=
  (pdf_to_txt_parity_boxes pages s e default_cols header_ratio footer_ratio
     x_tolerance y_tolerance odd_cols_spec even_cols_spec).
Local Abbreviation total := (Z.of_nat (List.length pages)).

(** The boxes chosen for the page with 0-based index [idx0]. *)
Local Abbreviation boxes_for idx0 W :=
  (if ((idx0 + 1) mod 2 =? 1)%Z && truthy odd_cols_spec
   then parse_cols_spec (spec_of odd_cols_spec) W
   else if ((idx0 + 1) mod 2 =? 0)%Z && truthy even_cols_spec
   then parse_cols_spec (spec_of even_cols_spec) W
   else equal_columns W default_cols).

Lemma run_loop (s : Z) (e : option Z) :
  run s e
  = (all_text <- loop (range (Z.max 1 s - 1)
                         (Z.max (Z.max 1 s)
                                (Z.min (match e with Some e' => e' | None => total end)
                                       total))) ;;
     Ok (join [newline; newline] all_text)).
Proof. reflexivity. Qed.

Lemma pages_loop_app (l1 l2 : list Z) :
  loop (l1 ++ l2) = (a <- loop l1 ;; b <- loop l2 ;; Ok (a ++ b)).
Proof.
  induction l1 as [|i l1 IH].
  - simpl. destruct (loop l2); reflexivity.
  - change ((i :: l1) ++ l2) with (i :: (l1 ++ l2)).
    cbn [pages_loop]. rewrite IH.
    destruct (get_page pages i) as [pg|e]; simpl; [|reflexivity].
    destruct (boxes_for i (page_width pg)) as [bx|e]; simpl; [|reflexivity].
    destruct (extract_page_columns pg bx _ _ _ _) as [t|e]; simpl; [|reflexivity].
    destruct (loop l1) as [a|e]; simpl; [|reflexivity].
    destruct (loop l2) as [b|e]; simpl; [|reflexivity].
    destruct (is_empty t); reflexivity.
Qed.

Lemma pages_loop_clean (idxs : list Z) (all_text : list str) :
  loop idxs = Ok all_text ->
  Forall (fun t => clean_text t /\ t <> []) all_text.
Proof.
  revert all_text. induction idxs as [|i rest IH]; intros all_text.
  - simpl. intros H. injection H as <-. constructor.
  - cbn [pages_loop].
    destruct (get_page pages i) as [pg|e]; simpl; [|discriminate].
    destruct (boxes_for i (page_width pg)) as [bx|e]; simpl; [|discriminate].
    destruct (extract_page_columns pg bx _ _ _ _) as [t|e] eqn:Et; simpl;
      [|discriminate].
    destruct (loop rest) as [more|e]; simpl; [|discriminate].
    intros H. injection H as <-. specialize (IH more eq_refl).
    destruct t as [|c t]; [exact IH|]. cbn [is_empty].
    constructor; [|exact IH]. split; [|discriminate].
    apply (extract_page_columns_clean_text _ _ _ _ _ _ Et).
Qed.

Lemma boxes_for_Raise (i : Z) (W : float) (e : exn) :
  boxes_for i W = Raise e -> own_exception e.
Proof.
  assert (Hp : forall spec, parse_cols_spec spec W = Raise e -> own_exception e).
  { intros spec H.
    destruct (parse_cols_spec_Raise_kinds _ _ H)
      as [(p & -> & _)|[(s & -> & _)|[(p & x0 & x1 & -> & _)|(a & b & -> & _)]]];
      exact I. }
  destruct (_ && truthy odd_cols_spec); [apply Hp|].
  destruct (_ && truthy even_cols_spec); [apply Hp|].
  intros H. destruct (equal_columns_Raise _ _ H) as [-> | ->]; exact I.
Qed.

(** Where an exception of the loop over the pages comes from. *)
Lemma pages_loop_Raise (idxs : list Z) (e : exn) :
  loop idxs = Raise e ->
  (exists i, In i idxs /\ nth_error pages (Z.to_nat i) = None
             /\ e = IndexError i)
  \/ own_exception e
  \/ (exists pg bb, In pg pages /\ crop_chars pg bb = Raise e).
Proof.
  induction idxs as [|i rest IH]; [discriminate|].
  cbn [pages_loop].
  destruct (get_page pages i) as [pg|e1] eqn:Eg; simpl.
  - assert (Hin : In pg pages).
    { unfold get_page in Eg.
      destruct (nth_error pages (Z.to_nat i)) eqn:En; [|discriminate].
      injection Eg as <-. apply (nth_error_In _ _ En). }
    destruct (boxes_for i (page_width pg)) as [bx|e2] eqn:Eb; simpl.
    + destruct (extract_page_columns pg bx _ _ _ _) as [t|e3] eqn:Et; simpl.
      * destruct (loop rest) as [more|e4]; simpl; [discriminate|].
        intros H. injection H as <-.
        destruct (IH eq_refl) as [(j & Hj & Hn & He)|[Ho|Hc]].
        -- left. exists j. split; [right; exact Hj | auto].
        -- right. left. exact Ho.
        -- right. right. exact Hc.
      * intros H. injection H as <-. right. right.
        destruct (extract_page_columns_Raise _ _ _ _ _ _ Et) as [bb Hbb].
        exists pg, bb. auto.
    + intros H. injection H as <-. right. left.
      apply (boxes_for_Raise _ _ Eb).
  - intros H. injection H as <-. left. exists i.
    unfold get_page in Eg.
    destruct (nth_error pages (Z.to_nat i)) eqn:En; [discriminate|].
    injection Eg as <-. split; [left; reflexivity | auto].
Qed.

Lemma get_page_in_range (i : Z) :
  (0 <= i < total)%Z -> exists pg, get_page pages i = Ok pg.
Proof.
  intros Hi. unfold get_page.
  destruct (nth_error pages (Z.to_nat i)) as [pg|] eqn:E; [eauto|].
  apply nth_error_None in E. lia.
Qed.

(** X22. The page range is cut to the document: a start page below 1
    reads as 1, an end page beyond the last page reads as no end page, and
    an end page at or before the start page reads as the start page, so
    that this one page is still extracted. *)
Theorem pdf_to_txt_page_range_clamped (s : Z) (e : option Z) :
  ((s <= 1)%Z ->
   pdf_to_txt_parity_boxes pages s e default_cols header_ratio footer_ratio
     x_tolerance y_tolerance odd_cols_spec even_cols_spec
   = pdf_to_txt_parity_boxes pages 1 e default_cols header_ratio footer_ratio
       x_tolerance y_tolerance odd_cols_spec even_cols_spec)
  /\ (forall e',
        (Z.of_nat (List.length pages) <= e')%Z ->
        pdf_to_txt_parity_boxes pages s (Some e') default_cols header_ratio footer_ratio
          x_tolerance y_tolerance odd_cols_spec even_cols_spec
        = pdf_to_txt_parity_boxes pages s None default_cols header_ratio footer_ratio
            x_tolerance y_tolerance odd_cols_spec even_cols_spec)
  /\ (forall e',
        (e' <= Z.max 1 s)%Z ->
        pdf_to_txt_parity_boxes pages s (Some e') default_cols header_ratio footer_ratio
          x_tolerance y_tolerance odd_cols_spec even_cols_spec
        = pdf_to_txt_parity_boxes pages s (Some (Z.max 1 s)) default_cols header_ratio footer_ratio
            x_tolerance y_tolerance odd_cols_spec even_cols_spec).
Proof.
  split; [|split].
  - intros Hs. rewrite !run_loop.
    replace (Z.max 1 s) with 1%Z by lia. reflexivity.
  - intros e' He. rewrite !run_loop.
    replace (Z.min e' total) with total by lia.
    replace (Z.min total total) with total by lia. reflexivity.
  - intros e' He. rewrite !run_loop.
    replace (Z.max (Z.max 1 s) (Z.min e' total)) with (Z.max 1 s) by lia.
    replace (Z.max (Z.max 1 s) (Z.min (Z.max 1 s) total)) with (Z.max 1 s) by lia.
    reflexivity.
Qed.

(** X23. An exception that leaves [pdf_to_txt_parity_boxes] is the
    [IndexError] of a start page beyond the last page, or an error of the
    script's own (from parsing a column spec, or [ZeroDivisionError] or
    [OverflowError] from the equal columns), or an exception pdfplumber
    raised while cropping one of the pages. *)
Theorem pdf_to_txt_exceptions (s : Z) (e : option Z) (ex : exn) :
  pdf_to_txt_parity_boxes pages s e default_cols header_ratio footer_ratio
    x_tolerance y_tolerance odd_cols_spec even_cols_spec
  = Raise ex ->
  ((Z.of_nat (List.length pages) < Z.max 1 s)%Z
   /\ ex = IndexError (Z.max 1 s - 1))
  \/ own_exception ex
  \/ (exists pg bb, In pg pages /\ crop_chars pg bb = Raise ex).
Proof.
  rewrite run_loop.
  set (ep := Z.max (Z.max 1 s)
               (Z.min (match e with Some e' => e' | None => total end) total)).
  destruct (loop (range (Z.max 1 s - 1) ep)) as [all_text|e1] eqn:El; simpl;
    [discriminate|].
  intros H. injection H as <-.
  destruct (pages_loop_Raise _ El) as [(i & Hi & Hn & ->)|[Ho|Hc]].
  - left. apply range_In in Hi. apply nth_error_None in Hn.
    assert (Hlt : (total < Z.max 1 s)%Z) by lia.
    split; [exact Hlt|]. f_equal. lia.
  - right. left. exact Ho.
  - right. right. exact Hc.
Qed.

(** X24. Whatever [pdf_to_txt_parity_boxes] writes is in the form
    [clean_lines] gives: cleaning or stripping it changes nothing, its only
    line break is ["\n"], no line has trailing whitespace and no two
    consecutive lines are blank. *)
Theorem pdf_to_txt_output_clean (s : Z) (e : option Z) (text : str) :
  pdf_to_txt_parity_boxes pages s e default_cols header_ratio footer_ratio
    x_tolerance y_tolerance odd_cols_spec even_cols_spec
  = Ok text ->
  clean_lines text = text /\ strip text = text /\ only_newlines text
  /\ Forall rstripped (splitlines text)
  /\ neighbours no_blank_after_blank (splitlines text).
Proof.
  rewrite run_loop.
  destruct (loop _) as [all_text|e1] eqn:El; simpl; [|discriminate].
  intros H. injection H as <-.
  apply clean_text_facts, clean_text_join.
  apply (pages_loop_clean _ El).
Qed.

(** X25. A page range can be extracted in two runs: when the runs on the
    pages [s..m] and [m+1..e] of the document return, the run on [s..e]
    returns their texts, with a blank line between them when neither is
    empty; and when the run on [s..m] raises an exception, so does the run
    on [s..e]. *)
Theorem pdf_to_txt_split_range (s m e : Z) :
  (1 <= s)%Z -> (s <= m)%Z -> (m < e)%Z ->
  (e <= Z.of_nat (List.length pages))%Z ->
  (forall t1 t2,
      pdf_to_txt_parity_boxes pages s (Some m) default_cols header_ratio footer_ratio
        x_tolerance y_tolerance odd_cols_spec even_cols_spec
      = Ok t1 ->
      pdf_to_txt_parity_boxes pages (m + 1) (Some e) default_cols header_ratio footer_ratio
        x_tolerance y_tolerance odd_cols_spec even_cols_spec
      = Ok t2 ->
      pdf_to_txt_parity_boxes pages s (Some e) default_cols header_ratio footer_ratio
        x_tolerance y_tolerance odd_cols_spec even_cols_spec
      = Ok (glue t1 t2))
  /\ (forall ex,
        pdf_to_txt_parity_boxes pages s (Some m) default_cols header_ratio footer_ratio
          x_tolerance y_tolerance odd_cols_spec even_cols_spec
        = Raise ex ->
        pdf_to_txt_parity_boxes pages s (Some e) default_cols header_ratio footer_ratio
          x_tolerance y_tolerance odd_cols_spec even_cols_spec
        = Raise ex).
Proof.
  intros Hs Hsm Hme Het. rewrite !run_loop.
  replace (Z.max 1 s) with s by lia.
  replace (Z.max 1 (m + 1)) with (m + 1)%Z by lia.
  replace (Z.max s (Z.min m total)) with m by lia.
  replace (Z.max (m + 1) (Z.min e total)) with e by lia.
  replace (Z.max s (Z.min e total)) with e by lia.
  replace (m + 1 - 1)%Z with m by lia.
  rewrite (@range_app (s - 1) m e) by lia.
  rewrite pages_loop_app.
  split.
  - intros t1 t2.
    destruct (loop (range (s - 1) m)) as [a|e1] eqn:Ea; simpl; [|discriminate].
    destruct (loop (range m e)) as [b|e2] eqn:Eb; simpl; [|discriminate].
    intros H1 H2. injection H1 as <-. injection H2 as <-.
    f_equal. apply join_app_glue.
    + eapply Forall_impl; [|apply (pages_loop_clean _ Ea)]. simpl. tauto.
    + eapply Forall_impl; [|apply (pages_loop_clean _ Eb)]. simpl. tauto.
  - intros ex.
    destruct (loop (range (s - 1) m)) as [a|e1]; simpl; [discriminate|].
    intros H. exact H.
Qed.

(** X26. With no column spec in use and [default_cols] 0, the run raises
    [ZeroDivisionError] as soon as its start page exists. *)
Theorem pdf_to_txt_zero_default_cols (s : Z) (e : option Z) :
  default_cols = 0%Z ->
  truthy odd_cols_spec = false -> truthy even_cols_spec = false ->
  (Z.max 1 s <= Z.of_nat (List.length pages))%Z ->
  pdf_to_txt_parity_boxes pages s e default_cols header_ratio footer_ratio
    x_tolerance y_tolerance odd_cols_spec even_cols_spec
  = Raise ZeroDivisionError.
Proof.
  intros Hd Ho He Hs. rewrite run_loop.
  set (ep := Z.max (Z.max 1 s)
               (Z.min (match e with Some e' => e' | None => total end) total)).
  rewrite (@range_cons (Z.max 1 s - 1) ep) by (unfold ep; lia).
  cbn [pages_loop].
  destruct (@get_page_in_range (Z.max 1 s - 1) ltac:(lia)) as [pg ->].
  cbn [bind]. rewrite Ho, He, !andb_false_r, Hd. reflexivity.
Qed.

End Pages.


Section Specs.
Context {RT : Runtime}.
Variables (pages : list page) (default_cols : Z)
          (header_ratio footer_ratio x_tolerance y_tolerance : float).

Local Abbreviation loop odd even :=
  (pages_loop pages default_cols header_ratio footer_ratio x_tolerance
     y_tolerance odd even).
Local Abbreviation run s e odd even :=
  (pdf_to_txt_parity_boxes pages s e default_cols header_ratio footer_ratio
     x_tolerance y_tolerance odd even).
Local Abbreviation total := (Z.of_nat (List.length pages)).

Lemma pages_loop_odd_falsy (odd odd' even : option str) (idxs : list Z) :
  truthy odd = false -> truthy odd' = false ->
  loop odd even idxs = loop odd' even idxs.
Proof.
  intros Ho Ho'. induction idxs as [|i rest IH]; [reflexivity|].
  cbn [pages_loop]. rewrite IH, Ho, Ho', !andb_false_r. reflexivity.
Qed.

Lemma pages_loop_even_falsy (odd even even' : option str) (idxs : list Z) :
  truthy even = false -> truthy even' = false ->
  loop odd even idxs = loop odd even' idxs.
Proof.
  intros He He'. induction idxs as [|i rest IH]; [reflexivity|].
  cbn [pages_loop]. rewrite IH, He, He', !andb_false_r. reflexivity.
Qed.

Lemma extract_page_columns_no_boxes (pg : page) :
  extract_page_columns pg [] header_ratio footer_ratio x_tolerance y_tolerance
  = Ok [].
Proof.
  unfold extract_page_columns. destruct (py_le _ _); reflexivity.
Qed.

Lemma pages_loop_blank_specs (spec_odd spec_even : str) (idxs : list Z) :
  spec_odd <> [] -> spec_even <> [] ->
  nonblank_parts spec_odd = [] -> nonblank_parts spec_even = [] ->
  Forall (fun i => 0 <= i < total)%Z idxs ->
  loop (Some spec_odd) (Some spec_even) idxs = Ok [].
Proof.
  intros Hno Hne Ho He Hall.
  assert (Hto : truthy (Some spec_odd) = true)
    by (destruct spec_odd; [contradiction | reflexivity]).
  assert (Hte : truthy (Some spec_even) = true)
    by (destruct spec_even; [contradiction | reflexivity]).
  induction Hall as [|i rest Hi _ IH]; [reflexivity|].
  cbn [pages_loop]. rewrite IH, Hto, Hte, !andb_true_r.
  destruct (get_page_in_range pages Hi) as [pg ->]. cbn [bind spec_of].
  assert (Hb : (if ((i + 1) mod 2 =? 1)%Z
                then parse_cols_spec spec_odd (page_width pg)
                else if ((i + 1) mod 2 =? 0)%Z
                     then parse_cols_spec spec_even (page_width pg)
                     else equal_columns (page_width pg) default_cols)
               = Ok []).
  { destruct ((i + 1) mod 2 =? 1)%Z eqn:E1.
    - apply parse_cols_spec_no_parts. exact Ho.
    - destruct ((i + 1) mod 2 =? 0)%Z eqn:E0.
      + apply parse_cols_spec_no_parts. exact He.
      + apply Z.eqb_neq in E1, E0.
        pose proof (Z.mod_pos_bound (i + 1) 2 ltac:(lia)). lia. }
  rewrite Hb. cbn [bind]. rewrite extract_page_columns_no_boxes. reflexivity.
Qed.

(** X27. An empty spec string counts as no spec: the pages of its parity
    get the equal default columns. A spec that is not empty but holds only
    blank parts (as [","] or [" "]) selects no column at all: when both
    specs are such, every page in the range is read and the text is empty. *)
Theorem pdf_to_txt_empty_and_blank_specs (s : Z) (e : option Z) :
  (forall even,
      pdf_to_txt_parity_boxes pages s e default_cols header_ratio footer_ratio
        x_tolerance y_tolerance (Some []) even
      = pdf_to_txt_parity_boxes pages s e default_cols header_ratio footer_ratio
          x_tolerance y_tolerance None even)
  /\ (forall odd,
        pdf_to_txt_parity_boxes pages s e default_cols header_ratio footer_ratio
          x_tolerance y_tolerance odd (Some [])
        = pdf_to_txt_parity_boxes pages s e default_cols header_ratio footer_ratio
            x_tolerance y_tolerance odd None)
  /\ (forall spec_odd spec_even,
        spec_odd <> [] -> spec_even <> [] ->
        nonblank_parts spec_odd = [] -> nonblank_parts spec_even = [] ->
        (Z.max 1 s <= Z.of_nat (List.length pages))%Z ->
        pdf_to_txt_parity_boxes pages s e default_cols header_ratio footer_ratio
          x_tolerance y_tolerance (Some spec_odd) (Some spec_even)
        = Ok []).
Proof.
  split; [|split].
  - intros even. rewrite !run_loop.
    rewrite (@pages_loop_odd_falsy (Some []) None even); reflexivity.
  - intros odd. rewrite !run_loop.
    rewrite (@pages_loop_even_falsy odd (Some []) None); reflexivity.
  - intros spec_odd spec_even Hno Hne Ho He Hs. rewrite run_loop.
    rewrite pages_loop_blank_specs; try assumption; [reflexivity|].
    apply Forall_forall. intros i Hi. apply range_In in Hi. lia.
Qed.

(** X28. On a one-page run the spec of the other parity is not looked at:
    an odd page is read with the odd spec (or the default columns), whatever
    the even spec is, and an even page likewise. *)
Theorem pdf_to_txt_one_page_parity (s : Z) :
  (1 <= s <= Z.of_nat (List.length pages))%Z ->
  ((s mod 2 = 1)%Z ->
   forall odd even even',
     pdf_to_txt_parity_boxes pages s (Some s) default_cols header_ratio footer_ratio
       x_tolerance y_tolerance odd even
     = pdf_to_txt_parity_boxes pages s (Some s) default_cols header_ratio footer_ratio
         x_tolerance y_tolerance odd even')
  /\ ((s mod 2 = 0)%Z ->
      forall odd odd' even,
        pdf_to_txt_parity_boxes pages s (Some s) default_cols header_ratio footer_ratio
          x_tolerance y_tolerance odd even
        = pdf_to_txt_parity_boxes pages s (Some s) default_cols header_ratio footer_ratio
            x_tolerance y_tolerance odd' even).
Proof.
  intros Hs.
  assert (Hr : forall odd even,
             run s (Some s) odd even
             = (all_text <- loop odd even [(s - 1)%Z] ;;
                Ok (join [newline; newline] all_text))).
  { intros odd even. rewrite run_loop.
    replace (Z.max 1 s) with s by lia.
    replace (Z.max s (Z.min s total)) with s by lia.
    rewrite range_one. reflexivity. }
  split.
  - intros Hodd odd even even'. rewrite !Hr. cbn [pages_loop].
    replace (s - 1 + 1)%Z with s by lia. rewrite Hodd. cbn [Z.eqb andb].
    reflexivity.
  - intros Heven odd odd' even. rewrite !Hr. cbn [pages_loop].
    replace (s - 1 + 1)%Z with s by lia. rewrite Heven. cbn [Z.eqb andb].
    reflexivity.
Qed.

End Specs.

(* ================================================================== *)
(** ** Runs on concrete inputs *)

Module Runs.
Import Samples.
#[local] Existing Instance Ref.runtime.

Example spec_points :
  parse_cols_spec (lit "0:100,100:200") 200 = Ok [(0, 100); (100, 200)]%float.
Proof. vm_compute. reflexivity. Qed.

Example spec_percent :
  parse_cols_spec (lit "0%:50%,50%:100%") 200 = Ok [(0, 100); (100, 200)]%float.
Proof. vm_compute. reflexivity. Qed.

Example spec_overlap :
  parse_cols_spec (lit "0:100,50:150") 200
  = Raise (OverlapError (0, 100)%float (50, 150)%float).
Proof. vm_compute. reflexivity. Qed.

(** C1 as stated fails on a NaN edge: the spec ["0:1,nan:nan"] parses, and
    the returned boxes are neither in ascending order of x0 nor is the second
    at or after the right edge of the first. *)
Lemma parse_cols_spec_nan_unsorted :
  parse_cols_spec (lit "0:1,nan:nan") 200 = Ok [(0, 1)%float; (nan, nan)]
  /\ ~ (neighbours x0_le [(0, 1)%float; (nan, nan)]
        /\ neighbours starts_after [(0, 1)%float; (nan, nan)]).
Proof.
  split.
  - vm_compute. reflexivity.
  - intros [H _].
    specialize (H 0%nat (0, 1)%float (nan, nan) (conj eq_refl eq_refl)).
    vm_compute in H. discriminate.
Qed.

Lemma parse_cols_spec_sorted_disjoint_witness :
  (neighbours x0_le [(0, 100); (100, 200)]%float
   /\ neighbours starts_after [(0, 100); (100, 200)]%float)
  /\ (exists j a' b',
         adjacent_at [(0, 100); (50, 150)]%float j a' b' /\ overlaps a' b' /\
         (forall k c d,
             (k < j)%nat -> adjacent_at [(0, 100); (50, 150)]%float k c d ->
             ~ overlaps c d) /\
         parse_cols_spec (lit "0:100,50:150") 200 = Raise (OverlapError a' b'))
  /\ (exists a' b',
         In a' [(50, 150); (200, 300); (0, 100)]%float
         /\ In b' [(50, 150); (200, 300); (0, 100)]%float
         /\ overlaps a' b'
         /\ parse_cols_spec (lit "50:150,200:300,0:100") 600
            = Raise (OverlapError a' b')).
Proof.
  split; [|split].
  - apply (proj1 (parse_cols_spec_sorted_disjoint (lit "0:100,100:200") 200)).
    + vm_compute. reflexivity.
    + repeat (constructor; try (split; reflexivity)).
  - apply (proj1 (proj2 (parse_cols_spec_sorted_disjoint (lit "0:100,50:150") 200))
             [(0, 100); (50, 150)]%float 0%nat (0, 100)%float (50, 150)%float).
    + vm_compute. reflexivity.
    + repeat (constructor; try (split; reflexivity)).
    + split; reflexivity.
    + vm_compute. reflexivity.
  - apply (proj2 (proj2 (parse_cols_spec_sorted_disjoint
                           (lit "50:150,200:300,0:100") 600))
             [(50, 150); (200, 300); (0, 100)]%float
             [] (50, 150)%float [(200, 300)%float] (0, 100)%float []).
    + vm_compute. reflexivity.
    + repeat (constructor; try (split; reflexivity)).
    + reflexivity.
    + split; vm_compute; reflexivity.
Defined.

Example spec_blank_parts :
  parse_cols_spec (lit "0:100,,200:300,") 200 = Ok [(0, 100); (200, 300)]%float.
Proof. vm_compute. reflexivity. Qed.

Lemma parse_cols_spec_ignores_blank_parts_witness :
  parse_cols_spec (lit " , ,") 200 = Ok []
  /\ parse_cols_spec (lit "0:100,,200:300,") 200
     = parse_cols_spec (lit "0:100,200:300") 200.
Proof.
  split.
  - apply (proj1 (parse_cols_spec_ignores_blank_parts 200) (lit " , ,")).
    repeat constructor.
  - apply (proj2 (parse_cols_spec_ignores_blank_parts 200)
             [lit "0:100"; []; lit "200:300"; []]).
    repeat constructor.
Defined.



Example pages_six_to_ten :
  page_bounds 10 6 None = (6, 10)%Z /\ range (6 - 1) 10 = [5; 6; 7; 8; 9]%Z.
Proof. split; reflexivity. Qed.

Example last_page_text :
  pdf_to_txt_parity_boxes five_pages 5 None 3 0.125 0.0625 1 2 None None
  = Ok (lit "<bold>A</bold>B").
Proof. vm_compute. reflexivity. Qed.

(** The default start page 6 on a document of five pages. *)
Lemma pdf_to_txt_start_beyond_last_page_witness :
  pdf_to_txt_parity_boxes five_pages 6 None 3 0.125 0.0625 1 2 None None
  = Raise (IndexError 5).
Proof.
  apply (pdf_to_txt_start_beyond_last_page five_pages 6 None 3
           0.125 0.0625 1 2 None None).
  vm_compute. reflexivity.
Defined.

(** Tops 100, 100.75 and 101.5 with the tolerance 0.25: the lines are
    grouped with 1.0, which puts the first two glyphs on one line and the
    third on the next. *)
Lemma extract_page_columns_min_tolerance_witness :
  extract_page_columns MoreSamples.page_rows [(0, 300)%float] 0.125 0.0625 1 0.25
  = Ok (lit "AB" ++ [newline] ++ lit "C")
  /\ extract_page_columns page_AB [(0, 300)%float] 0.125 0.0625 1 0.25
     = extract_page_columns page_AB [(0, 300)%float] 0.125 0.0625 1 1.
Proof.
  split.
  - rewrite (proj1 (extract_page_columns_min_tolerance
                      MoreSamples.page_rows [(0, 300)%float] 0.125 0.0625 1 0.25)).
    vm_compute. reflexivity.
  - apply (proj1 (proj2 (proj2 (extract_page_columns_min_tolerance
                                  page_AB [(0, 300)%float] 0.125 0.0625 1 0.25)))).
    vm_compute. reflexivity.
Defined.

Example tolerance_above_one :
  extract_page_columns MoreSamples.page_rows [(0, 300)%float] 0.125 0.0625 1 2
  = Ok (lit "ACB").
Proof. vm_compute. reflexivity. Qed.

Example bold_runs :
  _reconstruct_line_with_bold line_ABC 0.5 = lit "<bold>A</bold>B<bold>C</bold>".
Proof. vm_compute. reflexivity. Qed.

Example spaces :
  _reconstruct_line_with_bold line_gap 0.5 = lit "A BC".
Proof. vm_compute. reflexivity. Qed.

Lemma reconstruct_line_bold_balanced_witness :
  markup_balanced (_reconstruct_line_with_bold line_ABC 0.5)
  /\ exists l1 ch l2 before,
       line_ABC = l1 ++ ch :: l2 /\ has_text ch = true /\
       Forall (fun g => has_text g = false) l2 /\
       reconstruct_pieces line_ABC 0.5 = before ++ [Text (g_text ch); BoldClose] /\
       _reconstruct_line_with_bold line_ABC 0.5
       = concat_all (map render before) ++ g_text ch ++ lit "</bold>".
Proof.
  pose proof (reconstruct_line_bold_balanced 0.5 line_ABC) as (_ & _ & H3 & H4).
  split.
  - apply H4. repeat constructor.
  - apply H3. vm_compute. reflexivity.
Defined.

(** C3 as stated fails on a glyph whose text is itself a marker: the text
    is copied into the line as it is, and the string returned for a bold
    glyph with the text ["<bold>"] opens a bold run inside a bold run. *)
Lemma reconstruct_line_marker_in_text :
  _reconstruct_line_with_bold [MoreSamples.glyph_marker] 0.5
  = lit "<bold><bold></bold>"
  /\ ~ line_markup_balanced [MoreSamples.glyph_marker] 0.5.
Proof.
  split.
  - vm_compute. reflexivity.
  - unfold line_markup_balanced, markup_balanced. vm_compute. discriminate.
Qed.


Lemma reconstruct_line_skips_empty_text_witness :
  rstep 0.5 rstate0 (glyph_empty) = rstate0
  /\ _reconstruct_line_with_bold line_gap 0.5
     = _reconstruct_line_with_bold
         [glyph_of "A" 0 5 "Arial"; glyph_of "B" 8 10 "Arial";
          glyph_of "C" 11 13 "Arial"] 0.5.
Proof.
  pose proof (reconstruct_line_skips_empty_text 0.5) as (H1 & _ & H3 & _).
  split.
  - apply H1. reflexivity.
  - apply (H3 [glyph_of "A" 0 5 "Arial"] (glyph_empty)
              [glyph_of "B" 8 10 "Arial"; glyph_of "C" 11 13 "Arial"]).
    reflexivity.
Defined.

Example clean_inner_run :
  clean_lines (lit "a" ++ [newline; newline; newline] ++ lit "b")
  = lit "a" ++ [newline; newline] ++ lit "b".
Proof. vm_compute. reflexivity. Qed.

(** Blank lines at the ends go, a run inside leaves one empty line. *)
Example clean_lines_blank_ends :
  clean_lines (lit " " ++ [newline] ++ lit "a " ++ [newline; newline]
               ++ lit "  " ++ [newline] ++ lit " b" ++ [newline; newline])
  = lit "a" ++ [newline; newline] ++ lit " b".
Proof. vm_compute. reflexivity. Qed.

(** C5 as stated fails on a leading blank line: the text ["\na"] has one
    run of blank lines, and the result ["a"] has no blank line. *)
Lemma clean_lines_drops_leading_blank :
  clean_lines (newline :: lit "a") = lit "a"
  /\ ~ first_blank_of_each_run_kept (newline :: lit "a").
Proof.
  split.
  - vm_compute. reflexivity.
  - unfold first_blank_of_each_run_kept. vm_compute. discriminate.
Qed.

Example three_columns :
  equal_columns 612 3 = Ok [(0, 204); (204, 408); (408, 612)]%float.
Proof. vm_compute. reflexivity. Qed.

(** C6 as stated fails in float arithmetic: 49 columns over the width 1
    end short of 1, and of 3 columns over the width 595 the third is not
    595/3 wide. *)
Lemma equal_columns_rounding :
  (exists cols, equal_columns 1 49 = Ok cols /\ ~ ends_at 1 cols)
  /\ (exists cols, equal_columns 595 3 = Ok cols
                   /\ ~ all_of_width (595 / 3) cols).
Proof.
  split.
  - eexists. split; [vm_compute; reflexivity|].
    intros (b & Hb & Hw). vm_compute in Hb. injection Hb as <-.
    vm_compute in Hw. discriminate.
  - eexists. split; [vm_compute; reflexivity|].
    intros H. inversion H as [|? ? _ H1]; subst.
    inversion H1 as [|? ? _ H2]; subst.
    inversion H2 as [|? ? Hw _]; subst.
    vm_compute in Hw. discriminate.
Qed.

Lemma equal_columns_boxes_witness :
  exists cols,
    equal_columns 612 3 = Ok cols
    /\ List.length cols = 3%nat
    /\ (forall i, (0 <= i < 3)%Z ->
          nth_error cols (Z.to_nat i)
          = Some (float_of_Z i * (612 / float_of_Z 3),
                  float_of_Z (i + 1) * (612 / float_of_Z 3))%float)
    /\ neighbours contiguous cols
    /\ (is_finite (612 / float_of_Z 3) = true ->
        exists b rest, cols = b :: rest /\ PrimFloat.eqb (fst b) 0 = true)
    /\ (py_lt 0 612 = true -> is_finite (612 / float_of_Z 3) = true ->
        neighbours x0_le cols
        /\ Forall (fun b => py_le (fst b) (snd b) = true) cols).
Proof.
  apply (@equal_columns_boxes 612 3). lia.
Defined.

End Runs.

(* ================================================================== *)
(** ** More runs on concrete inputs *)

Module MoreRuns.
Import Samples MoreSamples.
#[local] Existing Instance Ref.runtime.

Example clean_twice :
  clean_lines (lit "  a  " ++ [cr; newline; newline; newline] ++ lit "b ")
  = lit "a" ++ [newline; newline] ++ lit "b".
Proof. vm_compute. reflexivity. Qed.

Lemma _parse_coord_outer_whitespace_witness :
  _parse_coord (lit " " ++ lit "120" ++ lit "  ") 200
  = _parse_coord (lit "120") 200.
Proof.
  apply (@_parse_coord_outer_whitespace Ref.runtime
           (lit " ") (lit "120") (lit "  ") 200); reflexivity.
Defined.

Lemma _parse_coord_full_width_witness :
  _parse_coord (lit " 100% ") 612 = Ok 612%float.
Proof.
  apply (@_parse_coord_full_width Ref.runtime (lit " 100% ") 612);
    vm_compute; reflexivity.
Defined.

Lemma parse_cols_spec_exceptions_witness :
  (exists p, FormatError (lit "abc") = FormatError p
             /\ In p (nonblank_parts (lit "0:100,abc"))
             /\ contains colon p = false)
  \/ (exists s, FormatError (lit "abc") = FloatSyntaxError s
                /\ float_of_str s = None)
  \/ (exists p x0 x1, FormatError (lit "abc") = InvalidBoxError p x0 x1
                      /\ In p (nonblank_parts (lit "0:100,abc"))
                      /\ py_le x1 x0 = true)
  \/ (exists a b, FormatError (lit "abc") = OverlapError a b
                  /\ py_lt (fst b) (snd a) = true).
Proof.
  apply (@parse_cols_spec_exceptions Ref.runtime (lit "0:100,abc") 200
           (FormatError (lit "abc"))).
  vm_compute. reflexivity.
Defined.

Lemma parse_cols_spec_boxes_witness :
  exists bs,
    parse_parts (nonblank_parts (lit "100:200,0:100")) 200 = Ok bs
    /\ Permutation [(0, 100); (100, 200)]%float bs
    /\ List.length [(0, 100); (100, 200)]%float
       = List.length (nonblank_parts (lit "100:200,0:100"))
    /\ Forall (fun b => py_le (snd b) (fst b) = false)
              [(0, 100); (100, 200)]%float
    /\ neighbours (fun a b => py_lt (fst b) (snd a) = false)
                  [(0, 100); (100, 200)]%float.
Proof.
  apply (@parse_cols_spec_boxes Ref.runtime (lit "100:200,0:100") 200
           [(0, 100); (100, 200)]%float).
  vm_compute. reflexivity.
Defined.

Example spec_inverted_box :
  parse_cols_spec (lit "0:100,300:200") 600
  = Raise (InvalidBoxError (lit "300:200") 300 200).
Proof. vm_compute. reflexivity. Qed.

Lemma parse_cols_spec_order_irrelevant_witness :
  parse_cols_spec (lit "100:200,0:100") 200 = Ok [(0, 100); (100, 200)]%float.
Proof.
  apply (@parse_cols_spec_order_irrelevant Ref.runtime
           (lit "0:100,100:200") (lit "100:200,0:100") 200
           [(0, 100); (100, 200)]%float).
  - vm_compute. apply perm_swap.
  - vm_compute. reflexivity.
  - repeat (constructor; try (split; reflexivity)).
Defined.

Lemma parse_cols_spec_points_ignore_width_witness :
  parse_cols_spec (lit "0:100,100:200") 200
  = parse_cols_spec (lit "0:100,100:200") 612.
Proof.
  apply (@parse_cols_spec_points_ignore_width Ref.runtime
           (lit "0:100,100:200") 200 612).
  reflexivity.
Defined.

Lemma equal_columns_no_columns_witness :
  equal_columns 612 0 = Raise ZeroDivisionError
  /\ equal_columns 612 (-3) = Ok [].
Proof.
  split.
  - apply (proj1 (equal_columns_no_columns 612 0)). reflexivity.
  - apply (proj2 (equal_columns_no_columns 612 (-3))). lia.
Defined.

Example font_names :
  _looks_bold (lit "ABCDEF+Helvetica-SemiBold") = true
  /\ _looks_bold (lit "Times-Roman") = false.
Proof. split; vm_compute; reflexivity. Qed.

Example two_lines :
  _group_chars_into_lines two_rows 1
  = [[glyph_of "A" 10 15 "Arial-Bold"; glyph_of "B" 15 20 "Arial"];
     [glyph_at "C" 10 15 120]].
Proof. vm_compute. reflexivity. Qed.

Lemma _group_chars_into_lines_left_to_right_witness :
  Forall (fun l => neighbours (fun a b => py_le (x0_of a) (x0_of b) = true) l)
         (_group_chars_into_lines two_rows 1).
Proof.
  apply (@_group_chars_into_lines_left_to_right Ref.runtime two_rows 1).
  repeat constructor.
Defined.

Lemma extract_text_with_bold_is_clean_witness :
  clean_lines (lit "<bold>A</bold>B") = lit "<bold>A</bold>B".
Proof.
  apply (@extract_text_with_bold_is_clean Ref.runtime page_AB
           (0, 0, 600, 800)%float 1 (lit "<bold>A</bold>B")).
  vm_compute. reflexivity.
Defined.

Lemma extract_page_columns_skips_empty_boxes_witness :
  extract_page_columns page_AB ([(0, 300)%float] ++ (700, 800)%float :: [])
    0.125 0.0625 1 2
  = extract_page_columns page_AB ([(0, 300)%float] ++ []) 0.125 0.0625 1 2.
Proof.
  apply (@extract_page_columns_skips_empty_boxes Ref.runtime page_AB
           [(0, 300)%float] [] 700 800 0.125 0.0625 1 2).
  right. left. vm_compute. reflexivity.
Defined.

Lemma pdf_to_txt_exceptions_witness :
  ((Z.of_nat (List.length five_pages) < Z.max 1 6)%Z
   /\ IndexError 5 = IndexError (Z.max 1 6 - 1))
  \/ own_exception (IndexError 5)
  \/ (exists pg bb, In pg five_pages /\ crop_chars pg bb = Raise (IndexError 5)).
Proof.
  apply (@pdf_to_txt_exceptions Ref.runtime five_pages 3 0.125 0.0625 1 2
           None None 6 None (IndexError 5)).
  vm_compute. reflexivity.
Defined.

Lemma pdf_to_txt_output_clean_witness :
  clean_lines (lit "<bold>A</bold>B") = lit "<bold>A</bold>B"
  /\ strip (lit "<bold>A</bold>B") = lit "<bold>A</bold>B"
  /\ only_newlines (lit "<bold>A</bold>B")
  /\ Forall rstripped (splitlines (lit "<bold>A</bold>B"))
  /\ neighbours no_blank_after_blank (splitlines (lit "<bold>A</bold>B")).
Proof.
  apply (@pdf_to_txt_output_clean Ref.runtime five_pages 3 0.125 0.0625 1 2
           None None 5 None (lit "<bold>A</bold>B")).
  vm_compute. reflexivity.
Defined.

Lemma pdf_to_txt_split_range_witness :
  pdf_to_txt_parity_boxes five_pages 1 (Some 3%Z) 3 0.125 0.0625 1 2 None None
  = Ok (glue (lit "<bold>A</bold>B" ++ [newline; newline] ++ lit "<bold>A</bold>B")
             (lit "<bold>A</bold>B")).
Proof.
  apply (proj1 (@pdf_to_txt_split_range Ref.runtime five_pages 3
                  0.125 0.0625 1 2 None None 1 2 3
                  ltac:(lia) ltac:(lia) ltac:(lia) ltac:(simpl; lia))).
  - vm_compute. reflexivity.
  - vm_compute. reflexivity.
Defined.

Lemma pdf_to_txt_zero_default_cols_witness :
  pdf_to_txt_parity_boxes five_pages 1 None 0 0.125 0.0625 1 2 None None
  = Raise ZeroDivisionError.
Proof.
  apply (@pdf_to_txt_zero_default_cols Ref.runtime five_pages 0
           0.125 0.0625 1 2 None None 1 None).
  - reflexivity.
  - reflexivity.
  - reflexivity.
  - simpl. lia.
Defined.

Example blank_spec_no_text :
  pdf_to_txt_parity_boxes five_pages 1 None 3 0.125 0.0625 1 2
    (Some (lit ",")) (Some (lit " "))
  = Ok [].
Proof. vm_compute. reflexivity. Qed.

Lemma pdf_to_txt_one_page_parity_witness :
  pdf_to_txt_parity_boxes five_pages 1 (Some 1%Z) 3 0.125 0.0625 1 2
    (Some (lit "0:300")) (Some (lit "junk"))
  = pdf_to_txt_parity_boxes five_pages 1 (Some 1%Z) 3 0.125 0.0625 1 2
      (Some (lit "0:300")) None.
Proof.
  apply (proj1 (@pdf_to_txt_one_page_parity Ref.runtime five_pages 3
                  0.125 0.0625 1 2 1 ltac:(simpl; lia))).
  reflexivity.
Defined.

End MoreRuns.
